(** * undgraph: the file reader and the mesh builder

    A shallow embedding of [read_undgraph] and of the mesh loop of [main]
    (src/undgraph.c), with the pieces of the C library they call
    ([fgets], [sscanf], [strtof], [strstr], [strcmp], [malloc]).

    - C [float] is IEEE 754 binary32: [spec_float] with precision 24 and
      exponent bound 128, every operation rounded to nearest-even
      (FLT_EVAL_METHOD 0).
    - For the order of the x coordinates a float has a rational value
      ([fval]) and every operation rounds its exact result ([rounds]).
    - Text is [list ascii]; a file is the list of its bytes.
    - The C library is glibc: the [%f] conversion of [sscanf] collects the
      characters of a number one by one, without looking ahead, and hands
      them to [strtof], so that it stores 1 from the text 1e and a NaN from
      the text nan( where a conversion that looks ahead would fail.
    - [lprintf] writes to stderr; the model records one [event] per call. *)

From Stdlib Require Import ZArith List Ascii String Bool Lia.
From Stdlib Require Import Floats.SpecFloat.
From stdpp Require Import list.
From Stdlib Require Import QArith Qround Qpower Qminmax Lqa.
Import ListNotations.

Local Open Scope nat_scope.

(** ** Part I: definitions *)

(** *** binary32 *)

Module F32.

Definition prec : Z := 24.
Definition emax : Z := 128.

Definition add : spec_float -> spec_float -> spec_float := SFadd prec emax.
Definition sub : spec_float -> spec_float -> spec_float := SFsub prec emax.
Definition mul : spec_float -> spec_float -> spec_float := SFmul prec emax.
Definition div : spec_float -> spec_float -> spec_float := SFdiv prec emax.
Definition abs : spec_float -> spec_float := SFabs.
Definition ltb : spec_float -> spec_float -> bool := SFltb.
Definition leb : spec_float -> spec_float -> bool := SFleb.

(** Conversion of an integer, as in [(float)i]. *)
Definition of_Z (z : Z) : spec_float := binary_normalize prec emax z 0 false.

(** The correctly rounded value of [num / den], with sign [s]; the quotient
    and the position of the remainder are computed as in [SFdiv]. *)
Definition of_ratio (s : bool) (num den : positive) : spec_float :=
  let '(q, e, l) := SFdiv_core_binary prec emax (Zpos num) 0 (Zpos den) 0 in
  binary_round_aux prec emax s q e l.

(** [m * base ^ e], correctly rounded. *)
Definition of_scaled (s : bool) (m : Z) (base : Z) (e : Z) : spec_float :=
  match m with
  | Zpos p =>
      if (0 <=? e)%Z then of_ratio s (Z.to_pos (Zpos p * base ^ e)) 1
      else of_ratio s p (Z.to_pos (base ^ (- e)))
  | _ => S754_zero s
  end.

Definition zero : spec_float := S754_zero false.
Definition one : spec_float := S754_finite false 8388608 (-23).
Definition FLT_MIN : spec_float := S754_finite false 8388608 (-149).
Definition FLT_MAX : spec_float := S754_finite false 16777215 104.
Definition FLT_EPSILON : spec_float := S754_finite false 8388608 (-46).

Definition isnan (x : spec_float) : bool :=
  match x with S754_nan => true | _ => false end.
Definition isinf (x : spec_float) : bool :=
  match x with S754_infinity _ => true | _ => false end.
Definition isfinite (x : spec_float) : bool :=
  match x with S754_zero _ | S754_finite _ _ _ => true | _ => false end.

End F32.

Abbreviation float := spec_float.
Abbreviation cstr := (list ascii).

(** *** Characters and strings of the C library *)

Definition txt (s : string) : cstr := list_ascii_of_string s.

Definition NUL : ascii := "000"%char.
Definition nl : ascii := "010"%char.

Definition code (c : ascii) : nat := nat_of_ascii c.

Definition isspace (c : ascii) : bool :=
  (code c =? 32) || ((9 <=? code c) && (code c <=? 13)).
Definition isdigit (c : ascii) : bool :=
  (48 <=? code c) && (code c <=? 57).
Definition tolower (c : ascii) : ascii :=
  if (65 <=? code c) && (code c <=? 90) then ascii_of_nat (code c + 32) else c.
Definition isxdigit (c : ascii) : bool :=
  isdigit c || ((97 <=? code (tolower c)) && (code (tolower c) <=? 102)).
Definition isalpha (c : ascii) : bool :=
  (97 <=? code (tolower c)) && (code (tolower c) <=? 122).
(** A character of the n-char-sequence of [NAN(...)]. *)
Definition isnchar (c : ascii) : bool :=
  isdigit c || isalpha c || (code c =? 95).

Definition digit_val (c : ascii) : Z := Z.of_nat (code c) - 48.
Definition xdigit_val (c : ascii) : Z :=
  if isdigit c then digit_val c else Z.of_nat (code (tolower c)) - 87.

Fixpoint take_while {A} (p : A -> bool) (l : list A) : list A :=
  match l with
  | x :: t => if p x then x :: take_while p t else []
  | [] => []
  end.

Fixpoint drop_while {A} (p : A -> bool) (l : list A) : list A :=
  match l with
  | x :: t => if p x then drop_while p t else l
  | [] => []
  end.

(** The bytes of a buffer that the string functions see: up to the first
    NUL. *)
Definition c_str (b : cstr) : cstr :=
  take_while (fun c => negb (Ascii.eqb c NUL)) b.

Definition strlen (s : cstr) : nat := length (c_str s).

(** [strcmp(a, b) == 0] *)
Fixpoint str_eqb (a b : cstr) : bool :=
  match a, b with
  | [], [] => true
  | x :: a', y :: b' => Ascii.eqb x y && str_eqb a' b'
  | _, _ => false
  end.

(** [s] without the leading [p], when [s] starts with [p]. *)
Fixpoint strip_prefix (p s : cstr) : option cstr :=
  match p, s with
  | [], _ => Some s
  | x :: p', y :: s' => if Ascii.eqb x y then strip_prefix p' s' else None
  | _ :: _, [] => None
  end.

(** The same, ignoring case in [s] ([p] is in lower case). *)
Fixpoint strip_prefix_ci (p s : cstr) : option cstr :=
  match p, s with
  | [], _ => Some s
  | x :: p', y :: s' =>
      if Ascii.eqb x (tolower y) then strip_prefix_ci p' s' else None
  | _ :: _, [] => None
  end.

(** [strstr(tag, key) == tag]: the first occurrence of [key] in [tag] is at
    its start. *)
Definition starts_with (key tag : cstr) : bool :=
  match strip_prefix key tag with Some _ => true | None => false end.

(** *** Numbers in text *)

Definition digits_val (base : Z) (val : ascii -> Z) (ds : cstr) : Z :=
  fold_left (fun a c => (a * base + val c)%Z) ds 0%Z.

Definition scan_sign (s : cstr) : bool * cstr :=
  match s with
  | c :: t =>
      if Ascii.eqb c "-" then (true, t)
      else if Ascii.eqb c "+" then (false, t)
      else (false, s)
  | [] => (false, s)
  end.

(** Digits before and after an optional radix character, and what
    follows. *)
Definition scan_mantissa (isd : ascii -> bool) (s : cstr)
  : cstr * cstr * cstr :=
  let ip := take_while isd s in
  match drop_while isd s with
  | c :: s2 =>
      if Ascii.eqb c "." then (ip, take_while isd s2, drop_while isd s2)
      else (ip, [], c :: s2)
  | [] => (ip, [], [])
  end.

(** An optional exponent part introduced by [mark] ("e" or "p"): its
    value and the text after it. A marker that no digit follows is not
    part of the number. *)
Definition scan_exponent (mark : ascii) (s : cstr) : Z * cstr :=
  match s with
  | c :: s1 =>
      if Ascii.eqb (tolower c) mark then
        let '(neg, s2) := scan_sign s1 in
        match take_while isdigit s2 with
        | [] => (0%Z, s)
        | ds =>
            let v := digits_val 10 digit_val ds in
            ((if neg then - v else v)%Z, drop_while isdigit s2)
        end
      else (0%Z, s)
  | [] => (0%Z, s)
  end.

(** What [strtof] found: the value of the subject sequence and the text
    after it. *)
Record fscan := { fs_val : float; fs_rest : cstr }.

Definition scan_decimal (neg : bool) (s : cstr) : option fscan :=
  let '(ip, fp, r) := scan_mantissa isdigit s in
  match ip ++ fp with
  | [] => None
  | ds =>
      let '(e, r') := scan_exponent "e" r in
      Some {| fs_val := F32.of_scaled neg (digits_val 10 digit_val ds) 10
                          (e - Z.of_nat (length fp));
              fs_rest := r' |}
  end.

Definition scan_hex (neg : bool) (s : cstr) : option fscan :=
  match s with
  | z :: x :: s1 =>
      if Ascii.eqb z "0" && Ascii.eqb (tolower x) "x" then
        let '(ip, fp, r) := scan_mantissa isxdigit s1 in
        match ip ++ fp with
        | [] => None
        | ds =>
            let '(e, r') := scan_exponent "p" r in
            Some {| fs_val := F32.of_scaled neg (digits_val 16 xdigit_val ds) 2
                                (e - 4 * Z.of_nat (length fp));
                    fs_rest := r' |}
        end
      else None
  | _ => None
  end.

Definition is_hex_intro (s : cstr) : bool :=
  match s with
  | z :: x :: _ => Ascii.eqb z "0" && Ascii.eqb (tolower x) "x"
  | _ => false
  end.

Definition head_is (c : ascii) (s : cstr) : bool :=
  match s with x :: _ => Ascii.eqb (tolower x) c | [] => false end.

(** The subject sequence of [strtof] after white space and sign: INF or
    INFINITY, NAN or NAN(n-char-sequence), a hexadecimal or a decimal
    floating constant; [None] when there is none. A [0x] that no
    hexadecimal digit follows is the decimal constant 0. *)
Definition scan_float_body (neg : bool) (s : cstr) : option fscan :=
  match strip_prefix_ci (txt "inf") s with
  | Some r =>
      match strip_prefix_ci (txt "inity") r with
      | Some r' => Some {| fs_val := S754_infinity neg; fs_rest := r' |}
      | None => Some {| fs_val := S754_infinity neg; fs_rest := r |}
      end
  | None =>
  match strip_prefix_ci (txt "nan") s with
  | Some r =>
      match r with
      | c :: r1 =>
          if Ascii.eqb c "(" then
            match drop_while isnchar r1 with
            | d :: r2 =>
                if Ascii.eqb d ")"
                then Some {| fs_val := S754_nan; fs_rest := r2 |}
                else Some {| fs_val := S754_nan; fs_rest := r |}
            | [] => Some {| fs_val := S754_nan; fs_rest := r |}
            end
          else Some {| fs_val := S754_nan; fs_rest := r |}
      | [] => Some {| fs_val := S754_nan; fs_rest := r |}
      end
  | None =>
  match scan_hex neg s with
  | Some h => Some h
  | None => scan_decimal neg s
  end end end.

Definition scan_float (s : cstr) : option fscan :=
  let '(neg, s1) := scan_sign (drop_while isspace s) in
  scan_float_body neg s1.

(** [strtof(s, NULL)]: the value of the longest initial number, and zero
    when there is none. *)
Definition strtof (s : cstr) : float :=
  match scan_float s with Some r => fs_val r | None => F32.zero end.

(** The [%f] directive of [sscanf], as the C library of the program
    (glibc) runs it: after white space and a sign, the characters that
    can continue a number are collected one by one into a buffer, and the
    buffer is handed to [strtof]. What is collected does not look ahead:
    [nan] without what follows it, [inf] or, when an [i] follows,
    [infinity] in full, else digits, one radix character, digits and,
    once a digit was seen, an exponent marker, a sign and digits, whether
    or not a digit follows the marker. *)

(** A sign, when the text starts with one. *)
Definition sign_item (s : cstr) : cstr :=
  match s with
  | c :: _ => if Ascii.eqb c "-" || Ascii.eqb c "+" then [c] else []
  | [] => []
  end.

(** The exponent part that is collected: the marker (stored in lower
    case), a sign right after it, digits. *)
Definition exponent_item (mark : ascii) (s : cstr) : cstr :=
  match s with
  | c :: s1 =>
      if Ascii.eqb (tolower c) mark
      then mark :: sign_item s1
                ++ take_while isdigit (drop (length (sign_item s1)) s1)
      else []
  | [] => []
  end.

(** The digits, radix character and exponent part that are collected;
    the exponent marker is taken only after a digit. *)
Definition number_item (isd : ascii -> bool) (mark : ascii) (s : cstr)
  : cstr :=
  let '(ip, fp, r) := scan_mantissa isd s in
  let pt := match drop_while isd s with
            | c :: _ => if Ascii.eqb c "." then [c] else []
            | [] => []
            end in
  ip ++ pt ++ fp
  ++ match ip ++ fp with [] => [] | _ => exponent_item mark r end.

(** The buffer handed to [strtof], without the sign; [None] is a
    conversion that fails before [strtof] is called: nothing was
    collected, only the [0x] of a hexadecimal number was, or [infinity]
    was cut short. *)
Definition float_item (s : cstr) : option cstr :=
  match strip_prefix_ci (txt "nan") s with
  | Some _ => Some (take 3 s)
  | None =>
  match strip_prefix_ci (txt "inf") s with
  | Some r =>
      if head_is "i" r then
        match strip_prefix_ci (txt "inity") r with
        | Some _ => Some (take 8 s)
        | None => None
        end
      else Some (take 3 s)
  | None =>
      if is_hex_intro s then
        match number_item isxdigit "p" (drop 2 s) with
        | [] => None
        | b => Some (take 2 s ++ b)
        end
      else
        match number_item isdigit "e" s with
        | [] => None
        | b => Some b
        end
  end end.

(** [sscanf(s, "%f", &f)]: the value stored, [None] for a return value
    other than 1. The conversion also fails when [strtof] finds no
    number in the buffer (a lone radix character). *)
Definition scan_f (s : cstr) : option float :=
  let '(neg, s1) := scan_sign (drop_while isspace s) in
  match float_item s1 with
  | Some item =>
      match scan_float_body neg item with
      | Some r => Some (fs_val r)
      | None => None
      end
  | None => None
  end.

(** [strtol] saturates at the bounds of [long]; the [%d] directive stores
    the result through an [int *]. *)
Definition clamp_long (v : Z) : Z :=
  Z.max (- 2 ^ 63) (Z.min (2 ^ 63 - 1) v).
Definition int_of_long (v : Z) : Z :=
  ((v + 2 ^ 31) mod 2 ^ 32 - 2 ^ 31)%Z.

(** The [%d] directive of [sscanf]. *)
Definition scan_d (s : cstr) : option Z :=
  let '(neg, s1) := scan_sign (drop_while isspace s) in
  match take_while isdigit s1 with
  | [] => None
  | ds =>
      let v := digits_val 10 digit_val ds in
      Some (int_of_long (clamp_long (if neg then - v else v)))
  end.

(** [sscanf(s, "%31s %n", tag, &nc)] and [sscanf(s, " %31s %n", tag, &nc)]:
    white space is skipped, at most 31 characters that are not white space
    are stored, white space is skipped again and [%n] stores the number of
    characters read so far. [None] is the return value EOF: the input ended
    before the first conversion and nothing was stored. *)
Definition sscanf_s31_n (s : cstr) : option (cstr * nat) :=
  match drop_while isspace s with
  | [] => None
  | c :: s1 =>
      let tok := take 31 (take_while (fun x => negb (isspace x)) (c :: s1)) in
      let rest := drop_while isspace (drop (length tok) (c :: s1)) in
      Some (tok, length s - length rest)
  end.

(** [sscanf(tag, "key:%d", &x)] and [sscanf(tag, "key:%f", &x)]: the
    characters of the key and the colon are matched one by one, then the
    conversion is tried; [None] when nothing is stored. *)
Definition sscanf_key_d (key tag : cstr) : option Z :=
  match strip_prefix (key ++ [":"%char]) tag with
  | Some r => scan_d r
  | None => None
  end.

Definition sscanf_key_f (key tag : cstr) : option float :=
  match strip_prefix (key ++ [":"%char]) tag with
  | Some r => scan_f r
  | None => None
  end.

(** *** Streams *)

(** The characters [fgets] stores when the buffer has room for [n] of
    them, and the rest of the stream: reading stops after a newline. *)
Fixpoint fgets_chars (n : nat) (s : cstr) : cstr * cstr :=
  match n, s with
  | S k, c :: t =>
      if Ascii.eqb c nl then ([c], t)
      else let '(l, r) := fgets_chars k t in (c :: l, r)
  | _, _ => ([], s)
  end.

(** [fgets(line, sz, fp)] on a stream whose unread part is [fp]: [None] is
    the null pointer returned at end of file. *)
Definition fgets (sz : nat) (fp : cstr) : option (cstr * cstr) :=
  match fp with
  | [] => None
  | _ => Some (fgets_chars (sz - 1) fp)
  end.

(** *** The program *)

Module Undgraph.

Definition WIDTH : Z := 1152.
Definition HEIGHT : Z := 648.

Definition vec2_t : Type := float * float.

(** [struct graphdata_s]. The counter [size] is a [size_t]; a file has
    fewer lines than a [size_t] can count, so it is a [nat] here. [data]
    is the allocated buffer: [None] is an element that was never
    written. *)
Record graphdata_s := {
  msaa : Z;
  save : Z;
  line_width : float;
  frame_px : float;
  max_value : float;
  min_value : float;
  tick_size : float;
  size : nat;
  data : list (option float)
}.

(** [static struct graphdata_s graphdata = { 0 }] *)
Definition graphdata : graphdata_s :=
  {| msaa := 0; save := 0; line_width := F32.zero; frame_px := F32.zero;
     max_value := F32.zero; min_value := F32.zero; tick_size := F32.zero;
     size := 0; data := [] |}.

Definition set_msaa (g : graphdata_s) (v : Z) : graphdata_s :=
  {| msaa := v; save := save g; line_width := line_width g;
     frame_px := frame_px g; max_value := max_value g;
     min_value := min_value g; tick_size := tick_size g; size := size g;
     data := data g |}.
Definition set_save (g : graphdata_s) (v : Z) : graphdata_s :=
  {| msaa := msaa g; save := v; line_width := line_width g;
     frame_px := frame_px g; max_value := max_value g;
     min_value := min_value g; tick_size := tick_size g; size := size g;
     data := data g |}.
Definition set_line_width (g : graphdata_s) (v : float) : graphdata_s :=
  {| msaa := msaa g; save := save g; line_width := v;
     frame_px := frame_px g; max_value := max_value g;
     min_value := min_value g; tick_size := tick_size g; size := size g;
     data := data g |}.
Definition set_frame_px (g : graphdata_s) (v : float) : graphdata_s :=
  {| msaa := msaa g; save := save g; line_width := line_width g;
     frame_px := v; max_value := max_value g;
     min_value := min_value g; tick_size := tick_size g; size := size g;
     data := data g |}.
Definition set_max_value (g : graphdata_s) (v : float) : graphdata_s :=
  {| msaa := msaa g; save := save g; line_width := line_width g;
     frame_px := frame_px g; max_value := v;
     min_value := min_value g; tick_size := tick_size g; size := size g;
     data := data g |}.
Definition set_min_value (g : graphdata_s) (v : float) : graphdata_s :=
  {| msaa := msaa g; save := save g; line_width := line_width g;
     frame_px := frame_px g; max_value := max_value g;
     min_value := v; tick_size := tick_size g; size := size g;
     data := data g |}.
Definition set_tick_size (g : graphdata_s) (v : float) : graphdata_s :=
  {| msaa := msaa g; save := save g; line_width := line_width g;
     frame_px := frame_px g; max_value := max_value g;
     min_value := min_value g; tick_size := v; size := size g;
     data := data g |}.
Definition set_size (g : graphdata_s) (n : nat) : graphdata_s :=
  {| msaa := msaa g; save := save g; line_width := line_width g;
     frame_px := frame_px g; max_value := max_value g;
     min_value := min_value g; tick_size := tick_size g; size := n;
     data := data g |}.
Definition set_data (g : graphdata_s) (d : list (option float)) : graphdata_s :=
  {| msaa := msaa g; save := save g; line_width := line_width g;
     frame_px := frame_px g; max_value := max_value g;
     min_value := min_value g; tick_size := tick_size g; size := size g;
     data := d |}.

(** One constructor per [lprintf] call of the modelled code. The calls for
    the invalid header and for an unknown tag pass one argument fewer than
    their format names, so only the fact of the call is recorded. *)
Inductive event :=
| msg_strerror
| msg_invalid_header
| msg_unknown_tag (tag : cstr)
| msg_found (n : nat)
| msg_reading (filename : cstr)
| msg_default_file
| msg_window
| msg_color
| msg_msaa (on : bool)
| msg_save (on : bool)
| msg_line_width (v : float)
| msg_frame_px (v : float)
| msg_frame_px_note
| msg_vertex_inf (i : nat) (axis : nat)
| msg_vertex_nan (i : nat) (axis : nat).

(** Ways the process stops other than by returning. *)
Inductive fault :=
| null_deref            (* strlen of the null pointer fgets returned *)
| assert_failed         (* assert(("Out of memory!", p)) *)
| bad_read (i : nat).   (* an element outside the buffer or never written *)

(** The outcome of a run: it returns a value after printing [log], it
    stops, or a loop of the model used up its fuel. *)
Inductive result (A : Type) :=
| Ret (a : A) (log : list event)
| Stop (f : fault)
| Loops.
Arguments Ret {A} a log.
Arguments Stop {A} f.
Arguments Loops {A}.

(** What the code takes from its surroundings: the files that can be
    opened, the bytes that happen to be in [tag] before the first
    [sscanf] writes it, whether [malloc] of a number of bytes returns a
    pointer, and whether the window, the OpenGL context and the shaders
    can be set up. *)
Record env := {
  fopen : cstr -> option cstr;
  stack_tag : cstr;
  malloc : nat -> bool;
  renderer_ready : bool
}.

(** The body of the header loop after a token was read. *)
Definition header_tag (tag : cstr) (g : graphdata_s)
  : graphdata_s * list event :=
  if starts_with (txt "msaa") tag then
    (match sscanf_key_d (txt "msaa") tag with
     | Some v => set_msaa g v | None => g end, [])
  else if starts_with (txt "save") tag then
    (match sscanf_key_d (txt "save") tag with
     | Some v => set_save g v | None => g end, [])
  else if starts_with (txt "lw") tag then
    (match sscanf_key_f (txt "lw") tag with
     | Some v => set_line_width g v | None => g end, [])
  else if starts_with (txt "frame_px") tag then
    (match sscanf_key_f (txt "frame_px") tag with
     | Some v => set_frame_px g v | None => g end, [])
  else (g, [msg_unknown_tag tag]).

(** [while((size_t)(lp - line) < i && (nr = sscanf(lp += nc, " %31s %n",
    tag, &nc)) > 0)]; [lp] is the offset of the pointer in [line]. *)
Fixpoint header_tags (fuel : nat) (line : cstr) (i lp nc : nat)
    (g : graphdata_s) (log : list event)
  : option (graphdata_s * list event) :=
  match fuel with
  | O => None
  | S k =>
      if lp <? i then
        match sscanf_s31_n (drop (lp + nc) line) with
        | Some (tag, nc') =>
            let '(g', w) := header_tag tag g in
            header_tags k line i (lp + nc) nc' g' (log ++ w)
        | None => Some (g, log)
        end
      else Some (g, log)
  end.

(** The counting loop: [while(fgets(line, sizeof(line), fp))], left at the
    first line on which [sscanf(line, "%f", &f)] does not return 1. *)
Fixpoint count_lines (fuel : nat) (fp : cstr) (n : nat) : option nat :=
  match fuel with
  | O => None
  | S k =>
      match fgets 64 fp with
      | None => Some n
      | Some (line, fp') =>
          match scan_f (c_str line) with
          | Some _ => count_lines k fp' (S n)
          | None => Some n
          end
      end
  end.

(** The body of the reading loop. *)
Definition store_sample (g : graphdata_s) (i : nat) (f : float)
  : graphdata_s :=
  let g1 := if F32.ltb (max_value g) f then set_max_value g f else g in
  let g2 := if F32.ltb f (min_value g1) then set_min_value g1 f else g1 in
  set_data g2 (<[i := Some f]> (data g2)).

(** [while(fgets(line, sizeof(line), fp) && i < data->size)] *)
Fixpoint read_values (fuel : nat) (fp : cstr) (i : nat) (g : graphdata_s)
  : option graphdata_s :=
  match fuel with
  | O => None
  | S k =>
      match fgets 64 fp with
      | None => Some g
      | Some (line, fp') =>
          if i <? size g
          then read_values k fp' (S i) (store_sample g i (strtof (c_str line)))
          else Some g
      end
  end.

Definition set_defaults (g : graphdata_s) : graphdata_s :=
  set_frame_px (set_line_width (set_save (set_msaa g 0) 0) F32.one) F32.zero.

Definition compute_tick_size (g : graphdata_s) : float :=
  F32.div (F32.abs (F32.sub (max_value g) (min_value g)))
          (F32.of_Z (Z.of_nat (size g))).

(** [static int read_undgraph(const char *filename, struct graphdata_s
    *data)]: the return value and the structure it leaves behind. *)
Definition read_undgraph (E : env) (filename : cstr) (g0 : graphdata_s)
  : result (Z * graphdata_s) :=
  match fopen E filename with
  | None => Ret (0%Z, g0) [msg_strerror]
  | Some file =>
      let g := set_defaults g0 in
      match fgets 64 file with
      | None => Stop null_deref
      | Some (line, fp) =>
          let ln := c_str line in
          let i := length ln in
          let '(tag, nc) :=
            match sscanf_s31_n ln with
            | Some r => r
            | None => (stack_tag E, 0)
            end in
          if negb (str_eqb tag (txt "undgraph"))
          then Ret (0%Z, g) [msg_invalid_header]
          else
            match header_tags (S i) ln i 0 nc g [] with
            | None => Loops
            | Some (g1, log) =>
                match count_lines (S (length fp)) fp 0 with
                | None => Loops
                | Some n =>
                    let g2 := set_size g1 n in
                    if malloc E (4 * n) then
                      let g3 := set_data g2 (replicate n None) in
                      let fp2 :=
                        match fgets 64 file with
                        | Some (_, r) => r
                        | None => file
                        end in
                      let g4 := set_min_value
                                  (set_max_value g3 F32.FLT_MIN) F32.FLT_MAX in
                      match read_values (S (length fp2)) fp2 0 g4 with
                      | None => Loops
                      | Some g5 =>
                          Ret (1%Z, set_tick_size g5 (compute_tick_size g5))
                              (log ++ [msg_found n])
                      end
                    else Stop assert_failed
                end
            end
      end
  end.

(** The vertex of sample [i]. *)
Definition mesh_x (g : graphdata_s) (i : nat) : float :=
  F32.add (frame_px g)
    (F32.div
       (F32.mul (F32.of_Z (Z.of_nat i))
          (F32.sub (F32.of_Z WIDTH) (F32.mul (frame_px g) (F32.of_Z 2))))
       (F32.of_Z (Z.of_nat (size g)))).

Definition mesh_y (g : graphdata_s) (v : float) : float :=
  F32.add (frame_px g)
    (F32.mul (F32.div v (max_value g))
       (F32.sub (F32.of_Z HEIGHT) (F32.mul (frame_px g) (F32.of_Z 2)))).

Definition vertex_warning (i axis : nat) (c : float) : list event :=
  if F32.isinf c then [msg_vertex_inf i axis]
  else if F32.isnan c then [msg_vertex_nan i axis]
  else [].

(** [for(i = 0; i < graphdata.size; i++)] *)
Fixpoint mesh_loop (fuel : nat) (g : graphdata_s) (i : nat)
    (mesh : list (option vec2_t)) (log : list event)
  : result (list (option vec2_t)) :=
  match fuel with
  | O => Loops
  | S k =>
      if i <? size g then
        match data g !! i with
        | Some (Some v) =>
            let x := mesh_x g i in
            let y := mesh_y g v in
            mesh_loop k g (S i) (<[i := Some (x, y)]> mesh)
              (log ++ vertex_warning i 0 x ++ vertex_warning i 1 y)
        | _ => Stop (bad_read i)
        end
      else Ret mesh log
  end.

(** The mesh of [main]: allocation and the loop. *)
Definition build_mesh (E : env) (g : graphdata_s)
  : result (list (option vec2_t)) :=
  if malloc E (8 * size g)
  then mesh_loop (S (size g)) g 0 (replicate (size g) None) []
  else Stop assert_failed.

(** [for(i = 2; i < (size_t)argc; i++)] *)
Fixpoint force_flags (args : list cstr) (g : graphdata_s) : graphdata_s :=
  match args with
  | [] => g
  | a :: rest =>
      if str_eqb a (txt "forcemsaa") then force_flags rest (set_msaa g 1)
      else if str_eqb a (txt "forcesave") then force_flags rest (set_save g 1)
      else force_flags rest g
  end.

Definition bool_to_string (value : Z) : bool := negb (value =? 0)%Z.

(** [main], from its start to the mesh handed to [glNamedBufferData]: the
    exit status when it returns before that, and otherwise the mesh.
    Setting up the window, the context and the shaders is one step that
    succeeds or not. *)
Definition main (E : env) (argv : list cstr)
  : result (Z + list (option vec2_t)) :=
  let '(filename, log0) :=
    match argv with
    | _ :: f :: _ => (f, [msg_reading f])
    | _ => (txt "undgraph.txt", [msg_default_file])
    end in
  match read_undgraph E filename graphdata with
  | Stop f => Stop f
  | Loops => Loops
  | Ret (r, g) log1 =>
      if (r =? 0)%Z then Ret (inl 1%Z) (log0 ++ log1)
      else
        let g' := force_flags (drop 2 argv) g in
        let log2 :=
          [msg_window; msg_color; msg_msaa (bool_to_string (msaa g'));
           msg_save (bool_to_string (save g'));
           msg_line_width (line_width g'); msg_frame_px (frame_px g')]
          ++ (if F32.leb (frame_px g') F32.FLT_EPSILON
              then [msg_frame_px_note] else []) in
        if renderer_ready E then
          match build_mesh E g' with
          | Ret mesh log3 => Ret (inr mesh) (log0 ++ log1 ++ log2 ++ log3)
          | Stop f => Stop f
          | Loops => Loops
          end
        else Ret (inl 1%Z) (log0 ++ log1 ++ log2)
  end.

End Undgraph.

Import Undgraph.

(** *** Vocabulary of the statements *)

(** The lines [fgets(line, 64, fp)] returns, call after call. *)
Fixpoint lines (fuel : nat) (fp : cstr) : list cstr :=
  match fuel with
  | O => []
  | S k =>
      match fgets 64 fp with
      | None => []
      | Some (line, fp') => line :: lines k fp'
      end
  end.

(** [sscanf(line, "%f", &f) == 1] *)
Definition counted (line : cstr) : bool :=
  match scan_f (c_str line) with Some _ => true | None => false end.

(** The body of the reading loop run on a list of values, from index
    [i] on. *)
Fixpoint store_all (g : graphdata_s) (i : nat) (vs : list float)
  : graphdata_s :=
  match vs with
  | [] => g
  | v :: t => store_all (store_sample g i v) (S i) t
  end.

(** The first token of a text: what lies between leading white space and
    the next white space. *)
Definition first_token (s : cstr) : cstr :=
  take_while (fun c => negb (isspace c)) (drop_while isspace s).

(** What the 64-byte buffer holds of the first line of a file, as a
    string. *)
Definition header_buffer (file : cstr) : cstr :=
  c_str (fst (fgets_chars 63 file)).

(** The first line of a file, without its newline. *)
Definition first_line (file : cstr) : cstr :=
  take_while (fun c => negb (Ascii.eqb c nl)) file.

(** A line that fits the buffer with its newline and has no NUL. *)
Definition text_line (l : cstr) : bool :=
  forallb (fun c => negb (Ascii.eqb c nl) && negb (Ascii.eqb c NUL)) l
  && (length l <=? 62).

Definition MAGIC : cstr := txt "undgraph".

(** A header line: its first token is the magic word. *)
Definition header_line (h : cstr) : bool :=
  text_line h && str_eqb (first_token h) MAGIC.

(** A sample line: [sscanf] with [%f] stores a value from it. *)
Definition sample_line (l : cstr) : bool :=
  text_line l && match scan_f l with Some _ => true | None => false end.

(** A file made of a header line and data lines. *)
Definition file_of (h : cstr) (ls : list cstr) : cstr :=
  h ++ nl :: concat (map (fun l => l ++ [nl]) ls).

(** A character that belongs to no number: not a letter, a digit, an
    underscore, a sign, a point or a parenthesis. *)
Definition inert (c : ascii) : bool :=
  negb (isnchar c || Ascii.eqb c "." || Ascii.eqb c "+" || Ascii.eqb c "-"
        || Ascii.eqb c "(" || Ascii.eqb c ")").

(** [read_undgraph] returned 0 after the magic check. *)
Definition format_error (r : result (Z * graphdata_s)) : Prop :=
  exists g, r = Ret (0%Z, g) [msg_invalid_header].

(** [read_undgraph] returned 1 and left [g]. *)
Definition parsed (r : result (Z * graphdata_s)) (g : graphdata_s) : Prop :=
  exists log, r = Ret (1%Z, g) log.

(** The values of a buffer whose elements were all written. *)
Definition values (g : graphdata_s) : list float :=
  omap id (data g).

(** The four keys of the header. *)
Definition KEYS : list cstr :=
  [txt "msaa"; txt "save"; txt "lw"; txt "frame_px"].


(** The vertex of the specification for sample [i] of value [v]. *)
Definition spec_x (framePadding : float) (count i : nat) : float :=
  F32.add framePadding
    (F32.div
       (F32.mul (F32.of_Z (Z.of_nat i))
          (F32.sub (F32.of_Z 1152) (F32.mul (F32.of_Z 2) framePadding)))
       (F32.of_Z (Z.of_nat count))).

Definition spec_y (framePadding maxValue v : float) : float :=
  F32.add framePadding
    (F32.mul (F32.div v maxValue)
       (F32.sub (F32.of_Z 648) (F32.mul (F32.of_Z 2) framePadding))).

(** The order of [SFcompare] on numbers, as triples compared
    lexicographically. *)
Definition key (x : float) : Z * Z * Z :=
  match x with
  | S754_zero _ => (0, 0, 0)
  | S754_infinity s => (if s then -2 else 2, 0, 0)
  | S754_nan => (0, 0, 0)
  | S754_finite s m e => if s then (-1, - e, - Zpos m) else (1, e, Zpos m)
  end%Z.

Definition lex (a b : Z * Z * Z) : comparison :=
  let '(a1, a2, a3) := a in
  let '(b1, b2, b3) := b in
  match (a1 ?= b1)%Z with
  | Eq => match (a2 ?= b2)%Z with Eq => (a3 ?= b3)%Z | c => c end
  | c => c
  end.

Definition lex_lt (a b : Z * Z * Z) : Prop :=
  (a.1.1 < b.1.1 \/
   (a.1.1 = b.1.1 /\ (a.1.2 < b.1.2 \/ (a.1.2 = b.1.2 /\ a.2 < b.2))))%Z.

(** The counted lines of a file and the samples read from them. *)
Definition data_lines (file : cstr) : list cstr :=
  match fgets 64 file with
  | Some (_, fp) => take_while counted (lines (S (length fp)) fp)
  | None => []
  end.

Definition samples (file : cstr) : list float :=
  map (fun l => strtof (c_str l)) (data_lines file).

(** The running maximum and minimum of the reading loop. *)
Definition running_max (vs : list float) : float :=
  fold_left (fun m v => if F32.ltb m v then v else m) vs F32.FLT_MIN.
Definition running_min (vs : list float) : float :=
  fold_left (fun m v => if F32.ltb v m then v else m) vs F32.FLT_MAX.

(** The invariant of the reading loop. *)
Definition bounds_inv (g : graphdata_s) : Prop :=
  F32.isnan (max_value g) = false /\
  F32.isnan (min_value g) = false /\
  F32.leb F32.FLT_MIN (max_value g) = true /\
  forall s, In (Some s) (data g) -> F32.isnan s = false ->
    F32.leb (min_value g) s = true /\ F32.leb s (max_value g) = true.

(** The structure before the reading loop, for [n] counted lines. *)
Definition allocated (g1 : graphdata_s) (n : nat) : graphdata_s :=
  set_min_value
    (set_max_value (set_data (set_size g1 n) (replicate n None)) F32.FLT_MIN)
    F32.FLT_MAX.

(** The structure [read_undgraph] leaves when it has read the samples
    [vs] after a header that left [g1]. *)
Definition loaded (g1 : graphdata_s) (vs : list float) : graphdata_s :=
  let g5 := store_all (allocated g1 (length vs)) 0 vs in
  set_tick_size g5 (compute_tick_size g5).

(** The structure the header of [line] leaves, and its warnings. *)
Definition header_of (line : cstr) (g0 : graphdata_s)
  : option (graphdata_s * list event) :=
  let ln := c_str line in
  let nc := match sscanf_s31_n ln with Some r => r.2 | None => 0 end in
  header_tags (S (length ln)) ln (length ln) 0 nc (set_defaults g0) [].

(** The word compared with the magic word. *)
Definition magic_tag (E : env) (line : cstr) : cstr :=
  match sscanf_s31_n (c_str line) with
  | Some r => r.1
  | None => stack_tag E
  end.

(** A scan result with more text after it. *)
Definition fscan_app (r : fscan) (u : cstr) : fscan :=
  {| fs_val := fs_val r; fs_rest := fs_rest r ++ u |}.

(** An environment in which every name opens [file], allocation succeeds
    and the renderer starts. *)
Definition env_of (file : cstr) : env :=
  {| fopen := fun _ => Some file; stack_tag := [];
     malloc := fun _ => true; renderer_ready := true |}.

(** A text file given by its lines. *)
Definition text (ls : list string) : cstr :=
  concat (map (fun l => txt l ++ [nl]) ls).

(** Example inputs. *)
Definition three_lines : list cstr := [txt "1.0"; txt "2.0"; txt "3.0"].

Definition three_parsed : graphdata_s :=
  Eval vm_compute in
    match read_undgraph (env_of (file_of MAGIC three_lines)) [] graphdata with
    | Ret (_, g) _ => g
    | _ => graphdata
    end.

(** The file name [main] reads. *)
Definition main_filename (argv : list cstr) : cstr :=
  match argv with
  | _ :: f :: _ => f
  | _ => txt "undgraph.txt"
  end.

(** A file whose first line starts with 56 spaces before the magic word. *)
Definition indented_file : cstr :=
  repeat " "%char 56 ++ text ["undgraph"; "1"; "2"]%string.

(** The vertex the mesh loop computes for sample [i] of value [v]. *)
Definition vertex (g : graphdata_s) (i : nat) (v : float) : vec2_t :=
  (mesh_x g i, mesh_y g v).

(** Powers of two as rationals. *)
Definition pow2 (e : Z) : Q := Qpower 2 e.

(** The position of a rational [y]: twice the floor of [2 y], plus one when
    [2 y] is no integer. Its quotient by 4 is the floor of [y], its
    remainder says where [y] lies between two integers: on the lower one,
    below the middle, on the middle, above the middle. *)
Definition position (y : Q) : Z :=
  (2 * Qfloor (2 * y)
   + (if Qeq_bool (inject_Z (Qfloor (2 * y))) (2 * y) then 0 else 1))%Z.

(** Halving a position. *)
Definition halve (t : Z) : Z :=
  (2 * (t / 4) + (if t mod 4 =? 0 then 0 else 1))%Z.

(** Rounding a position to the nearest integer, ties to even. *)
Definition nearest_even (t : Z) : Z :=
  (t / 4 + (if (t mod 4 =? 3) || ((t mod 4 =? 2) && Z.odd (t / 4))
            then 1 else 0))%Z.

(** The position a shift record stands for. *)
Definition record_position (r : shr_record) : Z :=
  (4 * shr_m r + (if shr_r r then 2 else 0) + (if shr_s r then 1 else 0))%Z.

Definition location_code (l : location) : Z :=
  match l with
  | loc_Exact => 0
  | loc_Inexact Lt => 1
  | loc_Inexact Eq => 2
  | loc_Inexact Gt => 3
  end%Z.

(** [e] is the exponent of the binary32 format for the positive rational
    [x]: the mantissa [x / 2 ^ e] is below [2 ^ 24], and at least [2 ^ 23]
    above the smallest exponent. *)
Definition canonic (x : Q) (e : Z) : Prop :=
  (-149 <= e)%Z /\ (x < pow2 (e + 24))%Q /\
  ((-149 < e)%Z -> (pow2 (e + 23) <= x)%Q).

(** The float of sign [s], mantissa [m] and exponent [e], for a rounded
    mantissa [m], which may have reached [2 ^ 24]. *)
Definition mk (s : bool) (e m : Z) : float :=
  let '(m', e') := if (m =? 2 ^ 24)%Z then (2 ^ 23, e + 1)%Z else (m, e) in
  match m' with
  | Z0 => S754_zero s
  | Zpos p => if (e' <=? 104)%Z then S754_finite s p e' else S754_infinity s
  | Zneg _ => S754_nan
  end.

(** [f] is the positive rational [x] rounded to nearest, ties to even,
    with sign [s]. *)
Definition rounded (s : bool) (x : Q) (f : float) : Prop :=
  exists e, canonic x e /\
    f = mk s e (nearest_even (position (x * pow2 (- e)))).

(** [f] is the rational [x] rounded to nearest, ties to even. *)
Definition rounds (x : Q) (f : float) : Prop :=
  (x == 0 /\ exists s, f = S754_zero s)%Q \/
  (0 < x /\ rounded false x f)%Q \/
  (x < 0 /\ rounded true (- x) f)%Q.

(** The value of a float; an infinity stands at [2 ^ 128], beyond every
    finite float. *)
Definition fsign (s : bool) : Q := if s then (-1)%Q else 1%Q.

Definition fval (f : float) : Q :=
  match f with
  | S754_zero _ => 0
  | S754_finite s m e => fsign s * inject_Z (Zpos m) * pow2 e
  | S754_infinity s => fsign s * pow2 128
  | S754_nan => 0
  end%Q.

(** A float in the format that is no NaN. *)
Definition good (f : float) : Prop :=
  valid_binary F32.prec F32.emax f = true /\ F32.isnan f = false.

(** The warnings of the mesh loop for sample [i] of value [v], and for
    the samples [vs] from index [i] on. *)
Definition vertex_warnings (g : graphdata_s) (i : nat) (v : float)
  : list event :=
  vertex_warning i 0 (mesh_x g i) ++ vertex_warning i 1 (mesh_y g v).

Fixpoint warnings_from (g : graphdata_s) (i : nat) (vs : list float)
  : list event :=
  match vs with
  | [] => []
  | v :: t => vertex_warnings g i v ++ warnings_from g (S i) t
  end.

(** A warning about a vertex. *)
Definition is_vertex_event (e : event) : bool :=
  match e with
  | msg_vertex_inf _ _ | msg_vertex_nan _ _ => true
  | _ => false
  end.

(** The messages of a run on the three-line example. *)
Definition three_log : list event :=
  Eval vm_compute in
    match main (env_of (file_of MAGIC three_lines))
            [txt "undgraph"; txt "three.txt"] with
    | Ret _ log => log
    | _ => []
    end.

(** A token of the header: not empty, without white space or NUL, and
    short enough for the 32 bytes of [tag]. *)
Definition tag_token (t : cstr) : bool :=
  match t with [] => false | _ => true end
  && forallb (fun c => negb (isspace c) && negb (Ascii.eqb c NUL)) t
  && (length t <=? 31).

(** A header line: the magic word and the tokens, separated by single
    spaces. *)
Definition header_text (tags : list cstr) : cstr :=
  MAGIC ++ concat (map (fun t => " "%char :: t) tags).

(** The character after a token of the header, and the text from a token
    to the end of the line. *)
Definition separator (rest : list cstr) : ascii :=
  match rest with [] => nl | _ => " "%char end.

Fixpoint tokens_text (ts : list cstr) : cstr :=
  match ts with
  | [] => []
  | t :: ts' => t ++ separator ts' :: tokens_text ts'
  end.

(** The body of the header loop run on a list of tokens. *)
Definition apply_tags (tags : list cstr) (s : graphdata_s * list event)
  : graphdata_s * list event :=
  fold_left (fun s t => ((header_tag t s.1).1, s.2 ++ (header_tag t s.1).2))
            tags s.

(** The value of the last token that converts, or the default. *)
Definition last_value {A} (conv : cstr -> option A) (tags : list cstr) (d : A)
  : A :=
  fold_left (fun a t => match conv t with Some v => v | None => a end) tags d.

(** A token that starts with none of the four keys. *)
Definition unknown_tag (t : cstr) : bool :=
  negb (existsb (fun k => starts_with k t) KEYS).

(** The first 63 characters of a line that is longer than the buffer:
    no newline and no NUL among them. *)
Definition full_chunk (a : cstr) : bool :=
  (length a =? 63)
  && forallb (fun c => negb (Ascii.eqb c nl) && negb (Ascii.eqb c NUL)) a.


(** A header line of 69 characters, cut after 63. *)
Definition wide_head : cstr := txt "undgraph" ++ repeat " "%char 55.
Definition wide_tail : cstr := txt "lw:2.5".

(** Two structures with the same tag fields. *)
Definition same_tags (g g' : graphdata_s) : Prop :=
  msaa g = msaa g' /\ save g = save g' /\ line_width g = line_width g' /\
  frame_px g = frame_px g'.

(** *** The window and the screenshot *)

(** [snprintf(tmpstr, sizeof(tmpstr), ...)] with [char tmpstr[128]]: the
    first 127 characters of the formatted text are stored. *)
Definition snprintf_128 (out : cstr) : cstr := take 127 out.

(** ["UndGraph - %s"] and ["%s.png"] of the file name. *)
Definition window_title (filename : cstr) : cstr :=
  snprintf_128 (txt "UndGraph - " ++ c_str filename).
Definition png_name (filename : cstr) : cstr :=
  snprintf_128 (c_str filename ++ txt ".png").

(** What the render loop does that can be seen from outside: a frame is
    presented, a PNG file is written, the assertion on the pixel buffer
    fails. *)
Inductive frame_event :=
| frame_presented
| png_written (name : cstr)
| pixels_assert_failed.

(** [while(!glfwWindowShouldClose(window))]: [closes k] is the answer to
    the call number [k], [pixels] says whether [malloc] of the pixel
    buffer returns a pointer, [save] is [graphdata.save]. [None] is a
    loop that has not ended when the fuel is spent. *)
Fixpoint render_loop (fuel : nat) (closes : nat -> bool) (pixels : bool)
    (k : nat) (save : Z) (filename : cstr) : option (list frame_event) :=
  match fuel with
  | O => None
  | S f =>
      if closes k then Some []
      else if (save =? 0)%Z then
        option_map (cons frame_presented)
          (render_loop f closes pixels (S k) save filename)
      else if pixels then
        option_map
          (fun l => frame_presented :: png_written (png_name filename) :: l)
          (render_loop f closes pixels (S k) 0%Z filename)
      else Some [frame_presented; pixels_assert_failed]
  end.

(** A window that is closed at the call number [n] and not before. *)
Definition closes_at (n : nat) (k : nat) : bool := n <=? k.

(** A file name of 127 characters. *)
Definition name_127 : cstr := repeat "a"%char 123 ++ txt ".txt".

(** The first 31 characters of a token that is longer than [tag] can
    hold: no white space and no NUL among them. *)
Definition full_tag (a : cstr) : bool :=
  (length a =? 31)
  && forallb (fun c => negb (isspace c) && negb (Ascii.eqb c NUL)) a.

(** A token of 35 characters, cut after 31. *)
Definition long_tag_head : cstr := txt "frame_px:0000000000000000000000".
Definition long_tag_tail : cstr := txt "0032".

(** An environment whose file is [file] and in which the bytes of [tag]
    before the first [sscanf] are [garbage]. *)
Definition env_with_stack (file garbage : cstr) : env :=
  {| fopen := fun _ => Some file; stack_tag := garbage;
     malloc := fun _ => true; renderer_ready := true |}.

(** ** Part II: properties *)

(** *** Lists and characters *)

Lemma take_drop_while {A} (p : A -> bool) (l : list A) :
  take_while p l ++ drop_while p l = l.
Proof.
  induction l as [|x l IH]; simpl; [reflexivity|].
  destruct (p x); simpl; [now rewrite IH | reflexivity].
Qed.

Lemma take_while_app_stop {A} (p : A -> bool) (l : list A) c t :
  p c = false -> take_while p (l ++ c :: t) = take_while p l.
Proof.
  intros Hc. induction l as [|x l IH]; simpl.
  - now rewrite Hc.
  - destruct (p x); [now rewrite IH | reflexivity].
Qed.

Lemma drop_while_app_stop {A} (p : A -> bool) (l : list A) c t :
  p c = false -> drop_while p (l ++ c :: t) = drop_while p l ++ c :: t.
Proof.
  intros Hc. induction l as [|x l IH]; simpl.
  - now rewrite Hc.
  - destruct (p x); [apply IH | reflexivity].
Qed.

Lemma take_while_all {A} (p : A -> bool) (l : list A) :
  forallb p l = true -> take_while p l = l.
Proof.
  induction l as [|x l IH]; simpl; [reflexivity|].
  destruct (p x); simpl; [intros H; now rewrite IH | discriminate].
Qed.

Lemma take_length_take_while {A} (p : A -> bool) (l : list A) :
  take (length (take_while p l)) l = take_while p l.
Proof.
  induction l as [|x l IH]; simpl; [reflexivity|].
  destruct (p x); simpl; [now rewrite IH | reflexivity].
Qed.

Lemma take_while_length_le {A} (p : A -> bool) (l : list A) :
  length (take_while p l) <= length l.
Proof.
  induction l as [|x l IH]; simpl; [lia|].
  destruct (p x); simpl; lia.
Qed.

Lemma drop_while_length_le {A} (p : A -> bool) (l : list A) :
  length (drop_while p l) <= length l.
Proof.
  induction l as [|x l IH]; simpl; [lia|].
  destruct (p x); simpl; lia.
Qed.

Lemma str_eqb_eq (a b : cstr) : str_eqb a b = true <-> a = b.
Proof.
  revert b. induction a as [|x a IH]; intros [|y b]; simpl;
    try (split; [discriminate | intros H; discriminate H]); [tauto|].
  rewrite andb_true_iff, Ascii.eqb_eq, IH. split.
  - intros [-> ->]. reflexivity.
  - intros H. injection H as -> ->. auto.
Qed.

(** *** The order of binary32 *)

Lemma SFcompare_key (a b : float) :
  F32.isnan a = false -> F32.isnan b = false ->
  SFcompare a b = Some (lex (key a) (key b)).
Proof.
  destruct a as [sa|sa| |sa ma ea], b as [sb|sb| |sb mb eb]; simpl;
    try discriminate; intros _ _;
    try (destruct sa; reflexivity); try (destruct sb; reflexivity);
    try (destruct sa, sb; reflexivity).
  destruct sa, sb; simpl; try reflexivity.
  - rewrite Z.compare_opp, (Z.compare_antisym ea eb).
    destruct (ea ?= eb)%Z; reflexivity.
Qed.

Lemma SFcompare_nan_l (b : float) : SFcompare S754_nan b = None.
Proof. reflexivity. Qed.

Lemma SFcompare_nan_r (a : float) : SFcompare a S754_nan = None.
Proof. destruct a; reflexivity. Qed.

Lemma lex_spec (a b : Z * Z * Z) :
  match lex a b with
  | Lt => lex_lt a b
  | Eq => a = b
  | Gt => lex_lt b a
  end.
Proof.
  destruct a as [[a1 a2] a3], b as [[b1 b2] b3]. unfold lex, lex_lt. simpl.
  destruct (Z.compare_spec a1 b1); [|lia|lia].
  destruct (Z.compare_spec a2 b2); [|lia|lia].
  destruct (Z.compare_spec a3 b3); [congruence|lia|lia].
Qed.

Lemma lex_lt_trans a b c : lex_lt a b -> lex_lt b c -> lex_lt a c.
Proof. unfold lex_lt. lia. Qed.

Lemma lex_lt_irrefl a : ~ lex_lt a a.
Proof. unfold lex_lt. lia. Qed.

Lemma lex_Lt a b : lex a b = Lt <-> lex_lt a b.
Proof.
  pose proof (lex_spec a b) as H. split.
  - intros E. now rewrite E in H.
  - intros L. destruct (lex a b); [subst; now apply lex_lt_irrefl in L|reflexivity|].
    exfalso. apply (lex_lt_irrefl a). eapply lex_lt_trans; eauto.
Qed.

Lemma lex_Gt a b : lex a b = Gt <-> lex_lt b a.
Proof.
  pose proof (lex_spec a b) as H. split.
  - intros E. now rewrite E in H.
  - intros L. destruct (lex a b); [subst; now apply lex_lt_irrefl in L| |reflexivity].
    exfalso. apply (lex_lt_irrefl a). eapply lex_lt_trans; eauto.
Qed.

Lemma ltb_lex a b : F32.ltb a b = true <->
  F32.isnan a = false /\ F32.isnan b = false /\ lex_lt (key a) (key b).
Proof.
  unfold F32.ltb, SFltb.
  destruct a as [sa|sa| |sa ma ea]; [| |rewrite SFcompare_nan_l; simpl; intuition discriminate|];
  (destruct b as [sb|sb| |sb mb eb]; [| |rewrite SFcompare_nan_r; simpl; intuition discriminate|]);
  rewrite SFcompare_key by reflexivity; rewrite <- lex_Lt;
  destruct (lex _ _); simpl; intuition discriminate.
Qed.

Lemma leb_lex a b : F32.leb a b = true <->
  F32.isnan a = false /\ F32.isnan b = false /\ ~ lex_lt (key b) (key a).
Proof.
  unfold F32.leb, SFleb.
  destruct a as [sa|sa| |sa ma ea]; [| |rewrite SFcompare_nan_l; simpl; intuition discriminate|];
  (destruct b as [sb|sb| |sb mb eb]; [| |rewrite SFcompare_nan_r; simpl; intuition discriminate|]);
  rewrite SFcompare_key by reflexivity; rewrite <- lex_Gt;
  destruct (lex _ _); simpl; intuition discriminate.
Qed.

Lemma leb_ltb_trans (a b c : float) :
  F32.leb a b = true -> F32.ltb b c = true -> F32.leb a c = true.
Proof.
  rewrite !leb_lex, ltb_lex. unfold lex_lt. intros (? & ? & ?) (? & ? & ?).
  repeat split; auto. lia.
Qed.

Lemma ltb_leb_trans (a b c : float) :
  F32.ltb a b = true -> F32.leb b c = true -> F32.leb a c = true.
Proof.
  rewrite !leb_lex, ltb_lex. unfold lex_lt. intros (? & ? & ?) (? & ? & ?).
  repeat split; auto. lia.
Qed.

Lemma leb_refl (a : float) : F32.isnan a = false -> F32.leb a a = true.
Proof. rewrite leb_lex. intros H. repeat split; auto. apply lex_lt_irrefl. Qed.

Lemma not_ltb_leb (a b : float) :
  F32.isnan a = false -> F32.isnan b = false ->
  F32.ltb a b = false -> F32.leb b a = true.
Proof.
  intros Ha Hb H. rewrite leb_lex. repeat split; auto.
  intros L. assert (F32.ltb a b = true) by (rewrite ltb_lex; auto). congruence.
Qed.

Lemma ltb_leb (a b : float) : F32.ltb a b = true -> F32.leb a b = true.
Proof. rewrite leb_lex, ltb_lex. unfold lex_lt. intros (? & ? & ?). repeat split; auto. lia. Qed.

(** *** Streams *)

Lemma fgets_chars_app (n : nat) (s : cstr) :
  (fgets_chars n s).1 ++ (fgets_chars n s).2 = s.
Proof.
  revert s. induction n as [|n IH]; intros [|c t]; simpl; try reflexivity.
  destruct (Ascii.eqb c nl); simpl; [reflexivity|].
  specialize (IH t). destruct (fgets_chars n t) as [l r]. simpl in *.
  now rewrite IH.
Qed.

Lemma fgets_chars_nonempty (n : nat) (c : ascii) (t : cstr) :
  (fgets_chars (S n) (c :: t)).1 <> [].
Proof.
  simpl. destruct (Ascii.eqb c nl); simpl; [discriminate|].
  destruct (fgets_chars n t); simpl. discriminate.
Qed.

Lemma fgets_shorter (fp line rest : cstr) :
  fgets 64 fp = Some (line, rest) -> length rest < length fp.
Proof.
  unfold fgets. destruct fp as [|c t]; [discriminate|].
  change (64 - 1) with (S 62). generalize 62. intros n H.
  assert (E : fgets_chars (S n) (c :: t) = (line, rest)) by congruence.
  pose proof (fgets_chars_app (S n) (c :: t)) as Happ.
  pose proof (fgets_chars_nonempty n c t) as Hne.
  rewrite E in Happ, Hne. cbn [fst snd] in Happ, Hne.
  rewrite <- Happ, length_app. destruct line; [congruence|simpl; lia].
Qed.

(** A line without newline that fits the buffer is returned whole, with
    its newline. *)
Lemma fgets_chars_line (n : nat) (l rest : cstr) :
  forallb (fun c => negb (Ascii.eqb c nl)) l = true ->
  length l < n ->
  fgets_chars n (l ++ nl :: rest) = (l ++ [nl], rest).
Proof.
  revert n. induction l as [|c l IH]; intros n Hl Hn; simpl in *.
  - destruct n; [lia|]. reflexivity.
  - destruct n; [lia|]. apply andb_true_iff in Hl as [Hc Hl].
    apply negb_true_iff in Hc. simpl. rewrite Hc, IH by (auto; lia). reflexivity.
Qed.

Lemma text_line_no_nl (l : cstr) :
  text_line l = true -> forallb (fun c => negb (Ascii.eqb c nl)) l = true.
Proof.
  unfold text_line. intros H. apply andb_true_iff in H as [H _].
  induction l as [|c l IH]; simpl in *; [reflexivity|].
  apply andb_true_iff in H as [Hc H]. apply andb_true_iff in Hc as [Hc _].
  now rewrite Hc, IH.
Qed.

Lemma text_line_no_NUL (l : cstr) :
  text_line l = true -> forallb (fun c => negb (Ascii.eqb c NUL)) l = true.
Proof.
  unfold text_line. intros H. apply andb_true_iff in H as [H _].
  induction l as [|c l IH]; simpl in *; [reflexivity|].
  apply andb_true_iff in H as [Hc H]. apply andb_true_iff in Hc as [_ Hc].
  now rewrite Hc, IH.
Qed.

Lemma text_line_length (l : cstr) : text_line l = true -> length l <= 62.
Proof.
  unfold text_line. intros H. apply andb_true_iff in H as [_ H].
  now apply Nat.leb_le in H.
Qed.

Lemma fgets_text_line (l rest : cstr) :
  text_line l = true ->
  fgets 64 (l ++ nl :: rest) = Some (l ++ [nl], rest).
Proof.
  intros H. unfold fgets.
  rewrite fgets_chars_line by (auto using text_line_no_nl; apply text_line_length in H; simpl; lia).
  destruct l; reflexivity.
Qed.

Lemma c_str_text_line (l : cstr) :
  text_line l = true -> c_str (l ++ [nl]) = l ++ [nl].
Proof.
  intros H. apply take_while_all. rewrite forallb_app.
  rewrite (text_line_no_NUL l H). reflexivity.
Qed.

(** The lines do not depend on the fuel once it exceeds the length. *)
Lemma lines_fuel (f1 f2 : nat) (fp : cstr) :
  length fp < f1 -> length fp < f2 -> lines f1 fp = lines f2 fp.
Proof.
  revert f2 fp. induction f1 as [|f1 IH]; intros [|f2] fp H1 H2; try lia.
  simpl. destruct (fgets 64 fp) as [[l r]|] eqn:E; [|reflexivity].
  apply fgets_shorter in E. f_equal. apply IH; lia.
Qed.

Lemma lines_text (f : nat) (ls : list cstr) (rest : cstr) :
  Forall (fun l => text_line l = true) ls ->
  length (concat (map (fun l => l ++ [nl]) ls) ++ rest) < f ->
  lines f (concat (map (fun l => l ++ [nl]) ls) ++ rest)
  = map (fun l => l ++ [nl]) ls ++ lines (S (length rest)) rest.
Proof.
  intros Hls. revert f. induction Hls as [|l ls Hl Hls IH]; intros f Hf;
    cbn -[lines] in *.
  - apply lines_fuel; lia.
  - destruct f; [lia|]. simpl.
    rewrite <- !app_assoc. simpl. rewrite fgets_text_line by assumption.
    f_equal. apply IH. rewrite <- !app_assoc, !length_app in Hf. simpl in Hf.
    rewrite length_app. lia.
Qed.

(** *** The two passes *)

Lemma count_lines_spec (f : nat) (fp : cstr) (c : nat) :
  length fp < f ->
  count_lines f fp c = Some (c + length (take_while counted (lines f fp))).
Proof.
  revert fp c. induction f as [|f IH]; intros fp c Hf; [lia|]. simpl.
  destruct (fgets 64 fp) as [[l r]|] eqn:E; simpl; [|f_equal; lia].
  apply fgets_shorter in E. unfold counted at 1.
  destruct (scan_f (c_str l)); simpl; [|f_equal; lia].
  rewrite IH by lia. f_equal. lia.
Qed.

Lemma size_store_sample g i v : size (store_sample g i v) = size g.
Proof.
  unfold store_sample. destruct (F32.ltb (max_value g) v); simpl;
  match goal with |- context [if ?b then _ else _] => destruct b end; reflexivity.
Qed.

Lemma size_store_all g i vs : size (store_all g i vs) = size g.
Proof.
  revert g i. induction vs as [|v vs IH]; intros g i; simpl; [reflexivity|].
  now rewrite IH, size_store_sample.
Qed.

Lemma read_values_spec (f : nat) (fp : cstr) (i : nat) (g : graphdata_s) :
  length fp < f ->
  read_values f fp i g
  = Some (store_all g i
            (map (fun l => strtof (c_str l)) (take (size g - i) (lines f fp)))).
Proof.
  revert fp i g. induction f as [|f IH]; intros fp i g Hf; [lia|]. simpl.
  destruct (fgets 64 fp) as [[l r]|] eqn:E; simpl.
  - apply fgets_shorter in E. destruct (Nat.ltb_spec i (size g)) as [Hi|Hi].
    + rewrite IH by lia. rewrite size_store_sample.
      replace (size g - i) with (S (size g - S i)) by lia. reflexivity.
    + replace (size g - i) with 0 by lia. reflexivity.
  - now rewrite take_nil.
Qed.

(** What [store_all] leaves in the buffer. *)
Lemma data_store_sample g i v :
  data (store_sample g i v) = <[i := Some v]> (data g).
Proof.
  unfold store_sample. destruct (F32.ltb (max_value g) v); simpl;
  match goal with |- context [if ?b then _ else _] => destruct b end; reflexivity.
Qed.

Lemma data_store_all g vs done k :
  data g = map Some done ++ replicate (length vs + k) None ->
  data (store_all g (length done) vs)
  = map Some (done ++ vs) ++ replicate k None.
Proof.
  revert g done. induction vs as [|v vs IH]; intros g done Hg; simpl in *.
  - now rewrite app_nil_r.
  - replace (S (length done)) with (length (done ++ [v])) by (rewrite length_app; simpl; lia).
    replace (done ++ v :: vs) with ((done ++ [v]) ++ vs) by (now rewrite <- app_assoc).
    apply IH. rewrite data_store_sample, Hg.
    replace (length done) with (length (map Some done) + 0) at 1 by (rewrite length_map; lia).
    rewrite insert_app_r. simpl. rewrite map_app, <- app_assoc. reflexivity.
Qed.

(** *** The reading loop keeps its bounds *)

Lemma In_insert {A} (l : list A) (i : nat) (x y : A) :
  In x (<[i := y]> l) -> x = y \/ In x l.
Proof.
  revert i. induction l as [|a l IH]; intros [|i]; simpl; try tauto.
  - intros [->|H]; auto.
  - intros [->|H]; auto. destruct (IH _ H); auto.
Qed.

Lemma ltb_not_nan (a b : float) :
  F32.ltb a b = true -> F32.isnan a = false /\ F32.isnan b = false.
Proof. rewrite ltb_lex. tauto. Qed.

Lemma store_sample_bounds (g : graphdata_s) (i : nat) (v : float) :
  bounds_inv g -> bounds_inv (store_sample g i v).
Proof.
  intros (Hmax & Hmin & Hlow & Hall). unfold bounds_inv, store_sample.
  destruct (F32.ltb (max_value g) v) eqn:Emax;
  destruct (F32.ltb v (min_value g)) eqn:Emin; cbn [set_max_value set_min_value
    set_data max_value min_value data]; rewrite ?Emin; cbn [set_max_value set_min_value
    set_data max_value min_value data].
  all: repeat match goal with
       | H : F32.ltb _ _ = true |- _ =>
           pose proof (ltb_not_nan _ _ H); pose proof (ltb_leb _ _ H); revert H
       end; intros.
  all: split; [tauto|split; [tauto|split; [eauto using leb_ltb_trans|]]].
  all: intros s Hs Hnan; apply In_insert in Hs as [Hs|Hs];
       [injection Hs as -> | destruct (Hall s Hs Hnan) as [Hlo Hhi]].
  all: split; eauto using leb_refl, leb_ltb_trans, ltb_leb_trans, not_ltb_leb.
Qed.

Lemma store_all_bounds (g : graphdata_s) (i : nat) (vs : list float) :
  bounds_inv g -> bounds_inv (store_all g i vs).
Proof.
  revert g i. induction vs as [|v vs IH]; intros g i H; simpl; [assumption|].
  apply IH, store_sample_bounds, H.
Qed.

Lemma max_store_all (g : graphdata_s) (i : nat) (vs : list float) :
  max_value (store_all g i vs)
  = fold_left (fun m v => if F32.ltb m v then v else m) vs (max_value g).
Proof.
  revert g i. induction vs as [|v vs IH]; intros g i; simpl; [reflexivity|].
  rewrite IH. f_equal. unfold store_sample.
  destruct (F32.ltb (max_value g) v); simpl;
  match goal with |- context [if ?b then _ else _] => destruct b end; reflexivity.
Qed.

Lemma min_store_all (g : graphdata_s) (i : nat) (vs : list float) :
  min_value (store_all g i vs)
  = fold_left (fun m v => if F32.ltb v m then v else m) vs (min_value g).
Proof.
  revert g i. induction vs as [|v vs IH]; intros g i; simpl; [reflexivity|].
  rewrite IH. f_equal. unfold store_sample.
  destruct (F32.ltb (max_value g) v); simpl;
  match goal with |- context [if ?b then _ else _] => destruct b end; reflexivity.
Qed.

Lemma frame_px_store_all (g : graphdata_s) (i : nat) (vs : list float) :
  frame_px (store_all g i vs) = frame_px g.
Proof.
  revert g i. induction vs as [|v vs IH]; intros g i; simpl; [reflexivity|].
  rewrite IH. unfold store_sample.
  destruct (F32.ltb (max_value g) v); simpl;
  match goal with |- context [if ?b then _ else _] => destruct b end; reflexivity.
Qed.

(** *** The header loop ends *)

Lemma sscanf_s31_n_consumed (s tok : cstr) (n : nat) :
  sscanf_s31_n s = Some (tok, n) -> 1 <= n <= length s.
Proof.
  unfold sscanf_s31_n.
  pose proof (take_drop_while isspace s) as Hs.
  pose proof (drop_while_length_le isspace s) as Hd.
  destruct (drop_while isspace s) as [|c s1] eqn:E; [discriminate|].
  intros H. injection H as _ <-.
  set (tok' := take 31 _).
  assert (Hne : isspace c = false).
  { clear -E. induction s as [|x s IH]; simpl in E; [discriminate|].
    destruct (isspace x) eqn:Ex; [auto|]. injection E as -> _. assumption. }
  assert (Htok : 1 <= length tok' <= length (c :: s1)).
  { unfold tok'. cbn [take_while]. rewrite Hne. cbn [negb take length].
    rewrite length_take.
    pose proof (take_while_length_le (fun x => negb (isspace x)) s1). lia. }
  pose proof (drop_while_length_le isspace (drop (length tok') (c :: s1))) as H1.
  rewrite length_drop in H1. lia.
Qed.

Lemma header_tags_total (line : cstr) (fuel lp nc : nat) (g : graphdata_s)
    (log : list event) :
  lp + nc <= length line -> length line - (lp + nc) < fuel ->
  header_tags fuel line (length line) lp nc g log <> None.
Proof.
  revert lp nc g log. induction fuel as [|fuel IH]; intros lp nc g log H1 H2; [lia|].
  simpl. destruct (lp <? length line); [|discriminate].
  destruct (sscanf_s31_n (drop (lp + nc) line)) as [[tag nc']|] eqn:E; [|discriminate].
  apply sscanf_s31_n_consumed in E. rewrite length_drop in E.
  destruct (header_tag tag g) as [g' w]. apply IH; lia.
Qed.

(** *** What [read_undgraph] returns *)

Lemma header_of_total (line : cstr) (g0 : graphdata_s) :
  header_of line g0 <> None.
Proof.
  unfold header_of. apply header_tags_total.
  - destruct (sscanf_s31_n (c_str line)) as [[tok n]|] eqn:S; simpl; [|lia].
    apply sscanf_s31_n_consumed in S. lia.
  - lia.
Qed.

Lemma samples_length (file : cstr) :
  length (samples file) = length (data_lines file).
Proof. unfold samples. now rewrite length_map. Qed.

(** The outcome of [read_undgraph] on a file that opens and is not
    empty. *)
Lemma read_undgraph_open (E : env) (name file line fp : cstr)
    (g0 : graphdata_s) :
  fopen E name = Some file ->
  fgets 64 file = Some (line, fp) ->
  read_undgraph E name g0 =
    if str_eqb (magic_tag E line) MAGIC then
      match header_of line g0 with
      | Some (g1, log) =>
          if malloc E (4 * length (samples file))
          then Ret (1%Z, loaded g1 (samples file))
                   (log ++ [msg_found (length (samples file))])
          else Stop assert_failed
      | None => Loops
      end
    else Ret (0%Z, set_defaults g0) [msg_invalid_header].
Proof.
  intros Ho Hg. unfold read_undgraph, header_of, magic_tag, MAGIC.
  rewrite Ho, Hg. rewrite samples_length. unfold samples, data_lines. rewrite Hg.
  destruct (sscanf_s31_n (c_str line)) as [[tag nc]|]; cbn [fst snd];
    (destruct (str_eqb _ (txt "undgraph")); cbn [negb]; [|reflexivity]);
    (destruct (header_tags _ _ _ _ _ _ _) as [[g1 log]|]; [|reflexivity]);
    rewrite count_lines_spec by lia; cbn [Nat.add];
    (destruct (malloc E _); [|reflexivity]);
    rewrite read_values_spec by lia;
    unfold loaded, allocated; cbn [size set_min_value set_max_value set_data set_size];
    rewrite Nat.sub_0_r, take_length_take_while, length_map; reflexivity.
Qed.

(** *** The loaded structure *)

Lemma size_loaded g1 vs : size (loaded g1 vs) = length vs.
Proof. unfold loaded. cbn. now rewrite size_store_all. Qed.

Lemma data_loaded g1 vs : data (loaded g1 vs) = map Some vs.
Proof.
  unfold loaded. cbn [data set_tick_size].
  pose proof (data_store_all (allocated g1 (length vs)) vs [] 0) as H.
  cbn [length map app] in H. rewrite app_nil_r in H. apply H.
  unfold allocated. cbn. now rewrite Nat.add_0_r.
Qed.

Lemma max_loaded g1 vs : max_value (loaded g1 vs) = running_max vs.
Proof. unfold loaded. cbn [max_value set_tick_size]. now rewrite max_store_all. Qed.

Lemma min_loaded g1 vs : min_value (loaded g1 vs) = running_min vs.
Proof. unfold loaded. cbn [min_value set_tick_size]. now rewrite min_store_all. Qed.

Lemma frame_px_loaded g1 vs : frame_px (loaded g1 vs) = frame_px g1.
Proof. unfold loaded. cbn [frame_px set_tick_size]. now rewrite frame_px_store_all. Qed.

Lemma tick_size_loaded g1 vs :
  tick_size (loaded g1 vs)
  = F32.div (F32.abs (F32.sub (max_value (loaded g1 vs)) (min_value (loaded g1 vs))))
            (F32.of_Z (Z.of_nat (size (loaded g1 vs)))).
Proof. reflexivity. Qed.

Lemma bounds_loaded g1 vs : bounds_inv (loaded g1 vs).
Proof.
  assert (H : bounds_inv (store_all (allocated g1 (length vs)) 0 vs)).
  { apply store_all_bounds. unfold bounds_inv, allocated. cbn.
    repeat split; try reflexivity.
    all: apply list_elem_of_In, elem_of_replicate in H as [H _]; discriminate. }
  exact H.
Qed.

(** Every structure [read_undgraph] returns with 1 is a loaded one. *)
Lemma parsed_loaded (E : env) (name : cstr) (g0 g : graphdata_s) :
  parsed (read_undgraph E name g0) g ->
  exists file g1, fopen E name = Some file /\ g = loaded g1 (samples file).
Proof.
  intros [log H]. destruct (fopen E name) as [file|] eqn:Ho.
  - destruct (fgets 64 file) as [[line fp]|] eqn:Hg.
    + rewrite (read_undgraph_open E name file line fp g0 Ho Hg) in H.
      destruct (str_eqb _ _); [|discriminate].
      destruct (header_of line g0) as [[g1 l1]|]; [|discriminate].
      destruct (malloc E _); [|discriminate].
      injection H as <- _. eauto.
    + unfold read_undgraph in H. rewrite Ho, Hg in H. discriminate.
  - unfold read_undgraph in H. rewrite Ho in H. discriminate.
Qed.

(** *** Text after a number *)

Ltac ascii_cases c := destruct c as [[] [] [] [] [] [] [] []].

Lemma inert_facts (c : ascii) :
  inert c = true ->
  isnchar (tolower c) = false /\ isnchar c = false /\ isdigit c = false /\
  isxdigit c = false /\ Ascii.eqb c "." = false /\ Ascii.eqb c "+" = false /\
  Ascii.eqb c "-" = false /\ Ascii.eqb c "(" = false /\ Ascii.eqb c ")" = false.
Proof. ascii_cases c; vm_compute; intros H; try discriminate H; repeat split. Qed.

Lemma inert_not_letter (c x : ascii) :
  inert c = true -> isnchar x = true -> Ascii.eqb (tolower c) x = false.
Proof.
  intros Hc Hx. apply inert_facts in Hc as (H & _).
  destruct (Ascii.eqb_spec (tolower c) x); [congruence|reflexivity].
Qed.

Lemma inert_not_letter' (c x : ascii) :
  inert c = true -> isnchar x = true -> Ascii.eqb x (tolower c) = false.
Proof.
  intros Hc Hx. rewrite Ascii.eqb_sym. now apply inert_not_letter.
Qed.

Lemma inert_not_nchar (c x : ascii) :
  inert c = true -> isnchar x = true -> Ascii.eqb c x = false.
Proof.
  intros Hc Hx. apply inert_facts in Hc as (_ & H & _).
  destruct (Ascii.eqb_spec c x); [congruence|reflexivity].
Qed.

Lemma drop_while_app_cons {A} (p : A -> bool) (l u : list A) x l' :
  drop_while p l = x :: l' -> drop_while p (l ++ u) = x :: l' ++ u.
Proof.
  induction l as [|a l IH]; simpl; [discriminate|].
  destruct (p a); [exact IH|]. intros H. injection H as -> ->. reflexivity.
Qed.

Lemma scan_sign_app (s u : cstr) :
  s <> [] -> scan_sign (s ++ u) = ((scan_sign s).1, (scan_sign s).2 ++ u).
Proof.
  destruct s as [|c s]; [congruence|]. intros _. simpl.
  destruct (Ascii.eqb c "-"); [reflexivity|].
  destruct (Ascii.eqb c "+"); reflexivity.
Qed.

Lemma scan_sign_inert (c : ascii) (t : cstr) :
  inert c = true -> scan_sign (c :: t) = (false, c :: t).
Proof.
  intros H. apply inert_facts in H as (_ & _ & _ & _ & _ & Hp & Hm & _).
  simpl. now rewrite Hm, Hp.
Qed.

Lemma strip_prefix_ci_app (p s u r : cstr) :
  strip_prefix_ci p s = Some r -> strip_prefix_ci p (s ++ u) = Some (r ++ u).
Proof.
  revert s. induction p as [|x p IH]; intros s; simpl.
  - intros H. injection H as ->. reflexivity.
  - destruct s as [|y s]; [discriminate|]. simpl.
    destruct (Ascii.eqb x (tolower y)); [apply IH|discriminate].
Qed.

Lemma strip_prefix_ci_stop (p s : cstr) (c : ascii) (t : cstr) :
  forallb isnchar p = true -> inert c = true ->
  strip_prefix_ci p s = None -> strip_prefix_ci p (s ++ c :: t) = None.
Proof.
  intros Hp Hc. revert s. induction p as [|x p IH]; intros s; simpl; [discriminate|].
  simpl in Hp. apply andb_true_iff in Hp as [Hx Hp].
  destruct s as [|y s]; simpl.
  - now rewrite inert_not_letter'.
  - destruct (Ascii.eqb x (tolower y)); [apply IH, Hp|reflexivity].
Qed.

Lemma head_is_app (m c : ascii) (r t : cstr) :
  inert c = true -> isnchar m = true ->
  head_is m (r ++ c :: t) = head_is m r.
Proof.
  intros Hc Hm. destruct r; simpl; [|reflexivity]. now apply inert_not_letter.
Qed.

Lemma scan_mantissa_app (isd : ascii -> bool) (s : cstr) (c : ascii) (t : cstr) :
  isd c = false -> Ascii.eqb c "." = false ->
  scan_mantissa isd (s ++ c :: t) =
  ((scan_mantissa isd s).1.1, (scan_mantissa isd s).1.2,
   (scan_mantissa isd s).2 ++ c :: t).
Proof.
  intros Hd Hp. unfold scan_mantissa.
  rewrite take_while_app_stop, drop_while_app_stop by assumption.
  destruct (drop_while isd s) as [|x s2]; simpl.
  - now rewrite Hp.
  - destruct (Ascii.eqb x ".").
    + now rewrite take_while_app_stop, drop_while_app_stop by assumption.
    + reflexivity.
Qed.

Lemma scan_exponent_app (m : ascii) (s : cstr) (c : ascii) (t : cstr) :
  inert c = true -> isnchar m = true ->
  scan_exponent m (s ++ c :: t) =
  ((scan_exponent m s).1, (scan_exponent m s).2 ++ c :: t).
Proof.
  intros Hc Hm. pose proof (inert_facts c Hc) as (_ & _ & Hd & _).
  destruct s as [|x s]; simpl.
  - now rewrite inert_not_letter.
  - destruct (Ascii.eqb (tolower x) m); [|reflexivity].
    destruct s as [|y s].
    + cbn [app]. rewrite scan_sign_inert by assumption. simpl. rewrite Hd. reflexivity.
    + rewrite scan_sign_app by discriminate.
      destruct (scan_sign (y :: s)) as [neg s2]. cbn [fst snd].
      rewrite take_while_app_stop, drop_while_app_stop by assumption.
      destruct (take_while isdigit s2); reflexivity.
Qed.

Lemma scan_decimal_app (neg : bool) (s : cstr) (c : ascii) (t : cstr) (r : fscan) :
  inert c = true ->
  scan_decimal neg s = Some r ->
  scan_decimal neg (s ++ c :: t) = Some (fscan_app r (c :: t)).
Proof.
  intros Hc. pose proof (inert_facts c Hc) as (_ & _ & Hd & _ & Hp & _).
  unfold scan_decimal. rewrite scan_mantissa_app by assumption.
  destruct (scan_mantissa isdigit s) as [[ip fp] r0]. cbn [fst snd].
  destruct (ip ++ fp); [discriminate|].
  rewrite scan_exponent_app by (assumption || reflexivity).
  destruct (scan_exponent "e" r0) as [e r']. cbn [fst snd].
  intros H. injection H as <-. reflexivity.
Qed.

Lemma scan_decimal_none (neg : bool) (s : cstr) (c : ascii) (t : cstr) :
  inert c = true ->
  scan_decimal neg s = None -> scan_decimal neg (s ++ c :: t) = None.
Proof.
  intros Hc. pose proof (inert_facts c Hc) as (_ & _ & Hd & _ & Hp & _).
  unfold scan_decimal. rewrite scan_mantissa_app by assumption.
  destruct (scan_mantissa isdigit s) as [[ip fp] r0]. cbn [fst snd].
  destruct (ip ++ fp); [reflexivity|].
  destruct (scan_exponent "e" r0) as [e r']. discriminate.
Qed.

Lemma is_hex_intro_app (s : cstr) (c : ascii) (t : cstr) :
  inert c = true -> is_hex_intro (s ++ c :: t) = is_hex_intro s.
Proof.
  intros Hc. destruct s as [|z [|x s]]; simpl; try reflexivity.
  - rewrite (inert_not_nchar c "0") by (assumption || reflexivity).
    destruct t; reflexivity.
  - rewrite (inert_not_letter c "x") by (assumption || reflexivity).
    apply andb_false_r.
Qed.

Lemma scan_hex_app (neg : bool) (s : cstr) (c : ascii) (t : cstr) :
  inert c = true ->
  scan_hex neg (s ++ c :: t) =
  option_map (fun r => fscan_app r (c :: t)) (scan_hex neg s).
Proof.
  intros Hc. pose proof (inert_facts c Hc) as (_ & _ & _ & Hx & Hp & _).
  destruct s as [|z [|x s]]; simpl.
  - rewrite (inert_not_nchar c "0") by (assumption || reflexivity).
    destruct t; reflexivity.
  - rewrite (inert_not_letter c "x") by (assumption || reflexivity).
    now rewrite andb_false_r.
  - destruct (Ascii.eqb z "0" && Ascii.eqb (tolower x) "x"); [|reflexivity].
    rewrite scan_mantissa_app by assumption.
    destruct (scan_mantissa isxdigit s) as [[ip fp] r0]. cbn [fst snd].
    destruct (ip ++ fp); [reflexivity|].
    rewrite scan_exponent_app by (assumption || reflexivity).
    destruct (scan_exponent "p" r0) as [e r']. reflexivity.
Qed.

Lemma scan_float_body_app (neg : bool) (s : cstr) (c : ascii) (t : cstr) (r : fscan) :
  inert c = true ->
  scan_float_body neg s = Some r ->
  scan_float_body neg (s ++ c :: t) = Some (fscan_app r (c :: t)).
Proof.
  intros Hc. pose proof (inert_facts c Hc) as (_ & Hn & _ & _ & _ & _ & _ & Hl & Hr).
  unfold scan_float_body.
  destruct (strip_prefix_ci (txt "inf") s) as [r1|] eqn:E1.
  { rewrite (strip_prefix_ci_app _ _ _ _ E1).
    destruct (strip_prefix_ci (txt "inity") r1) as [r2|] eqn:E2.
    - rewrite (strip_prefix_ci_app _ _ _ _ E2). intros H. injection H as <-. reflexivity.
    - rewrite strip_prefix_ci_stop by (assumption || reflexivity).
      intros H. injection H as <-. reflexivity. }
  rewrite strip_prefix_ci_stop by (assumption || reflexivity).
  destruct (strip_prefix_ci (txt "nan") s) as [r1|] eqn:E2.
  { rewrite (strip_prefix_ci_app _ _ _ _ E2).
    destruct r1 as [|c0 r1]; simpl.
    - rewrite Hl. intros H. injection H as <-. reflexivity.
    - destruct (Ascii.eqb c0 "(").
      + rewrite drop_while_app_stop by assumption.
        destruct (drop_while isnchar r1) as [|d r2]; simpl.
        * rewrite Hr. intros H. injection H as <-. reflexivity.
        * destruct (Ascii.eqb d ")"); intros H; injection H as <-; reflexivity.
      + intros H. injection H as <-. reflexivity. }
  rewrite strip_prefix_ci_stop by (assumption || reflexivity).
  rewrite scan_hex_app by assumption.
  destruct (scan_hex neg s) as [h|]; simpl.
  { intros H. injection H as <-. reflexivity. }
  intros E3. now apply scan_decimal_app.
Qed.

Lemma scan_float_body_nil (neg : bool) : scan_float_body neg [] = None.
Proof. reflexivity. Qed.

(** Text that starts with an inert character after a number does not
    change what is scanned. *)
Lemma scan_float_app (s : cstr) (c : ascii) (t : cstr) (r : fscan) :
  inert c = true ->
  scan_float s = Some r ->
  scan_float (s ++ c :: t) = Some (fscan_app r (c :: t)).
Proof.
  intros Hc. unfold scan_float.
  destruct (drop_while isspace s) as [|x s1] eqn:E.
  - simpl. discriminate.
  - rewrite (drop_while_app_cons _ _ _ _ _ E).
    change (x :: s1 ++ c :: t) with ((x :: s1) ++ c :: t).
    rewrite scan_sign_app by discriminate.
    destruct (scan_sign (x :: s1)) as [neg s2]. cbn [fst snd].
    apply scan_float_body_app, Hc.
Qed.

Lemma strtof_app (s : cstr) (c : ascii) (t : cstr) :
  inert c = true -> scan_float s <> None ->
  strtof (s ++ c :: t) = strtof s.
Proof.
  intros Hc Hs. unfold strtof. destruct (scan_float s) as [r|] eqn:E; [|congruence].
  now rewrite (scan_float_app _ _ _ _ Hc E).
Qed.

(** *** The buffer of the [%f] conversion *)

Lemma forallb_take_while {A} (p : A -> bool) (l : list A) :
  forallb p (take_while p l) = true.
Proof.
  induction l as [|x l IH]; simpl; [reflexivity|].
  destruct (p x) eqn:E; simpl; [now rewrite E|reflexivity].
Qed.

Lemma take_while_nil_drop {A} (p : A -> bool) (u : list A) :
  take_while p u = [] -> drop_while p u = u.
Proof.
  destruct u as [|c u]; simpl; [reflexivity|].
  destruct (p c); [discriminate|reflexivity].
Qed.

Lemma take_while_app_all {A} (p : A -> bool) (a u : list A) :
  forallb p a = true -> take_while p u = [] ->
  take_while p (a ++ u) = a /\ drop_while p (a ++ u) = u.
Proof.
  intros Ha Hu. induction a as [|x a IH]; simpl.
  - split; [exact Hu|now apply take_while_nil_drop].
  - simpl in Ha. apply andb_true_iff in Ha as [Hx Ha]. rewrite Hx.
    destruct (IH Ha) as [-> ->]. split; reflexivity.
Qed.

Lemma take_while_drop_while {A} (p : A -> bool) (l : list A) :
  take_while p (drop_while p l) = [].
Proof.
  induction l as [|x l IH]; simpl; [reflexivity|].
  destruct (p x) eqn:E; [exact IH|]. simpl. now rewrite E.
Qed.

(** The radix character of a text after its leading digits. *)
Lemma scan_mantissa_item (isd : ascii -> bool) (s u : cstr) :
  isd "."%char = false -> take_while isd u = [] ->
  (forall t, u <> "."%char :: t) ->
  scan_mantissa isd
    ((scan_mantissa isd s).1.1
     ++ match drop_while isd s with
        | c :: _ => if Ascii.eqb c "." then [c] else []
        | [] => []
        end
     ++ (scan_mantissa isd s).1.2 ++ u)
  = ((scan_mantissa isd s).1.1, (scan_mantissa isd s).1.2, u).
Proof.
  intros Hp Hu Hd.
  assert (Hnodot : forall a, forallb isd a = true ->
            scan_mantissa isd (a ++ u) = (a, [], u)).
  { intros a Ha. unfold scan_mantissa.
    destruct (take_while_app_all isd a u Ha Hu) as [-> ->].
    destruct u as [|c u']; [reflexivity|].
    destruct (Ascii.eqb_spec c "."); [|reflexivity].
    subst c. now destruct (Hd u'). }
  destruct (drop_while isd s) as [|c s2] eqn:D.
  - assert (M : scan_mantissa isd s = (take_while isd s, [], []))
      by (unfold scan_mantissa; now rewrite D).
    rewrite M. cbn [fst snd app]. apply Hnodot, forallb_take_while.
  - destruct (Ascii.eqb_spec c ".") as [->|Hc].
    + assert (M : scan_mantissa isd s
                  = (take_while isd s, take_while isd s2, drop_while isd s2))
        by (unfold scan_mantissa; now rewrite D).
      rewrite M. cbn [fst snd app]. unfold scan_mantissa.
      destruct (take_while_app_all isd (take_while isd s)
                  ("."%char :: take_while isd s2 ++ u)) as [-> ->].
      * apply forallb_take_while.
      * simpl. now rewrite Hp.
      * rewrite Ascii.eqb_refl.
        now destruct (take_while_app_all isd (take_while isd s2) u
                        (forallb_take_while _ _) Hu) as [-> ->].
    + assert (M : scan_mantissa isd s = (take_while isd s, [], c :: s2)).
      { unfold scan_mantissa. rewrite D.
        destruct (Ascii.eqb_spec c "."); [contradiction|reflexivity]. }
      rewrite M. cbn [fst snd app]. apply Hnodot, forallb_take_while.
Qed.

Lemma digit_facts (c : ascii) :
  isdigit c = true ->
  Ascii.eqb c "-" = false /\ Ascii.eqb c "+" = false /\
  Ascii.eqb c "." = false.
Proof. ascii_cases c; vm_compute; intros H; try discriminate H; repeat split. Qed.

Lemma scan_sign_digits (ds : cstr) :
  forallb isdigit ds = true -> scan_sign ds = (false, ds).
Proof.
  destruct ds as [|c ds]; [reflexivity|]. simpl. intros H.
  apply andb_true_iff in H as [H _].
  destruct (digit_facts c H) as (-> & -> & _). reflexivity.
Qed.

Lemma scan_sign_item (s : cstr) :
  (scan_sign s).2 = drop (length (sign_item s)) s /\
  forall ds, forallb isdigit ds = true ->
    scan_sign (sign_item s ++ ds) = ((scan_sign s).1, ds).
Proof.
  destruct s as [|c s]; simpl.
  - split; [reflexivity|]. apply scan_sign_digits.
  - destruct (Ascii.eqb c "-") eqn:E1; simpl.
    + split; [reflexivity|]. intros ds _. now rewrite E1.
    + destruct (Ascii.eqb c "+") eqn:E2; simpl.
      * split; [reflexivity|]. intros ds _. now rewrite E1, E2.
      * split; [reflexivity|]. apply scan_sign_digits.
Qed.

(** The exponent of the collected exponent part is the exponent of the
    text it was collected from. *)
Lemma scan_exponent_item (m : ascii) (r : cstr) :
  tolower m = m ->
  (scan_exponent m (exponent_item m r)).1 = (scan_exponent m r).1.
Proof.
  intros Hm. destruct r as [|c r1]; [reflexivity|].
  cbn [exponent_item scan_exponent].
  destruct (Ascii.eqb (tolower c) m); [|reflexivity].
  cbn [scan_exponent]. rewrite Hm, Ascii.eqb_refl.
  destruct (scan_sign_item r1) as [H2 Hs].
  rewrite (Hs _ (forallb_take_while isdigit _)).
  destruct (scan_sign r1) as [neg s2]. cbn [fst snd] in *. subst s2.
  rewrite (take_while_all isdigit (take_while isdigit _))
    by apply forallb_take_while.
  destruct (take_while isdigit _); reflexivity.
Qed.

Lemma exponent_item_stops (isd : ascii -> bool) (m : ascii) (r : cstr) :
  isd m = false -> Ascii.eqb m "." = false ->
  take_while isd (exponent_item m r) = [] /\
  forall t, exponent_item m r <> "."%char :: t.
Proof.
  intros Hd Hp. destruct r as [|c r1]; cbn [exponent_item].
  - split; [reflexivity|discriminate].
  - destruct (Ascii.eqb (tolower c) m).
    + split; [simpl; now rewrite Hd|].
      intros t H. injection H as H _. subst m. discriminate Hp.
    + split; [reflexivity|discriminate].
Qed.

(** What [strtof] reads from the collected digits is what it reads from
    the text. *)
Lemma scan_mantissa_number_item (isd : ascii -> bool) (m : ascii) (s : cstr) :
  isd "."%char = false -> isd m = false -> Ascii.eqb m "." = false ->
  tolower m = m ->
  exists u,
    scan_mantissa isd (number_item isd m s)
    = ((scan_mantissa isd s).1.1, (scan_mantissa isd s).1.2, u) /\
    ((scan_mantissa isd s).1.1 ++ (scan_mantissa isd s).1.2 <> [] ->
     (scan_exponent m u).1 = (scan_exponent m (scan_mantissa isd s).2).1) /\
    ((scan_mantissa isd s).1.1 ++ (scan_mantissa isd s).1.2 = [] ->
     number_item isd m s
     = match drop_while isd s with
       | c :: _ => if Ascii.eqb c "." then [c] else []
       | [] => []
       end).
Proof.
  intros Hp Hd Hm Hl. unfold number_item.
  pose proof (scan_mantissa_item isd s) as H.
  destruct (scan_mantissa isd s) as [[ip fp] r]. cbn [fst snd] in *.
  destruct (ip ++ fp) as [|d ds] eqn:E.
  - exists []. split; [apply H; [assumption|reflexivity|discriminate]|].
    split; [congruence|]. intros _.
    apply app_eq_nil in E as [-> ->]. cbn [app].
    now rewrite !app_nil_r.
  - exists (exponent_item m r).
    destruct (exponent_item_stops isd m r Hd Hm) as [H1 H2].
    split; [now apply H|]. split; [|discriminate].
    intros _. now apply scan_exponent_item.
Qed.

Lemma scan_mantissa_digits (isd : ascii -> bool) (s : cstr) :
  forallb isd (scan_mantissa isd s).1.1 = true /\
  forallb isd (scan_mantissa isd s).1.2 = true.
Proof.
  unfold scan_mantissa. destruct (drop_while isd s) as [|c s2].
  - split; [apply forallb_take_while|reflexivity].
  - destruct (Ascii.eqb c "."); (split; [apply forallb_take_while|]);
      [apply forallb_take_while|reflexivity].
Qed.

Lemma strip_prefix_ci_take (p s r : cstr) (n : nat) :
  strip_prefix_ci p s = Some r -> length p <= n ->
  strip_prefix_ci p (take n s) = Some (take (n - length p) r).
Proof.
  revert s n. induction p as [|x p IH]; intros s n; simpl.
  - intros H _. injection H as ->. now rewrite Nat.sub_0_r.
  - destruct s as [|y s]; [discriminate|]. destruct n as [|n]; [lia|]. simpl.
    destruct (Ascii.eqb x (tolower y)); [|discriminate].
    intros H Hn. apply IH; [exact H|lia].
Qed.

Lemma strip_prefix_ci_length (p s r : cstr) :
  strip_prefix_ci p s = Some r -> length s = length p + length r.
Proof.
  revert s. induction p as [|x p IH]; intros s; simpl.
  - intros H. now injection H as ->.
  - destruct s as [|y s]; [discriminate|].
    destruct (Ascii.eqb x (tolower y)); [|discriminate].
    intros H. simpl. now rewrite (IH _ H).
Qed.

Lemma scan_float_body_inf (neg : bool) (s r : cstr) :
  strip_prefix_ci (txt "inf") s = Some r ->
  exists q, scan_float_body neg s = Some q /\ fs_val q = S754_infinity neg.
Proof.
  intros H. unfold scan_float_body. rewrite H.
  destruct (strip_prefix_ci (txt "inity") r); eexists; split; reflexivity.
Qed.

Lemma strip_nan_not_inf (s r : cstr) :
  strip_prefix_ci (txt "nan") s = Some r ->
  strip_prefix_ci (txt "inf") s = None.
Proof.
  destruct s as [|y s]; [discriminate|].
  cbn [strip_prefix_ci txt list_ascii_of_string].
  destruct (Ascii.eqb "n" (tolower y)) eqn:E; [|discriminate].
  apply Ascii.eqb_eq in E. rewrite <- E. reflexivity.
Qed.

Lemma scan_float_body_nan (neg : bool) (s r : cstr) :
  strip_prefix_ci (txt "nan") s = Some r ->
  exists q, scan_float_body neg s = Some q /\ fs_val q = S754_nan.
Proof.
  intros H. unfold scan_float_body. rewrite (strip_nan_not_inf s r H), H.
  destruct r as [|c r1]; [eexists; split; reflexivity|].
  destruct (Ascii.eqb c "("); [|eexists; split; reflexivity].
  destruct (drop_while isnchar r1) as [|d r2]; [eexists; split; reflexivity|].
  destruct (Ascii.eqb d ")"); eexists; split; reflexivity.
Qed.

Lemma x_facts (x : ascii) :
  Ascii.eqb (tolower x) "x" = true ->
  isdigit x = false /\ Ascii.eqb x "." = false /\
  Ascii.eqb (tolower x) "e" = false.
Proof. ascii_cases x; vm_compute; intros H; try discriminate H; repeat split. Qed.

(** [0x] without a hexadecimal digit after it: [strtof] reads the zero. *)
Lemma scan_decimal_0x (neg : bool) (x : ascii) (t : cstr) :
  Ascii.eqb (tolower x) "x" = true ->
  exists q, scan_decimal neg ("0"%char :: x :: t) = Some q /\
    fs_val q = S754_zero neg.
Proof.
  intros Hx. destruct (x_facts x Hx) as (Hd & Hp & He).
  unfold scan_decimal, scan_mantissa. cbn [take_while drop_while].
  change (isdigit "0") with true. cbn match. rewrite Hd, Hp.
  cbn [app scan_exponent]. rewrite He. eexists. split; reflexivity.
Qed.

Lemma scan_hex_not_intro (neg : bool) (s : cstr) :
  is_hex_intro s = false -> scan_hex neg s = None.
Proof.
  destruct s as [|z [|x s1]]; try reflexivity.
  cbn [is_hex_intro scan_hex]. now intros ->.
Qed.

Lemma in_sign_item (c : ascii) (s : cstr) :
  In c (sign_item s) -> c = "-"%char \/ c = "+"%char.
Proof.
  destruct s as [|x s]; [contradiction|]. cbn [sign_item].
  destruct (Ascii.eqb_spec x "-") as [->|_]; [intros [<-|[]]; now left|].
  destruct (Ascii.eqb_spec x "+") as [->|_]; [intros [<-|[]]; now right|].
  contradiction.
Qed.

Lemma in_take_while {A} (p : A -> bool) (l : list A) (x : A) :
  In x (take_while p l) -> p x = true.
Proof.
  intros H. pose proof (forallb_take_while p l) as F.
  rewrite forallb_forall in F. now apply F.
Qed.

(** The characters of a collected decimal number. *)
Lemma number_item_chars (s : cstr) (c : ascii) :
  In c (number_item isdigit "e" s) ->
  isdigit c = true \/ c = "."%char \/ c = "e"%char \/ c = "-"%char \/
  c = "+"%char.
Proof.
  unfold number_item. pose proof (scan_mantissa_digits isdigit s) as [H1 H2].
  destruct (scan_mantissa isdigit s) as [[ip fp] r]. cbn [fst snd] in *.
  rewrite forallb_forall in H1, H2.
  rewrite !in_app_iff. intros [H|[H|[H|H]]]; auto.
  - destruct (drop_while isdigit s) as [|x ?]; [contradiction|].
    destruct (Ascii.eqb_spec x "."); [|contradiction].
    destruct H as [<-|[]]. auto.
  - destruct (ip ++ fp); [contradiction|].
    destruct r as [|x r1]; [contradiction|]. cbn [exponent_item] in H.
    destruct (Ascii.eqb (tolower x) "e"); [|contradiction].
    destruct H as [<-|H]; [auto|]. apply in_app_iff in H as [H|H].
    + apply in_sign_item in H. tauto.
    + left. eapply in_take_while, H.
Qed.

Lemma number_char_facts (c : ascii) :
  isdigit c = true \/ c = "."%char \/ c = "e"%char \/ c = "-"%char \/
  c = "+"%char ->
  Ascii.eqb "i" (tolower c) = false /\ Ascii.eqb "n" (tolower c) = false /\
  Ascii.eqb (tolower c) "x" = false.
Proof.
  intros [H|[->|[->|[->| ->]]]]; try (repeat split; reflexivity).
  revert H. ascii_cases c; vm_compute; intros H; try discriminate H;
    repeat split.
Qed.

(** What [strtof] reads from the buffer of the conversion is what it
    reads from the text itself. *)
Lemma float_item_scan (neg : bool) (s it : cstr) (r : fscan) :
  float_item s = Some it -> scan_float_body neg it = Some r ->
  exists r0, scan_float_body neg s = Some r0 /\ fs_val r0 = fs_val r.
Proof.
  unfold float_item.
  destruct (strip_prefix_ci (txt "nan") s) as [q|] eqn:En.
  { intros H; injection H as <-. intros Hr.
    destruct (scan_float_body_nan neg s q En) as (r0 & H0 & V0).
    destruct (scan_float_body_nan neg (take 3 s) _
                (strip_prefix_ci_take _ _ _ 3 En (le_n 3))) as (r1 & H1 & V1).
    exists r0. split; [exact H0|]. congruence. }
  destruct (strip_prefix_ci (txt "inf") s) as [q|] eqn:Ei.
  { intros Hit Hr. destruct (scan_float_body_inf neg s q Ei) as (r0 & H0 & V0).
    exists r0. split; [exact H0|].
    assert (Hn : exists n, it = take n s /\ 3 <= n).
    { destruct (head_is "i" q).
      - destruct (strip_prefix_ci (txt "inity") q); [|discriminate].
        injection Hit as <-. exists 8. split; [reflexivity|lia].
      - injection Hit as <-. exists 3. split; [reflexivity|lia]. }
    destruct Hn as (n & -> & Hn).
    destruct (scan_float_body_inf neg (take n s) _
                (strip_prefix_ci_take _ _ _ n Ei Hn)) as (r1 & H1 & V1).
    congruence. }
  assert (N0 : forall t, strip_prefix_ci (txt "nan") ("0"%char :: t) = None)
    by reflexivity.
  assert (I0 : forall t, strip_prefix_ci (txt "inf") ("0"%char :: t) = None)
    by reflexivity.
  destruct (is_hex_intro s) eqn:Eh.
  - destruct s as [|z [|x s1]]; try discriminate Eh. cbn [is_hex_intro] in Eh.
    apply andb_true_iff in Eh as [Ez Ex]. apply Ascii.eqb_eq in Ez. subst z.
    change (drop 2 ("0"%char :: x :: s1)) with s1.
    change (take 2 ("0"%char :: x :: s1)) with ["0"%char; x].
    destruct (scan_mantissa_number_item isxdigit "p" s1
                eq_refl eq_refl eq_refl eq_refl) as (u & M & He & Hn).
    destruct (number_item isxdigit "p" s1) as [|b0 b] eqn:Eb; [discriminate|].
    intros H; injection H as <-. cbn [app].
    unfold scan_float_body. rewrite !N0, !I0. unfold scan_hex.
    rewrite Ascii.eqb_refl, Ex. cbn [andb]. rewrite M.
    destruct (scan_mantissa isxdigit s1) as [[ip fp] r1]. cbn [fst snd] in *.
    destruct (ip ++ fp) as [|d ds] eqn:Ed.
    + destruct (scan_decimal_0x neg x (b0 :: b) Ex) as (q1 & -> & V1).
      destruct (scan_decimal_0x neg x s1 Ex) as (q0 & -> & V0).
      intros H; injection H as <-. exists q0. split; [reflexivity|congruence].
    + specialize (He ltac:(discriminate)).
      destruct (scan_exponent "p" u) as [e1 u1].
      destruct (scan_exponent "p" r1) as [e0 u0]. cbn [fst] in He. subst e1.
      intros H; injection H as <-. eexists. split; reflexivity.
  - destruct (scan_mantissa_number_item isdigit "e" s
                eq_refl eq_refl eq_refl eq_refl) as (u & M & He & Hn).
    pose proof (number_item_chars s) as Hc.
    destruct (number_item isdigit "e" s) as [|b0 b] eqn:Eb; [discriminate|].
    intros H; injection H as <-.
    unfold scan_float_body. rewrite En, Ei, (scan_hex_not_intro neg s Eh).
    assert (Hi : strip_prefix_ci (txt "inf") (b0 :: b) = None).
    { cbn [strip_prefix_ci txt list_ascii_of_string].
      destruct (number_char_facts b0 (Hc b0 (or_introl eq_refl)))
        as (-> & _). reflexivity. }
    assert (Hna : strip_prefix_ci (txt "nan") (b0 :: b) = None).
    { cbn [strip_prefix_ci txt list_ascii_of_string].
      destruct (number_char_facts b0 (Hc b0 (or_introl eq_refl)))
        as (_ & -> & _). reflexivity. }
    assert (Hh : scan_hex neg (b0 :: b) = None).
    { destruct b as [|b1 b']; [reflexivity|]. unfold scan_hex.
      destruct (number_char_facts b1 (Hc b1 (or_intror (or_introl eq_refl))))
        as (_ & _ & ->). now rewrite andb_false_r. }
    rewrite Hi, Hna, Hh. unfold scan_decimal. rewrite M.
    destruct (scan_mantissa isdigit s) as [[ip fp] r1]. cbn [fst snd] in *.
    destruct (ip ++ fp) as [|d ds] eqn:Ed; [discriminate|].
    specialize (He ltac:(discriminate)).
    destruct (scan_exponent "e" u) as [e1 u1].
    destruct (scan_exponent "e" r1) as [e0 u0]. cbn [fst] in He. subst e1.
    intros H; injection H as <-. eexists. split; reflexivity.
Qed.

Lemma sign_item_app (s : cstr) (c : ascii) (t : cstr) :
  inert c = true -> sign_item (s ++ c :: t) = sign_item s.
Proof.
  intros Hc. destruct s as [|x s]; [|reflexivity]. cbn [app sign_item].
  apply inert_facts in Hc as (_ & _ & _ & _ & _ & Hp & Hm & _).
  now rewrite Hm, Hp.
Qed.

Lemma sign_item_length (s : cstr) : length (sign_item s) <= length s.
Proof.
  destruct s as [|x s]; cbn [sign_item length]; [lia|].
  destruct (Ascii.eqb x "-" || Ascii.eqb x "+"); cbn [length]; lia.
Qed.

Lemma exponent_item_app (m : ascii) (s : cstr) (c : ascii) (t : cstr) :
  inert c = true -> isnchar m = true ->
  exponent_item m (s ++ c :: t) = exponent_item m s.
Proof.
  intros Hc Hm. pose proof (inert_facts c Hc) as (_ & _ & Hd & _).
  destruct s as [|x s]; simpl.
  - now rewrite inert_not_letter.
  - destruct (Ascii.eqb (tolower x) m); [|reflexivity].
    rewrite sign_item_app by assumption.
    rewrite drop_app_le by apply sign_item_length.
    now rewrite take_while_app_stop.
Qed.

Lemma number_item_app (isd : ascii -> bool) (m : ascii) (s : cstr)
    (c : ascii) (t : cstr) :
  inert c = true -> isd c = false -> isnchar m = true ->
  number_item isd m (s ++ c :: t) = number_item isd m s.
Proof.
  intros Hc Hd Hm. pose proof (inert_facts c Hc) as (_ & _ & _ & _ & Hp & _).
  unfold number_item. rewrite scan_mantissa_app by assumption.
  destruct (scan_mantissa isd s) as [[ip fp] r]. cbn [fst snd].
  rewrite drop_while_app_stop by assumption.
  rewrite exponent_item_app by assumption.
  destruct (drop_while isd s); simpl; [now rewrite Hp|reflexivity].
Qed.

(** Text that starts with an inert character after the text does not
    change the buffer of the conversion. *)
Lemma float_item_app (s : cstr) (c : ascii) (t : cstr) :
  inert c = true -> float_item (s ++ c :: t) = float_item s.
Proof.
  intros Hc. pose proof (inert_facts c Hc) as (_ & _ & Hd & Hx & _).
  unfold float_item.
  destruct (strip_prefix_ci (txt "nan") s) as [q|] eqn:En.
  { rewrite (strip_prefix_ci_app _ _ _ _ En).
    apply strip_prefix_ci_length in En. simpl in En.
    now rewrite take_app_le by lia. }
  rewrite strip_prefix_ci_stop by (assumption || reflexivity).
  destruct (strip_prefix_ci (txt "inf") s) as [q|] eqn:Ei.
  { rewrite (strip_prefix_ci_app _ _ _ _ Ei).
    rewrite head_is_app by (assumption || reflexivity).
    apply strip_prefix_ci_length in Ei. simpl in Ei.
    destruct (head_is "i" q); [|now rewrite take_app_le by lia].
    destruct (strip_prefix_ci (txt "inity") q) as [q'|] eqn:Ey.
    - rewrite (strip_prefix_ci_app _ _ _ _ Ey).
      apply strip_prefix_ci_length in Ey. simpl in Ey.
      now rewrite take_app_le by lia.
    - now rewrite strip_prefix_ci_stop by (assumption || reflexivity). }
  rewrite strip_prefix_ci_stop by (assumption || reflexivity).
  rewrite is_hex_intro_app by assumption.
  destruct (is_hex_intro s) eqn:Eh.
  - destruct s as [|z [|x s1]]; try discriminate Eh.
    change (drop 2 ((z :: x :: s1) ++ c :: t)) with (s1 ++ c :: t).
    change (take 2 ((z :: x :: s1) ++ c :: t)) with [z; x].
    change (drop 2 (z :: x :: s1)) with s1.
    change (take 2 (z :: x :: s1)) with [z; x].
    now rewrite number_item_app by (assumption || reflexivity).
  - now rewrite number_item_app by (assumption || reflexivity).
Qed.

Lemma scan_f_app (s : cstr) (c : ascii) (t : cstr) (v : float) :
  inert c = true -> scan_f s = Some v -> scan_f (s ++ c :: t) = Some v.
Proof.
  intros Hc. unfold scan_f.
  destruct (drop_while isspace s) as [|x s1] eqn:E; [discriminate|].
  rewrite (drop_while_app_cons _ _ _ _ _ E).
  change (x :: s1 ++ c :: t) with ((x :: s1) ++ c :: t).
  rewrite scan_sign_app by discriminate.
  destruct (scan_sign (x :: s1)) as [neg s2]. cbn [fst snd].
  now rewrite float_item_app.
Qed.

(** A line that [sscanf] converts is a line in which [strtof] finds the
    same number. *)
Lemma scan_f_scan_float (s : cstr) (v : float) :
  scan_f s = Some v -> exists r, scan_float s = Some r /\ fs_val r = v.
Proof.
  unfold scan_f, scan_float. destruct (scan_sign _) as [neg s1].
  destruct (float_item s1) as [it|] eqn:Ei; [|discriminate].
  destruct (scan_float_body neg it) as [r|] eqn:Er; [|discriminate].
  intros H; injection H as <-. eapply float_item_scan; eassumption.
Qed.

Lemma scan_f_strtof (s : cstr) (v : float) : scan_f s = Some v -> strtof s = v.
Proof.
  intros H. apply scan_f_scan_float in H as (r & H & <-).
  unfold strtof. now rewrite H.
Qed.

Lemma scan_f_found (s : cstr) (v : float) :
  scan_f s = Some v -> scan_float s <> None.
Proof. intros H. apply scan_f_scan_float in H as (r & -> & _). discriminate. Qed.

(** *** Files made of lines *)

Lemma inert_nl : inert nl = true.
Proof. reflexivity. Qed.

Lemma values_loaded g1 vs : values (loaded g1 vs) = vs.
Proof.
  unfold values. rewrite data_loaded.
  induction vs as [|v vs IH]; [reflexivity|]. cbn. f_equal. exact IH.
Qed.

Lemma first_token_newline (h : cstr) :
  first_token h <> [] -> first_token (h ++ [nl]) = first_token h.
Proof.
  unfold first_token. destruct (drop_while isspace h) as [|x s] eqn:E; [simpl; congruence|].
  intros _. rewrite (drop_while_app_cons _ _ _ _ _ E).
  change (x :: s ++ [nl]) with ((x :: s) ++ [nl]).
  now rewrite take_while_app_stop.
Qed.

Lemma sscanf_s31_n_token (s : cstr) :
  first_token s <> [] ->
  exists n, sscanf_s31_n s = Some (take 31 (first_token s), n).
Proof.
  unfold first_token, sscanf_s31_n.
  destruct (drop_while isspace s) as [|c s1]; [simpl; congruence|].
  intros _. eexists. reflexivity.
Qed.

Lemma magic_tag_header (E : env) (h : cstr) :
  header_line h = true -> magic_tag E (h ++ [nl]) = MAGIC.
Proof.
  unfold header_line. intros H. apply andb_true_iff in H as [Ht Hm].
  apply str_eqb_eq in Hm. unfold magic_tag. rewrite c_str_text_line by assumption.
  assert (Hne : first_token h <> []) by (rewrite Hm; discriminate).
  destruct (sscanf_s31_n_token (h ++ [nl])) as [n ->].
  - now rewrite first_token_newline.
  - cbn [fst]. rewrite first_token_newline, Hm by assumption. reflexivity.
Qed.

Lemma fgets_file_of (h : cstr) (ls : list cstr) :
  header_line h = true ->
  fgets 64 (file_of h ls)
  = Some (h ++ [nl], concat (map (fun l => l ++ [nl]) ls)).
Proof.
  unfold header_line. intros H. apply andb_true_iff in H as [Ht _].
  unfold file_of. now apply fgets_text_line.
Qed.

Lemma counted_sample_line (l : cstr) :
  sample_line l = true -> counted (l ++ [nl]) = true.
Proof.
  unfold sample_line, counted. intros H. apply andb_true_iff in H as [Ht Hs].
  rewrite c_str_text_line by assumption.
  destruct (scan_f l) as [v|] eqn:E; [|discriminate].
  now rewrite (scan_f_app l nl [] v inert_nl E).
Qed.

Lemma strtof_sample_line (l : cstr) :
  sample_line l = true -> strtof (c_str (l ++ [nl])) = strtof l.
Proof.
  unfold sample_line. intros H. apply andb_true_iff in H as [Ht Hs].
  rewrite c_str_text_line by assumption. apply strtof_app; [reflexivity|].
  destruct (scan_f l) as [v|] eqn:E; [|discriminate]. eapply scan_f_found, E.
Qed.

Lemma sample_line_text (l : cstr) : sample_line l = true -> text_line l = true.
Proof. unfold sample_line. intros H. now apply andb_true_iff in H as [Ht _]. Qed.

Lemma take_while_map_all {A B} (p : B -> bool) (f : A -> B) (l : list A) :
  Forall (fun x => p (f x) = true) l -> take_while p (map f l) = map f l.
Proof.
  induction 1 as [|x l Hx Hl IH]; simpl; [reflexivity|]. now rewrite Hx, IH.
Qed.

(** The counted lines of a file of sample lines are all its lines. *)
Lemma data_lines_file_of (h : cstr) (ls : list cstr) :
  header_line h = true ->
  Forall (fun l => sample_line l = true) ls ->
  data_lines (file_of h ls) = map (fun l => l ++ [nl]) ls.
Proof.
  intros Hh Hls. unfold data_lines. rewrite fgets_file_of by assumption.
  pose proof (lines_text (S (length (concat (map (fun l => l ++ [nl]) ls)))) ls []) as H.
  rewrite !app_nil_r in H. rewrite H.
  - apply take_while_map_all.
    eapply Forall_impl; [eassumption|]. apply counted_sample_line.
  - eapply Forall_impl; [eassumption|]. apply sample_line_text.
  - lia.
Qed.

Lemma samples_file_of (h : cstr) (ls : list cstr) :
  header_line h = true ->
  Forall (fun l => sample_line l = true) ls ->
  samples (file_of h ls) = map strtof ls.
Proof.
  intros Hh Hls. unfold samples. rewrite data_lines_file_of by assumption.
  rewrite map_map. induction Hls as [|l ls Hl Hls IH]; simpl; [reflexivity|].
  now rewrite strtof_sample_line, IH.
Qed.

(** [read_undgraph] on a file made of a header line and sample lines. *)
Lemma read_undgraph_file_of (E : env) (name h : cstr) (ls : list cstr)
    (g0 : graphdata_s) :
  fopen E name = Some (file_of h ls) ->
  header_line h = true ->
  Forall (fun l => sample_line l = true) ls ->
  malloc E (4 * length ls) = true ->
  exists g1, parsed (read_undgraph E name g0) (loaded g1 (map strtof ls)).
Proof.
  intros Ho Hh Hls Hm.
  rewrite (read_undgraph_open E name _ _ _ g0 Ho (fgets_file_of h ls Hh)).
  rewrite magic_tag_header by assumption.
  replace (str_eqb MAGIC MAGIC) with true by (symmetry; now apply str_eqb_eq).
  destruct (header_of (h ++ [nl]) g0) as [[g1 log]|] eqn:Eh;
    [|now apply header_of_total in Eh].
  rewrite samples_file_of by assumption. rewrite length_map, Hm.
  exists g1. eexists. reflexivity.
Qed.

Lemma bounds_values (g : graphdata_s) :
  bounds_inv g ->
  forall s, In s (values g) -> F32.isnan s = false ->
    F32.leb (min_value g) s = true /\ F32.leb s (max_value g) = true.
Proof.
  intros (_ & _ & _ & H) s Hs. apply H. unfold values in Hs.
  apply list_elem_of_In, list_elem_of_omap in Hs as (o & Ho & Hs).
  simpl in Hs. subst o. now apply list_elem_of_In.
Qed.

(** *** The samples and their bounds *)

Lemma ltb_leb_ltb (a b c : float) :
  F32.ltb a b = true -> F32.leb b c = true -> F32.ltb a c = true.
Proof.
  rewrite leb_lex, !ltb_lex. unfold lex_lt. intros (? & ? & ?) (? & ? & ?).
  repeat split; auto. lia.
Qed.

(** C1 (as amended): for a file made of a header line whose first token is
    the magic word and of [count] sample lines, every line of at most 62
    characters (so that it fits the 64-byte buffer with its newline) and
    without a NUL, [read_undgraph] returns 1 with [size] equal to [count],
    the buffer holds exactly [count] values (the value [strtof] gives each
    line), and every value that is not a NaN lies between [min_value] and
    [max_value]. *)
Theorem parse_length_and_bounds (E : env) (name h : cstr) (ls : list cstr)
    (g0 : graphdata_s) :
  fopen E name = Some (file_of h ls) ->
  header_line h = true ->
  Forall (fun l => sample_line l = true) ls ->
  malloc E (4 * length ls) = true ->
  exists g, parsed (read_undgraph E name g0) g /\
    size g = length ls /\
    data g = map (fun l => Some (strtof l)) ls /\
    length (values g) = length ls /\
    forall s, In s (values g) -> F32.isnan s = false ->
      F32.leb (min_value g) s = true /\ F32.leb s (max_value g) = true.
Proof.
  intros Ho Hh Hls Hm.
  destruct (read_undgraph_file_of E name h ls g0 Ho Hh Hls Hm) as [g1 Hp].
  exists (loaded g1 (map strtof ls)). split; [exact Hp|].
  rewrite size_loaded, data_loaded, values_loaded, !length_map, map_map.
  repeat split; try reflexivity.
  all: eapply (bounds_values (loaded g1 (map strtof ls))); eauto using bounds_loaded.
  all: now rewrite values_loaded.
Qed.

Lemma parse_length_and_bounds_witness :
  exists g,
    parsed (read_undgraph (env_of (file_of MAGIC three_lines)) [] graphdata) g /\
    size g = length three_lines /\
    data g = map (fun l => Some (strtof l)) three_lines /\
    length (values g) = length three_lines /\
    forall s, In s (values g) -> F32.isnan s = false ->
      F32.leb (min_value g) s = true /\ F32.leb s (max_value g) = true.
Proof.
  apply (parse_length_and_bounds (env_of (file_of MAGIC three_lines)) []
           MAGIC three_lines graphdata).
  - reflexivity.
  - vm_compute. reflexivity.
  - repeat constructor.
  - reflexivity.
Defined.

(** C1 (as stated) fails: the line "nan" is a sample line, its value is
    stored, and no comparison with a NaN holds. *)
Lemma nan_sample_outside_bounds :
  header_line MAGIC = true /\ sample_line (txt "nan") = true /\
  exists g,
    parsed (read_undgraph (env_of (file_of MAGIC [txt "nan"])) [] graphdata) g /\
    values g = [S754_nan] /\
    ~ (forall s, In s (values g) ->
         F32.leb (min_value g) s = true /\ F32.leb s (max_value g) = true).
Proof.
  split; [vm_compute; reflexivity|]. split; [vm_compute; reflexivity|].
  eexists. split; [eexists; vm_compute; reflexivity|].
  split; [reflexivity|].
  intros H. destruct (H S754_nan (or_introl eq_refl)) as [H1 _]. discriminate H1.
Qed.

(** Whatever the file, a structure returned with 1 has as many values as
    [size] says, all written, and its bounds hold for every value that is
    not a NaN. *)
Lemma parsed_invariant (E : env) (name : cstr) (g0 g : graphdata_s) :
  parsed (read_undgraph E name g0) g ->
  data g = map Some (values g) /\ length (values g) = size g /\ bounds_inv g.
Proof.
  intros H. apply parsed_loaded in H as (file & g1 & _ & ->).
  rewrite values_loaded, data_loaded, size_loaded. auto using bounds_loaded.
Qed.

(** C3: the code does not compute the maximum when every sample lies
    below FLT_MIN: on the lines -1 and -2 [max_value] keeps its initial
    value, which is no sample. *)
Theorem max_value_of_negative_samples :
  exists g,
    parsed (read_undgraph (env_of (text ["undgraph"; "-1"; "-2"]%string)) []
              graphdata) g /\
    values g = [S754_finite true 8388608 (-23); S754_finite true 8388608 (-22)] /\
    max_value g = F32.FLT_MIN /\
    ~ In (max_value g) (values g).
Proof.
  eexists. split; [eexists; vm_compute; reflexivity|].
  split; [reflexivity|]. split; [reflexivity|].
  cbn. intros [H|[H|[]]]; discriminate H.
Qed.

(** C7: after [read_undgraph] returned 1 with [size > 0], [tick_size] is
    [fabsf(max_value - min_value) / (float)size], computed in binary32
    from the final fields. *)
Theorem tick_size_formula (E : env) (name : cstr) (g0 g : graphdata_s) :
  parsed (read_undgraph E name g0) g ->
  0 < size g ->
  tick_size g
  = F32.div (F32.abs (F32.sub (max_value g) (min_value g)))
            (F32.of_Z (Z.of_nat (size g))).
Proof.
  intros H _. apply parsed_loaded in H as (file & g1 & _ & ->).
  apply tick_size_loaded.
Qed.

Lemma tick_size_formula_witness :
  tick_size three_parsed
  = F32.div (F32.abs (F32.sub (max_value three_parsed) (min_value three_parsed)))
            (F32.of_Z (Z.of_nat (size three_parsed))).
Proof.
  apply (tick_size_formula (env_of (file_of MAGIC three_lines)) [] graphdata).
  - eexists. vm_compute. reflexivity.
  - vm_compute. lia.
Defined.

(** C9: whatever the samples, [max_value] of a structure returned with 1
    is at least FLT_MIN, hence greater than zero and not a zero: the
    divisor of the mesh loop is never zero. *)
Theorem max_value_positive (E : env) (name : cstr) (g0 g : graphdata_s) :
  parsed (read_undgraph E name g0) g ->
  F32.leb F32.FLT_MIN (max_value g) = true /\
  F32.ltb F32.zero (max_value g) = true /\
  forall s, max_value g <> S754_zero s.
Proof.
  intros H. apply parsed_invariant in H as (_ & _ & _ & _ & Hlow & _).
  assert (Hpos : F32.ltb F32.zero (max_value g) = true)
    by (apply (ltb_leb_ltb F32.zero F32.FLT_MIN); [reflexivity | exact Hlow]).
  repeat split; auto. intros s Hs. rewrite Hs in Hpos. destruct s; discriminate.
Qed.

Lemma max_value_positive_witness :
  F32.leb F32.FLT_MIN (max_value three_parsed) = true /\
  F32.ltb F32.zero (max_value three_parsed) = true /\
  forall s, max_value three_parsed <> S754_zero s.
Proof.
  apply (max_value_positive (env_of (file_of MAGIC three_lines)) [] graphdata).
  eexists. vm_compute. reflexivity.
Defined.

(** *** The magic word *)

Lemma take_31_magic (t : cstr) : take 31 t = MAGIC <-> t = MAGIC.
Proof.
  split; [|intros ->; reflexivity].
  intros H. destruct (Nat.le_gt_cases (length t) 31) as [Hl|Hl].
  - now rewrite take_ge in H by lia.
  - apply (f_equal length) in H. rewrite length_take in H.
    change (length MAGIC) with 8 in H. lia.
Qed.

Lemma fgets_nonempty (c : ascii) (t : cstr) :
  fgets 64 (c :: t) = Some (fgets_chars 63 (c :: t)).
Proof. reflexivity. Qed.

(** C4 (as amended): when the part of the first line that the 64-byte
    buffer holds contains a token, [read_undgraph] fails with the message
    about the header, returning 0, if and only if that token is not the
    magic word; a file that starts with "notundgraph" fails so. *)
Theorem format_error_iff (E : env) (name file : cstr) (g0 : graphdata_s) :
  fopen E name = Some file ->
  first_token (header_buffer file) <> [] ->
  (format_error (read_undgraph E name g0) <->
   first_token (header_buffer file) <> MAGIC) /\
  format_error
    (read_undgraph (env_of (text ["notundgraph"; "1.0"; "2.0"]%string)) []
       graphdata).
Proof.
  intros Ho Htok. split; [|eexists; vm_compute; reflexivity].
  destruct file as [|c t]; [exfalso; apply Htok; reflexivity|].
  pose proof (fgets_nonempty c t) as Hg. unfold header_buffer in *.
  destruct (fgets_chars 63 (c :: t)) as [line fp]. cbn [fst] in *.
  rewrite (read_undgraph_open E name _ line fp g0 Ho Hg).
  unfold magic_tag. destruct (sscanf_s31_n_token _ Htok) as [n ->]. cbn [fst].
  destruct (str_eqb _ MAGIC) eqn:Em.
  - apply (proj1 (str_eqb_eq _ _)) in Em. apply (proj1 (take_31_magic _)) in Em.
    split; [|congruence].
    intros [g H]. exfalso.
    destruct (header_of line g0) as [[g1 l1]|]; [|discriminate].
    destruct (malloc E _); discriminate.
  - split; [|intros _; eexists; reflexivity].
    intros _ H. apply (proj2 (take_31_magic _)) in H.
    apply (proj2 (str_eqb_eq _ _)) in H. congruence.
Qed.

Lemma format_error_iff_witness :
  (format_error
     (read_undgraph (env_of (text ["undgraph"; "1.0"]%string)) [] graphdata) <->
   first_token (header_buffer (text ["undgraph"; "1.0"]%string)) <> MAGIC) /\
  format_error
    (read_undgraph (env_of (text ["notundgraph"; "1.0"; "2.0"]%string)) []
       graphdata).
Proof.
  apply (format_error_iff (env_of (text ["undgraph"; "1.0"]%string)) []
           (text ["undgraph"; "1.0"]%string) graphdata).
  - reflexivity.
  - vm_compute. discriminate.
Defined.

(** C4 (as stated) fails: the first token of the first line is the magic
    word, but the buffer ends inside it. *)
Lemma magic_word_cut_by_buffer :
  first_token (first_line indented_file) = MAGIC /\
  format_error (read_undgraph (env_of indented_file) [] graphdata).
Proof. split; [reflexivity|]. eexists. vm_compute. reflexivity. Qed.

(** *** A header without data *)

Lemma size_force_flags (args : list cstr) (g : graphdata_s) :
  size (force_flags args g) = size g /\
  data (force_flags args g) = data g /\
  frame_px (force_flags args g) = frame_px g /\
  max_value (force_flags args g) = max_value g.
Proof.
  revert g. induction args as [|a args IH]; intros g; cbn [force_flags]; [auto|].
  destruct (str_eqb a (txt "forcemsaa")); [apply (IH (set_msaa g 1))|].
  destruct (str_eqb a (txt "forcesave")); [apply (IH (set_save g 1))|apply IH].
Qed.

Lemma read_undgraph_ret (E : env) (name : cstr) (g0 g : graphdata_s) (r : Z)
    (log : list event) :
  read_undgraph E name g0 = Ret (r, g) log ->
  r = 0%Z \/ (r = 1%Z /\ parsed (read_undgraph E name g0) g).
Proof.
  intros H. assert (Hp : r = 1%Z -> parsed (read_undgraph E name g0) g)
    by (intros ->; eexists; eassumption).
  destruct (fopen E name) as [file|] eqn:Ho.
  - destruct (fgets 64 file) as [[line fp]|] eqn:Hg.
    + rewrite (read_undgraph_open E name file line fp g0 Ho Hg) in H.
      destruct (str_eqb _ _); [|injection H as <- _ _; auto].
      destruct (header_of line g0) as [[g1 l1]|]; [|discriminate].
      destruct (malloc E _); [|discriminate].
      injection H as <- _ _. auto.
    + unfold read_undgraph in H. rewrite Ho, Hg in H. discriminate.
  - unfold read_undgraph in H. rewrite Ho in H. injection H as <- _ _. auto.
Qed.



(** *** Header tokens *)

Ltac eval_key_tests :=
  repeat match goal with
  | |- context [str_eqb (txt ?a) (txt ?b)] =>
      let v := eval vm_compute in (str_eqb (txt a) (txt b)) in
      change (str_eqb (txt a) (txt b)) with v
  | H : context [str_eqb (txt ?a) (txt ?b)] |- _ =>
      let v := eval vm_compute in (str_eqb (txt a) (txt b)) in
      change (str_eqb (txt a) (txt b)) with v in H
  end; cbn [orb] in *.

Lemma starts_with_cons (x : ascii) (k : cstr) (c : ascii) (t : cstr) :
  starts_with (x :: k) (c :: t) = Ascii.eqb x c && starts_with k t.
Proof. unfold starts_with. simpl. destruct (Ascii.eqb x c); reflexivity. Qed.

Lemma starts_with_other (k1 k2 tag : cstr) :
  match k1, k2 with
  | x :: _, y :: _ => Ascii.eqb x y
  | _, _ => true
  end = false ->
  starts_with k1 tag = true -> starts_with k2 tag = false.
Proof.
  destruct k1 as [|x k1], k2 as [|y k2]; try discriminate. intros Hxy.
  destruct tag as [|c t]; [discriminate|].
  rewrite !starts_with_cons. intros H. apply andb_true_iff in H as [H _].
  apply Ascii.eqb_eq in H. subst c. now rewrite Ascii.eqb_sym, Hxy.
Qed.

Lemma header_tag_unknown (tag : cstr) (g : graphdata_s) :
  (forall key, In key KEYS -> starts_with key tag = false) ->
  header_tag tag g = (g, [msg_unknown_tag tag]).
Proof.
  intros H. unfold header_tag.
  rewrite (H (txt "msaa")), (H (txt "save")), (H (txt "lw")),
    (H (txt "frame_px")) by (simpl; tauto).
  reflexivity.
Qed.

Lemma header_tag_known (key tag : cstr) (g : graphdata_s) :
  In key KEYS -> starts_with key tag = true ->
  header_tag tag g =
    (if str_eqb key (txt "msaa") then
       match sscanf_key_d key tag with Some v => set_msaa g v | None => g end
     else if str_eqb key (txt "save") then
       match sscanf_key_d key tag with Some v => set_save g v | None => g end
     else if str_eqb key (txt "lw") then
       match sscanf_key_f key tag with
       | Some v => set_line_width g v | None => g end
     else
       match sscanf_key_f key tag with
       | Some v => set_frame_px g v | None => g end, []).
Proof.
  intros Hk Hs. unfold header_tag.
  destruct Hk as [<-|[<-|[<-|[<-|[]]]]]; eval_key_tests.
  - now rewrite Hs.
  - rewrite (starts_with_other (txt "save") (txt "msaa") _ eq_refl Hs), Hs.
    reflexivity.
  - rewrite (starts_with_other (txt "lw") (txt "msaa") _ eq_refl Hs),
      (starts_with_other (txt "lw") (txt "save") _ eq_refl Hs), Hs. reflexivity.
  - rewrite (starts_with_other (txt "frame_px") (txt "msaa") _ eq_refl Hs),
      (starts_with_other (txt "frame_px") (txt "save") _ eq_refl Hs),
      (starts_with_other (txt "frame_px") (txt "lw") _ eq_refl Hs), Hs.
    reflexivity.
Qed.


(** *** The mesh *)

Lemma SFmul_comm (x y : float) : F32.mul x y = F32.mul y x.
Proof.
  unfold F32.mul, SFmul.
  destruct x as [sx|sx| |sx mx ex], y as [sy|sy| |sy my ey];
    try reflexivity; try (now rewrite (xorb_comm sx sy)).
  now rewrite (xorb_comm sx sy), (Pos.mul_comm mx my), (Z.add_comm ex ey).
Qed.

Lemma mesh_x_spec (g : graphdata_s) (i : nat) :
  mesh_x g i = spec_x (frame_px g) (size g) i.
Proof.
  unfold mesh_x, spec_x, WIDTH.
  now rewrite (SFmul_comm (frame_px g) (F32.of_Z 2)).
Qed.

Lemma mesh_y_spec (g : graphdata_s) (v : float) :
  mesh_y g v = spec_y (frame_px g) (max_value g) v.
Proof.
  unfold mesh_y, spec_y, HEIGHT.
  now rewrite (SFmul_comm (frame_px g) (F32.of_Z 2)).
Qed.

Lemma lookup_map {A B} (f : A -> B) (l : list A) (i : nat) :
  map f l !! i = option_map f (l !! i).
Proof.
  revert i. induction l as [|x l IH]; intros [|i]; simpl; try reflexivity.
  apply IH.
Qed.

Lemma mesh_loop_spec (g : graphdata_s) (vs : list float) :
  data g = map Some vs -> length vs = size g ->
  forall fuel i mesh log,
    size g - i < fuel -> i <= size g -> length mesh = size g ->
    (forall j v, j < i -> vs !! j = Some v ->
       mesh !! j = Some (Some (vertex g j v))) ->
    exists mesh' log',
      mesh_loop fuel g i mesh log = Ret mesh' log' /\
      length mesh' = size g /\
      forall j v, vs !! j = Some v -> mesh' !! j = Some (Some (vertex g j v)).
Proof.
  intros Hd Hl. induction fuel as [|fuel IH]; intros i mesh log Hf Hi Hm Hdone;
    [lia|].
  cbn [mesh_loop]. destruct (Nat.ltb_spec i (size g)) as [Hlt|Hge].
  - destruct (lookup_lt_is_Some_2 vs i) as [v Hv]; [lia|].
    rewrite Hd, lookup_map, Hv. cbn [option_map].
    apply IH; [lia|lia|now rewrite length_insert|].
    intros j w Hj Hw. destruct (Nat.eq_dec j i) as [->|Hne].
    + rewrite list_lookup_insert_eq by lia. unfold vertex.
      rewrite Hv in Hw. injection Hw as ->. reflexivity.
    + rewrite list_lookup_insert_ne by congruence. apply Hdone; [lia|assumption].
  - exists mesh, log. repeat split; auto.
    intros j v Hv. apply Hdone; [|assumption].
    apply lookup_lt_Some in Hv. lia.
Qed.

Lemma main_mesh (E : env) (argv : list cstr) (mesh : list (option vec2_t))
    (log : list event) :
  main E argv = Ret (inr mesh) log ->
  exists g log3,
    parsed (read_undgraph E (main_filename argv) graphdata) g /\
    build_mesh E (force_flags (drop 2 argv) g) = Ret mesh log3.
Proof.
  unfold main.
  replace (match argv with _ :: f :: _ => (f, [msg_reading f])
           | _ => (txt "undgraph.txt", [msg_default_file]) end)
    with (main_filename argv,
          match argv with _ :: f :: _ => [msg_reading f]
          | _ => [msg_default_file] end)
    by (destruct argv as [|? [|? ?]]; reflexivity).
  destruct (read_undgraph E (main_filename argv) graphdata) as [[r g] log1| |] eqn:Er;
    try discriminate.
  destruct (read_undgraph_ret _ _ _ _ _ _ Er) as [->|[-> Hp]]; [discriminate|].
  cbn [Z.eqb]. destruct (renderer_ready E); [|discriminate].
  destruct (build_mesh E _) as [m log3| |] eqn:Eb; try discriminate.
  intros H. injection H as Hm _. subst m. exists g, log3. split; [eexists; reflexivity|assumption].
Qed.

(** C2: the mesh [main] hands to the renderer has one vertex per sample,
    and vertex [i] is (framePadding + i * (1152 - 2 * framePadding) / count,
    framePadding + value[i] / maxValue * (648 - 2 * framePadding)), every
    operation rounded to binary32. *)
Theorem mesh_vertex_formula (E : env) (argv : list cstr)
    (mesh : list (option vec2_t)) (log : list event) :
  main E argv = Ret (inr mesh) log ->
  exists g,
    parsed (read_undgraph E (main_filename argv) graphdata) g /\
    length mesh = size g /\
    forall i, i < size g ->
      exists v, values g !! i = Some v /\
        mesh !! i = Some (Some (spec_x (frame_px g) (size g) i,
                                spec_y (frame_px g) (max_value g) v)).
Proof.
  intros H. apply main_mesh in H as (g & log3 & Hp & Hb).
  exists g. split; [exact Hp|].
  destruct (parsed_invariant _ _ _ _ Hp) as (Hd & Hl & _).
  set (g' := force_flags (drop 2 argv) g) in *.
  destruct (size_force_flags (drop 2 argv) g) as (Hs & Hdat & Hfp & Hmax).
  fold g' in Hs, Hdat, Hfp, Hmax.
  unfold build_mesh in Hb. destruct (malloc E _); [|discriminate].
  assert (Hd' : data g' = map Some (values g)) by (now rewrite Hdat).
  assert (Hl' : length (values g) = size g') by (now rewrite Hs).
  destruct (mesh_loop_spec g' (values g) Hd' Hl' (S (size g')) 0
              (replicate (size g') None) [])
    as (mesh' & log' & Hrun & Hlen & Hall).
  { lia. }
  { lia. }
  { apply length_replicate. }
  { intros j v Hj. lia. }
  rewrite Hrun in Hb. injection Hb as Hmesh _. subst mesh'.
  split; [congruence|]. intros i Hi.
  destruct (lookup_lt_is_Some_2 (values g) i) as [v Hv]; [lia|].
  exists v. split; [exact Hv|]. etransitivity; [exact (Hall i v Hv)|].
  unfold vertex. rewrite mesh_x_spec, mesh_y_spec, Hs, Hfp, Hmax. reflexivity.
Qed.

Lemma mesh_vertex_formula_witness :
  exists g,
    parsed (read_undgraph (env_of (file_of MAGIC three_lines))
              (main_filename [txt "undgraph"; txt "three.txt"]) graphdata) g /\
    length [Some (S754_zero false, S754_finite false 14155776 (-16));
            Some (S754_finite false 12582912 (-15),
                  S754_finite false 14155776 (-15));
            Some (S754_finite false 12582912 (-14),
                  S754_finite false 10616832 (-14))] = size g /\
    forall i, i < size g ->
      exists v, values g !! i = Some v /\
        [Some (S754_zero false, S754_finite false 14155776 (-16));
         Some (S754_finite false 12582912 (-15),
               S754_finite false 14155776 (-15));
         Some (S754_finite false 12582912 (-14),
               S754_finite false 10616832 (-14))] !! i
        = Some (Some (spec_x (frame_px g) (size g) i,
                      spec_y (frame_px g) (max_value g) v)).
Proof.
  eapply (mesh_vertex_formula (env_of (file_of MAGIC three_lines))
            [txt "undgraph"; txt "three.txt"]).
  vm_compute. reflexivity.
Defined.

(** *** A line that is not a number *)

Lemma scan_float_body_none_app (neg : bool) (s : cstr) (c : ascii) (t : cstr) :
  inert c = true ->
  scan_float_body neg s = None -> scan_float_body neg (s ++ c :: t) = None.
Proof.
  intros Hc. unfold scan_float_body.
  destruct (strip_prefix_ci (txt "inf") s) as [r1|] eqn:E1.
  { destruct (strip_prefix_ci (txt "inity") r1); discriminate. }
  rewrite strip_prefix_ci_stop by (assumption || reflexivity).
  destruct (strip_prefix_ci (txt "nan") s) as [r1|] eqn:E2.
  { destruct r1 as [|c0 r1]; [discriminate|].
    destruct (Ascii.eqb c0 "("); [|discriminate].
    destruct (drop_while isnchar r1) as [|d r2]; [discriminate|].
    destruct (Ascii.eqb d ")"); discriminate. }
  rewrite strip_prefix_ci_stop by (assumption || reflexivity).
  rewrite scan_hex_app by assumption.
  destruct (scan_hex neg s); [discriminate|]. cbn [option_map].
  intros E3. now apply scan_decimal_none.
Qed.

Lemma drop_while_nil_app {A} (p : A -> bool) (l : list A) (c : A) :
  drop_while p l = [] -> p c = true -> drop_while p (l ++ [c]) = [].
Proof.
  intros H Hc. induction l as [|x l IH]; simpl in *; [now rewrite Hc|].
  destruct (p x); [auto|discriminate].
Qed.

Lemma scan_float_none_nl (s : cstr) :
  scan_float s = None -> scan_float (s ++ [nl]) = None.
Proof.
  unfold scan_float. destruct (drop_while isspace s) as [|x s1] eqn:E.
  - intros _. now rewrite drop_while_nil_app.
  - rewrite (drop_while_app_cons _ _ _ _ _ E).
    change (x :: s1 ++ [nl]) with ((x :: s1) ++ [nl]).
    rewrite scan_sign_app by discriminate.
    destruct (scan_sign (x :: s1)) as [neg s2]. cbn [fst snd].
    now apply scan_float_body_none_app.
Qed.

Lemma scan_f_none_nl (s : cstr) : scan_f s = None -> scan_f (s ++ [nl]) = None.
Proof.
  unfold scan_f. destruct (drop_while isspace s) as [|x s1] eqn:E.
  - intros _. now rewrite drop_while_nil_app.
  - rewrite (drop_while_app_cons _ _ _ _ _ E).
    change (x :: s1 ++ [nl]) with ((x :: s1) ++ [nl]).
    rewrite scan_sign_app by discriminate.
    destruct (scan_sign (x :: s1)) as [neg s2]. cbn [fst snd].
    now rewrite float_item_app.
Qed.

Lemma not_counted_line (l : cstr) :
  text_line l = true -> scan_f l = None -> counted (l ++ [nl]) = false.
Proof.
  intros Ht Hs. unfold counted. rewrite c_str_text_line by assumption.
  now rewrite scan_f_none_nl.
Qed.

(** The counted lines end before the first line [sscanf] does not
    accept. *)
Lemma data_lines_until (h : cstr) (good : list cstr) (bad rest : cstr) :
  header_line h = true ->
  Forall (fun l => sample_line l = true) good ->
  text_line bad = true -> scan_f bad = None ->
  data_lines (file_of h good ++ bad ++ nl :: rest)
  = map (fun l => l ++ [nl]) good.
Proof.
  intros Hh Hgood Hbt Hbs. unfold data_lines, file_of.
  rewrite <- app_assoc. cbn [app].
  assert (Ht : text_line h = true)
    by (unfold header_line in Hh; now apply andb_true_iff in Hh as [? _]).
  rewrite (fgets_text_line h _ Ht).
  rewrite lines_text; [| |lia].
  2: { eapply Forall_impl; [eassumption|]. apply sample_line_text. }
  cbn [lines]. rewrite (fgets_text_line bad rest Hbt).
  rewrite take_while_app_stop by (now apply not_counted_line).
  apply take_while_map_all.
  eapply Forall_impl; [eassumption|]. apply counted_sample_line.
Qed.

(** The reading loop on a line in which [strtof] finds no number: it
    stores zero and goes on to the next line. *)
Lemma read_values_no_number (fuel : nat) (l rest : cstr) (i : nat)
    (g : graphdata_s) :
  text_line l = true -> scan_float l = None -> i < size g ->
  read_values (S fuel) (l ++ nl :: rest) i g
  = read_values fuel rest (S i) (store_sample g i F32.zero).
Proof.
  intros Ht Hs Hi. cbn [read_values]. rewrite (fgets_text_line l rest Ht).
  apply Nat.ltb_lt in Hi. rewrite Hi, c_str_text_line by assumption.
  unfold strtof. now rewrite scan_float_none_nl.
Qed.

(** C6 (as amended): the reading loop stores one value for each line the
    counting loop counted and no other; a line from which [sscanf] reads no
    number ends the series, so that neither it nor any later line gives a
    value. On a counted line, text that follows the number and starts with
    a character that belongs to no number is ignored. The reading loop by
    itself would store zero for a line without a number and go on, but no
    such line is among those it reads. *)
Theorem unparsable_line_ends_series (E : env) (name h : cstr)
    (good : list cstr) (bad rest : cstr) (g0 : graphdata_s) :
  fopen E name = Some (file_of h good ++ bad ++ nl :: rest) ->
  header_line h = true ->
  Forall (fun l => sample_line l = true) good ->
  text_line bad = true -> scan_f bad = None ->
  malloc E (4 * length good) = true ->
  (exists g, parsed (read_undgraph E name g0) g /\
     values g = map strtof good) /\
  (forall l c t v, scan_f l = Some v -> inert c = true ->
     scan_f (l ++ c :: t) = Some v /\ strtof (l ++ c :: t) = v) /\
  (forall fuel l rest' i g, text_line l = true -> scan_float l = None ->
     i < size g ->
     read_values (S fuel) (l ++ nl :: rest') i g
     = read_values fuel rest' (S i) (store_sample g i F32.zero)).
Proof.
  intros Ho Hh Hgood Hbt Hbs Hm. split; [|split].
  - assert (Hs : samples (file_of h good ++ bad ++ nl :: rest) = map strtof good).
    { unfold samples. rewrite data_lines_until by assumption. rewrite map_map.
      clear -Hgood. induction Hgood as [|l ls Hl Hls IH]; simpl; [reflexivity|].
      now rewrite strtof_sample_line, IH. }
    assert (Ht : text_line h = true)
      by (unfold header_line in Hh; now apply andb_true_iff in Hh as [? _]).
    assert (Hg : fgets 64 (file_of h good ++ bad ++ nl :: rest)
                 = Some (h ++ [nl], concat (map (fun l => l ++ [nl]) good)
                                     ++ bad ++ nl :: rest)).
    { unfold file_of. rewrite <- app_assoc. cbn [app].
      now apply fgets_text_line. }
    rewrite (read_undgraph_open E name _ _ _ g0 Ho Hg).
    rewrite magic_tag_header by assumption.
    replace (str_eqb MAGIC MAGIC) with true by (symmetry; now apply str_eqb_eq).
    destruct (header_of (h ++ [nl]) g0) as [[g1 log]|] eqn:Eh;
      [|now apply header_of_total in Eh].
    rewrite Hs, length_map, Hm.
    exists (loaded g1 (map strtof good)). split; [eexists; reflexivity|].
    apply values_loaded.
  - intros l c t v Hl Hc. split; [now apply scan_f_app|].
    rewrite strtof_app; [now apply scan_f_strtof|assumption|].
    eapply scan_f_found, Hl.
  - intros fuel l rest' i g. apply read_values_no_number.
Qed.

Lemma unparsable_line_ends_series_witness :
  (exists g,
     parsed (read_undgraph
               (env_of (file_of MAGIC [txt "1"; txt "2.5 rest"]
                        ++ txt "abc" ++ nl :: text ["2"]%string))
               [] graphdata) g /\
     values g = map strtof [txt "1"; txt "2.5 rest"]) /\
  (forall l c t v, scan_f l = Some v -> inert c = true ->
     scan_f (l ++ c :: t) = Some v /\ strtof (l ++ c :: t) = v) /\
  (forall fuel l rest' i g, text_line l = true -> scan_float l = None ->
     i < size g ->
     read_values (S fuel) (l ++ nl :: rest') i g
     = read_values fuel rest' (S i) (store_sample g i F32.zero)).
Proof.
  apply (unparsable_line_ends_series
           (env_of (file_of MAGIC [txt "1"; txt "2.5 rest"]
                    ++ txt "abc" ++ nl :: text ["2"]%string))
           [] MAGIC [txt "1"; txt "2.5 rest"] (txt "abc")
           (text ["2"]%string) graphdata).
  - reflexivity.
  - vm_compute. reflexivity.
  - repeat constructor.
  - reflexivity.
  - reflexivity.
  - reflexivity.
Defined.

(** C6 (as stated) fails: the line "abc" after the line "1" gives no value
    0 at its position, and the line "2" after it is not read. *)
Lemma unparsable_line_not_stored :
  exists g,
    parsed (read_undgraph (env_of (text ["undgraph"; "1"; "abc"; "2"]%string))
              [] graphdata) g /\
    values g = [F32.one] /\
    values g !! 1 <> Some F32.zero /\
    values g !! 2 = None.
Proof.
  eexists. split; [eexists; vm_compute; reflexivity|].
  split; [reflexivity|]. split; [discriminate|reflexivity].
Qed.

(** *** Rounding: powers of two *)

Ltac inj_consts :=
  repeat match goal with
  | |- context [inject_Z (Zpos ?p)] =>
      change (inject_Z (Zpos p)) with (Zpos p # 1)%Q
  | |- context [inject_Z 0] => change (inject_Z 0) with 0%Q
  | H : context [inject_Z (Zpos ?p)] |- _ =>
      change (inject_Z (Zpos p)) with (Zpos p # 1)%Q in H
  | H : context [inject_Z 0] |- _ => change (inject_Z 0) with 0%Q in H
  end.

Ltac push_inj :=
  rewrite ?inject_Z_plus, ?inject_Z_mult, ?inject_Z_opp; inj_consts.

Ltac push_inj_in H :=
  rewrite ?inject_Z_plus, ?inject_Z_mult, ?inject_Z_opp in H; inj_consts.

Lemma pow2_pos (e : Z) : (0 < pow2 e)%Q.
Proof. apply Qpower_0_lt. reflexivity. Qed.

Lemma pow2_add (a b : Z) : (pow2 (a + b) == pow2 a * pow2 b)%Q.
Proof. apply Qpower_plus. discriminate. Qed.

Lemma pow2_Z (e : Z) : (0 <= e)%Z -> (pow2 e == inject_Z (2 ^ e))%Q.
Proof. intros H. unfold pow2. now rewrite Zpower_Qpower. Qed.

Lemma pow2_le (a b : Z) : (a <= b)%Z -> (pow2 a <= pow2 b)%Q.
Proof. intros H. apply Qpower_le_compat_l; [assumption|discriminate]. Qed.

Lemma pow2_lt (a b : Z) : (a < b)%Z -> (pow2 a < pow2 b)%Q.
Proof. intros H. apply Qpower_lt_compat_l; [assumption|reflexivity]. Qed.

Lemma pow2_0 : (pow2 0 == 1)%Q.
Proof. reflexivity. Qed.

Lemma pow2_opp (e : Z) : (pow2 e * pow2 (- e) == 1)%Q.
Proof. rewrite <- pow2_add, Z.add_opp_diag_r. reflexivity. Qed.

(** *** Rounding: positions *)

Lemma Qfloor_unique (y : Q) (n : Z) :
  (inject_Z n <= y)%Q -> (y < inject_Z n + 1)%Q -> Qfloor y = n.
Proof.
  intros H1 H2. pose proof (Qfloor_le y) as H3. pose proof (Qlt_floor y) as H4.
  rewrite inject_Z_plus in H4.
  assert (n < Qfloor y + 1)%Z by (rewrite Zlt_Qlt; push_inj; lra).
  assert (Qfloor y < n + 1)%Z by (rewrite Zlt_Qlt; push_inj; lra).
  lia.
Qed.

Lemma Qfloor_bounds (y : Q) :
  (inject_Z (Qfloor y) <= y)%Q /\ (y < inject_Z (Qfloor y) + 1)%Q.
Proof.
  split; [apply Qfloor_le|]. pose proof (Qlt_floor y) as H.
  now rewrite inject_Z_plus in H.
Qed.

Lemma Qeq_bool_comp_r (a b c : Q) : (b == c)%Q -> Qeq_bool a b = Qeq_bool a c.
Proof.
  intros H. destruct (Qeq_bool a b) eqn:E1; destruct (Qeq_bool a c) eqn:E2;
    try reflexivity.
  - apply Qeq_bool_iff in E1. apply Qeq_bool_neq in E2. exfalso. apply E2.
    now rewrite E1.
  - apply Qeq_bool_iff in E2. apply Qeq_bool_neq in E1. exfalso. apply E1.
    now rewrite E2.
Qed.

#[export] Instance position_comp : Proper (Qeq ==> eq) position.
Proof.
  intros x y H. unfold position.
  assert (H2 : (2 * x == 2 * y)%Q) by (rewrite H; reflexivity).
  now rewrite (Qfloor_comp _ _ H2), (Qeq_bool_comp_r _ _ _ H2).
Qed.

Lemma position_mono (y y' : Q) : (y <= y')%Q -> (position y <= position y')%Z.
Proof.
  intros H. unfold position.
  assert (Hf : (Qfloor (2 * y) <= Qfloor (2 * y'))%Z) by (apply Qfloor_resp_le; lra).
  destruct (Qeq_bool (inject_Z (Qfloor (2 * y))) (2 * y)) eqn:E1;
  destruct (Qeq_bool (inject_Z (Qfloor (2 * y'))) (2 * y')) eqn:E2; try lia.
  apply Qeq_bool_iff in E2. apply Qeq_bool_neq in E1.
  destruct (Z.eq_dec (Qfloor (2 * y)) (Qfloor (2 * y'))) as [Heq|]; [|lia].
  exfalso. apply E1. pose proof (Qfloor_le (2 * y)). rewrite Heq in *. lra.
Qed.

Lemma position_Z (m : Z) : position (inject_Z m) = (4 * m)%Z.
Proof.
  unfold position. change 2%Q with (inject_Z 2). rewrite <- inject_Z_mult.
  rewrite Qfloor_Z.
  replace (Qeq_bool (inject_Z (2 * m)) (inject_Z (2 * m))) with true; [lia|].
  symmetry. apply Qeq_bool_iff. reflexivity.
Qed.

Lemma position_floor (y : Q) : (position y / 4)%Z = Qfloor y.
Proof.
  unfold position. destruct (Qfloor_bounds (2 * y)) as [H1 H2].
  set (f := Qfloor (2 * y)) in *.
  assert (Hy : Qfloor y = (f / 2)%Z).
  { pose proof (Z.mod_pos_bound f 2). pose proof (Z.div_mod f 2).
    assert (Ha : (2 * (f / 2) <= f)%Z) by lia.
    assert (Hb : (f + 1 <= 2 * (f / 2) + 2)%Z) by lia.
    rewrite Zle_Qle in Ha, Hb. push_inj_in Ha. push_inj_in Hb.
    apply Qfloor_unique; lra. }
  rewrite Hy. clearbody f. destruct (Qeq_bool _ _); Z.div_mod_to_equations; lia.
Qed.

Lemma position_halve (y : Q) : position (y * (1 # 2)) = halve (position y).
Proof.
  unfold halve. rewrite position_floor.
  unfold position at 1.
  assert (H : (2 * (y * (1 # 2)) == y)%Q) by ring.
  rewrite (Qfloor_comp _ _ H), (Qeq_bool_comp_r _ _ _ H). clear H.
  f_equal. unfold position.
  destruct (Qfloor_bounds (2 * y)) as [H1 H2].
  destruct (Qfloor_bounds y) as [H3 H4].
  set (f := Qfloor (2 * y)) in *. set (n := Qfloor y) in *.
  assert (Hf : (f = 2 * n \/ f = 2 * n + 1)%Z).
  { assert (2 * n < f + 1)%Z by (rewrite Zlt_Qlt; push_inj; lra).
    assert (f < 2 * n + 2)%Z by (rewrite Zlt_Qlt; push_inj; lra).
    lia. }
  clearbody f n.
  destruct (Qeq_bool (inject_Z n) y) eqn:E1.
  - apply Qeq_bool_iff in E1.
    assert (Hn : (f = 2 * n)%Z).
    { destruct Hf as [Hf|Hf]; [assumption|]. exfalso.
      rewrite Hf in H1. push_inj_in H1. lra. }
    assert (E2 : Qeq_bool (inject_Z f) (2 * y) = true)
      by (apply Qeq_bool_iff; rewrite Hn; push_inj; lra).
    rewrite E2. destruct (Z.eqb_spec ((2 * f + 0) mod 4) 0); [reflexivity|].
    exfalso. Z.div_mod_to_equations. lia.
  - apply Qeq_bool_neq in E1.
    destruct (Qeq_bool (inject_Z f) (2 * y)) eqn:E2.
    + apply Qeq_bool_iff in E2.
      assert (Hn : (f = 2 * n + 1)%Z).
      { destruct Hf as [Hf|Hf]; [|assumption]. exfalso. apply E1.
        rewrite Hf in E2. push_inj_in E2. lra. }
      destruct (Z.eqb_spec ((2 * f + 0) mod 4) 0); [|reflexivity].
      exfalso. Z.div_mod_to_equations. lia.
    + destruct (Z.eqb_spec ((2 * f + 1) mod 4) 0); [|reflexivity].
      exfalso. Z.div_mod_to_equations. lia.
Qed.

(** *** Rounding: shifts *)


Lemma nearest_even_mono (t t' : Z) :
  (t <= t')%Z -> (nearest_even t <= nearest_even t')%Z.
Proof.
  intros H. unfold nearest_even.
  destruct (Z.eq_dec (t / 4) (t' / 4)) as [E|E].
  - rewrite E.
    destruct (Z.eqb_spec (t mod 4) 3); destruct (Z.eqb_spec (t' mod 4) 3);
    destruct (Z.eqb_spec (t mod 4) 2); destruct (Z.eqb_spec (t' mod 4) 2);
    destruct (Z.odd (t' / 4)); cbn [orb andb]; Z.div_mod_to_equations; lia.
  - assert (t / 4 + 1 <= t' / 4)%Z by (Z.div_mod_to_equations; lia).
    destruct ((t mod 4 =? 3)%Z || (t mod 4 =? 2)%Z && Z.odd (t / 4));
    destruct ((t' mod 4 =? 3)%Z || (t' mod 4 =? 2)%Z && Z.odd (t' / 4)); lia.
Qed.

Lemma nearest_even_exact (m : Z) : nearest_even (4 * m) = m.
Proof.
  unfold nearest_even. replace (4 * m)%Z with (m * 4)%Z by lia.
  rewrite Z.mod_mul, Z.div_mul by lia. cbn. lia.
Qed.

Lemma record_position_of_loc (m : Z) (l : location) :
  record_position (shr_record_of_loc m l) = (4 * m + location_code l)%Z.
Proof. destruct l as [|[]]; unfold record_position; cbn; lia. Qed.

Lemma shr_1_position (r : shr_record) :
  (0 <= shr_m r)%Z ->
  record_position (shr_1 r) = halve (record_position r) /\
  (0 <= shr_m (shr_1 r))%Z.
Proof.
  destruct r as [m r s]. cbn [shr_m]. intros Hm.
  destruct m as [|p|p]; [| |lia].
  - destruct r, s; cbn; auto.
  - unfold halve, record_position.
    destruct p as [p|p|]; destruct r, s; cbn [shr_1 shr_m shr_r shr_s orb];
      (split; [|lia]);
      match goal with
      | |- context [(?a mod 4 =? 0)%Z] => destruct (Z.eqb_spec (a mod 4) 0)
      end; Z.div_mod_to_equations; lia.
Qed.

Lemma iter_pos_shr_1 (p : positive) (r : shr_record) (y : Q) :
  (0 <= shr_m r)%Z -> record_position r = position y ->
  record_position (SpecFloat.iter_pos shr_1 p r)
  = position (y * pow2 (- Zpos p)) /\
  (0 <= shr_m (SpecFloat.iter_pos shr_1 p r))%Z.
Proof.
  revert r y. induction p as [p IH|p IH|]; intros r y Hm Hr;
    cbn [SpecFloat.iter_pos].
  - destruct (shr_1_position r Hm) as [H1 H1'].
    rewrite Hr, <- position_halve in H1.
    destruct (IH _ _ H1' H1) as [H2 H2']. destruct (IH _ _ H2' H2) as [H3 H3'].
    split; [|assumption]. rewrite H3. apply position_comp.
    replace (- Z.pos p~1)%Z with (-1 + (- Z.pos p + - Z.pos p))%Z by lia.
    rewrite !pow2_add. change (pow2 (-1)) with (1 # 2). ring.
  - destruct (IH _ _ Hm Hr) as [H2 H2']. destruct (IH _ _ H2' H2) as [H3 H3'].
    split; [|assumption]. rewrite H3. apply position_comp.
    replace (- Z.pos p~0)%Z with (- Z.pos p + - Z.pos p)%Z by lia.
    rewrite !pow2_add. ring.
  - destruct (shr_1_position r Hm) as [H1 H1'].
    rewrite Hr, <- position_halve in H1. split; [|assumption].
    rewrite H1. apply position_comp. reflexivity.
Qed.

(** A shift by [n] places moves the position of [y] to that of
    [y / 2 ^ n]. *)
Lemma shr_position (r : shr_record) (e n : Z) (y : Q) :
  (0 <= shr_m r)%Z -> record_position r = position y ->
  snd (shr r e n) = (e + Z.max 0 n)%Z /\
  record_position (fst (shr r e n)) = position (y * pow2 (- Z.max 0 n)) /\
  (0 <= shr_m (fst (shr r e n)))%Z.
Proof.
  intros Hm Hr. destruct n as [|p|p]; cbn [shr fst snd].
  - rewrite Z.add_0_r. repeat split; [|assumption]. rewrite Hr.
    apply position_comp. change (pow2 _) with 1%Q. ring.
  - destruct (iter_pos_shr_1 p r y Hm Hr) as [H1 H2].
    replace (Z.max 0 (Z.pos p)) with (Z.pos p) by lia. auto.
  - replace (Z.max 0 (Z.neg p)) with 0%Z by lia. rewrite Z.add_0_r.
    repeat split; [|assumption]. rewrite Hr. apply position_comp. change (pow2 _) with 1%Q. ring.
Qed.

Lemma round_nearest_even_position (r : shr_record) :
  (0 <= shr_m r)%Z ->
  round_nearest_even (shr_m r) (loc_of_shr_record r)
  = nearest_even (record_position r).
Proof.
  destruct r as [m r s]. cbn [shr_m]. intros Hm.
  unfold nearest_even, record_position. cbn [shr_m shr_r shr_s].
  assert (Hd : forall c, (0 <= c < 4)%Z -> ((4 * m + c) / 4 = m)%Z)
    by (intros; Z.div_mod_to_equations; lia).
  assert (Hr : forall c, (0 <= c < 4)%Z -> ((4 * m + c) mod 4 = c)%Z)
    by (intros; Z.div_mod_to_equations; lia).
  destruct r, s; cbn [loc_of_shr_record round_nearest_even].
  - replace (4 * m + 2 + 1)%Z with (4 * m + 3)%Z by lia.
    rewrite Hd, Hr by lia. reflexivity.
  - replace (4 * m + 2 + 0)%Z with (4 * m + 2)%Z by lia.
    rewrite Hd, Hr by lia. cbn [Z.eqb Pos.eqb orb andb].
    rewrite <- Z.negb_even. destruct (Z.even m); cbn; lia.
  - replace (4 * m + 0 + 1)%Z with (4 * m + 1)%Z by lia.
    rewrite Hd, Hr by lia. cbn. lia.
  - replace (4 * m + 0 + 0)%Z with (4 * m + 0)%Z by lia.
    rewrite Hd, Hr by lia. cbn. lia.
Qed.

(** *** Rounding: number of digits *)

Lemma digits2_pos_bounds (p : positive) :
  (2 ^ (Zpos (digits2_pos p) - 1) <= Zpos p < 2 ^ Zpos (digits2_pos p))%Z.
Proof.
  induction p as [p IH|p IH|]; cbn [digits2_pos]; [| |cbn; lia].
  all: rewrite Pos2Z.inj_succ; replace (Z.succ (Z.pos (digits2_pos p)) - 1)%Z
         with (Z.succ (Z.pos (digits2_pos p) - 1)) by lia;
       rewrite !Z.pow_succ_r by lia; lia.
Qed.

Lemma Zdigits2_bounds (m : Z) :
  (0 < m)%Z ->
  (0 < Zdigits2 m)%Z /\ (2 ^ (Zdigits2 m - 1) <= m < 2 ^ Zdigits2 m)%Z.
Proof.
  destruct m as [|p|p]; try lia. intros _. cbn [Zdigits2].
  split; [lia|apply digits2_pos_bounds].
Qed.

(** The number of digits is the only [d] with [2^(d-1) <= m < 2^d]. *)
Lemma Zdigits2_unique (m d : Z) :
  (0 < m)%Z -> (2 ^ (d - 1) <= m < 2 ^ d)%Z -> Zdigits2 m = d.
Proof.
  intros Hm Hd. destruct (Zdigits2_bounds m Hm) as [Hp Hb].
  assert (0 < d)%Z.
  { destruct (Z.le_gt_cases d 0) as [H|H]; [|assumption]. exfalso.
    assert (2 ^ d <= 2 ^ 0)%Z by (apply Z.pow_le_mono_r; lia). simpl in *. lia. }
  destruct (Z.lt_trichotomy (Zdigits2 m) d) as [H1|[H1|H1]]; [|assumption|].
  - assert (2 ^ Zdigits2 m <= 2 ^ (d - 1))%Z by (apply Z.pow_le_mono_r; lia). lia.
  - assert (2 ^ d <= 2 ^ (Zdigits2 m - 1))%Z by (apply Z.pow_le_mono_r; lia). lia.
Qed.

(** *** Rounding: scaling by powers of two *)

Lemma shift_lt (x : Q) (e k : Z) :
  (x * pow2 (- e) < pow2 k)%Q <-> (x < pow2 (e + k))%Q.
Proof.
  pose proof (pow2_pos e) as He. pose proof (pow2_opp e) as Ho.
  rewrite Z.add_comm, pow2_add. split; intros H.
  - apply (Qmult_lt_r _ _ (pow2 e) He) in H.
    assert (E : (x * pow2 (- e) * pow2 e == x)%Q)
      by (rewrite <- Qmult_assoc, (Qmult_comm (pow2 (- e))), Ho; ring).
    now rewrite E in H.
  - apply (Qmult_lt_r _ _ (pow2 e) He).
    assert (E : (x * pow2 (- e) * pow2 e == x)%Q)
      by (rewrite <- Qmult_assoc, (Qmult_comm (pow2 (- e))), Ho; ring).
    now rewrite E.
Qed.

Lemma shift_le (x : Q) (e k : Z) :
  (pow2 k <= x * pow2 (- e))%Q <-> (pow2 (e + k) <= x)%Q.
Proof.
  pose proof (shift_lt x e k) as H.
  split; intros H1; apply Qnot_lt_le; intros H2; apply (Qle_not_lt _ _ H1);
    tauto.
Qed.


Lemma shift_shift (x : Q) (a b : Z) :
  (x * pow2 (- a) * pow2 (- b) == x * pow2 (- (a + b)))%Q.
Proof.
  replace (- (a + b))%Z with (- a + - b)%Z by lia. rewrite pow2_add. ring.
Qed.

Lemma inject_Z_pow2 (k : Z) : (0 <= k)%Z -> (inject_Z (2 ^ k) == pow2 k)%Q.
Proof. intros H. now rewrite pow2_Z. Qed.

(** The position of a fraction [q + r / m]. *)
Lemma position_frac (q r m : Z) :
  (0 <= r < m)%Z ->
  position (inject_Z q + inject_Z r / inject_Z m)
  = (4 * q + (if (r =? 0)%Z then 0
              else match (2 * r ?= m)%Z with Lt => 1 | Eq => 2 | Gt => 3 end))%Z.
Proof.
  intros Hr. unfold position.
  assert (Hm : (0 < inject_Z m)%Q) by (rewrite <- (Zlt_Qlt 0); lia).
  set (y := (inject_Z q + inject_Z r / inject_Z m)%Q).
  assert (Hy : (2 * y * inject_Z m == inject_Z (2 * q * m + 2 * r))%Q).
  { unfold y. push_inj. field. lra. }
  set (c := if (2 * r <? m)%Z then 0%Z else 1%Z).
  assert (Hf : Qfloor (2 * y) = (2 * q + c)%Z).
  { apply Qfloor_unique.
    - apply (Qmult_le_r _ _ _ Hm). rewrite Hy, <- inject_Z_mult, <- Zle_Qle.
      unfold c. destruct (Z.ltb_spec (2 * r) m); nia.
    - apply (Qmult_lt_r _ _ _ Hm). rewrite Hy.
      change 1%Q with (inject_Z 1). rewrite <- inject_Z_plus, <- inject_Z_mult.
      rewrite <- Zlt_Qlt. unfold c. destruct (Z.ltb_spec (2 * r) m); nia. }
  rewrite Hf.
  assert (He : Qeq_bool (inject_Z (2 * q + c)) (2 * y)
               = ((2 * q + c) * m =? 2 * q * m + 2 * r)%Z).
  { destruct (Z.eqb_spec ((2 * q + c) * m) (2 * q * m + 2 * r)) as [E|E].
    - apply Qeq_bool_iff. apply (Qmult_inj_r _ _ (inject_Z m)); [lra|].
      rewrite Hy, <- inject_Z_mult, E. reflexivity.
    - destruct (Qeq_bool _ _) eqn:Eb; [|reflexivity]. exfalso. apply E.
      apply Qeq_bool_iff in Eb.
      assert (Hx : (inject_Z (2 * q + c) * inject_Z m == 2 * y * inject_Z m)%Q)
        by (rewrite Eb; reflexivity).
      rewrite Hy, <- inject_Z_mult in Hx. exact (proj1 (inject_Z_injective _ _) Hx). }
  rewrite He. unfold c.
  destruct (Z.eqb_spec r 0) as [->|Hr0].
  - destruct (Z.ltb_spec (2 * 0) m); [|lia].
    destruct (Z.eqb_spec ((2 * q + 0) * m) (2 * q * m + 2 * 0)); lia.
  - destruct (Z.compare_spec (2 * r) m);
    destruct (Z.ltb_spec (2 * r) m); try lia;
    match goal with |- context [(?a =? ?b)%Z] => destruct (Z.eqb_spec a b) end;
    nia.
Qed.

(** *** Rounding: the exponent of the format *)

Lemma canonic_bounds (x : Q) (e : Z) :
  (0 <= x)%Q -> canonic x e ->
  (0 <= nearest_even (position (x * pow2 (- e))) <= 2 ^ 24)%Z /\
  ((-149 < e)%Z -> (2 ^ 23 <= nearest_even (position (x * pow2 (- e))))%Z).
Proof.
  intros Hx (He & Hhi & Hlo).
  set (y := (x * pow2 (- e))%Q).
  assert (H0 : (0 <= y)%Q)
    by (apply Qmult_le_0_compat; [assumption|apply Qlt_le_weak, pow2_pos]).
  assert (H1 : (y < inject_Z (2 ^ 24))%Q)
    by (rewrite inject_Z_pow2 by lia; apply shift_lt, Hhi).
  repeat split.
  - transitivity (nearest_even (4 * 0)); [now rewrite nearest_even_exact|].
    apply nearest_even_mono. rewrite <- position_Z. now apply position_mono.
  - transitivity (nearest_even (4 * 2 ^ 24)); [|now rewrite nearest_even_exact].
    apply nearest_even_mono. rewrite <- position_Z. apply position_mono.
    now apply Qlt_le_weak.
  - intros H.
    transitivity (nearest_even (4 * 2 ^ 23)); [now rewrite nearest_even_exact|].
    apply nearest_even_mono. rewrite <- position_Z. apply position_mono.
    rewrite inject_Z_pow2 by lia. apply shift_le, Hlo, H.
Qed.

Lemma canonic_le (x x' : Q) (e e' : Z) :
  (x <= x')%Q -> canonic x e -> canonic x' e' -> (e <= e')%Z.
Proof.
  intros Hx (He & Hhi & Hlo) (He' & Hhi' & Hlo').
  destruct (Z.le_gt_cases e e') as [H|H]; [assumption|exfalso].
  assert (H1 : (pow2 (e + 23) <= x)%Q) by (apply Hlo; lia).
  assert (H2 : (pow2 (e' + 24) <= pow2 (e + 23))%Q) by (apply pow2_le; lia).
  lra.
Qed.

Lemma canonic_unique (x : Q) (e e' : Z) :
  canonic x e -> canonic x e' -> e = e'.
Proof.
  intros H H'. apply Z.le_antisymm; eapply canonic_le; eauto; lra.
Qed.

(** The exponent chosen by [binary_round_aux] for a mantissa [m] that
    is the integer part of [x / 2 ^ e]. *)
Lemma canonic_fexp (x : Q) (m e : Z) :
  (0 <= m)%Z ->
  (inject_Z m <= x * pow2 (- e))%Q -> (x * pow2 (- e) < inject_Z m + 1)%Q ->
  (e <= fexp 24 128 (Zdigits2 m + e))%Z ->
  canonic x (fexp 24 128 (Zdigits2 m + e)).
Proof.
  intros Hm Hlo Hhi He. unfold fexp, emin in *.
  destruct (Z.eq_dec m 0) as [->|Hm0].
  - cbn [Zdigits2] in *. cbn [inject_Z] in *.
    assert (E : Z.max (0 + e - 24) (3 - 128 - 24) = (-149)%Z) by lia.
    rewrite E in *. split; [lia|]. split; [|lia].
    assert (H1 : (x * pow2 (- e) < pow2 0)%Q)  by (rewrite pow2_0; inj_consts; lra).
    apply (proj1 (shift_lt _ _ _)) in H1.
    assert (H2 : (pow2 (e + 0) <= pow2 (-149 + 24))%Q) by (apply pow2_le; lia).
    lra.
  - destruct (Zdigits2_bounds m ltac:(lia)) as [Hd [Hb1 Hb2]].
    set (d := Zdigits2 m) in *.
    assert (H1 : (x * pow2 (- e) < pow2 d)%Q).
    { rewrite <- (inject_Z_pow2 d) by lia.
      assert (H : (m + 1 <= 2 ^ d)%Z) by lia.
      rewrite Zle_Qle, inject_Z_plus in H. change (inject_Z 1) with 1%Q in H. lra. }
    assert (H2 : (pow2 (d - 1) <= x * pow2 (- e))%Q).
    { rewrite <- (inject_Z_pow2 (d - 1)) by lia. rewrite Zle_Qle in Hb1. lra. }
    apply (proj1 (shift_lt _ _ _)) in H1. apply (proj1 (shift_le _ _ _)) in H2.
    split; [lia|]. split.
    + assert (H3 : (pow2 (e + d) <= pow2 (Z.max (d + e - 24) (3 - 128 - 24) + 24))%Q)
        by (apply pow2_le; lia).
      lra.
    + intros H.
      assert (H3 : (pow2 (Z.max (d + e - 24) (3 - 128 - 24) + 23) <= pow2 (e + (d - 1)))%Q)
        by (apply pow2_le; lia).
      lra.
Qed.

(** *** Rounding: [binary_round_aux] *)

Lemma shr_not_positive (r : shr_record) (e n : Z) :
  (n <= 0)%Z -> shr r e n = (r, e).
Proof. destruct n; [reflexivity|lia|reflexivity]. Qed.

(** [binary_round_aux] rounds to nearest even: given a mantissa, an
    exponent and a location that stand for the position of the positive
    rational [x], with at least as many digits as the format takes, the
    result is [x] rounded. *)
Lemma binary_round_aux_rounded (s : bool) (m e : Z) (l : location) (x : Q) :
  (0 < x)%Q -> (0 <= m)%Z ->
  position (x * pow2 (- e)) = (4 * m + location_code l)%Z ->
  (e <= fexp 24 128 (Zdigits2 m + e))%Z ->
  rounded s x (binary_round_aux 24 128 s m e l).
Proof.
  intros Hx Hm Hp He.
  assert (Hfl : Qfloor (x * pow2 (- e)) = m).
  { rewrite <- position_floor, Hp.
    destruct l as [|[]]; cbn [location_code]; Z.div_mod_to_equations; lia. }
  destruct (Qfloor_bounds (x * pow2 (- e))) as [Hlo Hhi]. rewrite Hfl in Hlo, Hhi.
  pose proof (canonic_fexp x m e Hm Hlo Hhi He) as Hc.
  set (e1 := fexp 24 128 (Zdigits2 m + e)) in *.
  exists e1. split; [exact Hc|].
  unfold binary_round_aux, shr_fexp. fold e1.
  destruct (shr_position (shr_record_of_loc m l) e (e1 - e) (x * pow2 (- e)))
    as (H1 & H2 & H3).
  { destruct l as [|[]]; exact Hm. }
  { now rewrite record_position_of_loc. }
  destruct (shr (shr_record_of_loc m l) e (e1 - e)) as [r1 e']. cbn [fst snd] in *.
  replace (Z.max 0 (e1 - e)) with (e1 - e)%Z in * by lia.
  assert (E' : e' = e1) by lia. clear H1. rewrite E' in *. clear E' e'.
  rewrite shift_shift in H2. replace (e + (e1 - e))%Z with e1 in H2 by lia.
  rewrite (round_nearest_even_position r1 H3), H2.
  destruct (canonic_bounds x e1 (Qlt_le_weak _ _ Hx) Hc) as [Hb1 Hb2].
  set (m1 := nearest_even (position (x * pow2 (- e1)))) in *.
  destruct Hc as (Hc1 & _).
  unfold mk. destruct (Z.eqb_spec m1 (2 ^ 24)) as [E|E].
  - rewrite E. change (Zdigits2 (2 ^ 24)) with 25%Z.
    replace (fexp 24 128 (25 + e1) - e1)%Z with 1%Z by (unfold fexp, emin; lia).
    reflexivity.
  - rewrite shr_not_positive.
    + cbn [shr_m shr_record_of_loc]. destruct m1; reflexivity.
    + unfold fexp, emin. destruct (Z.eq_dec m1 0) as [->|E0]; [cbn; lia|].
      destruct (Zdigits2_bounds m1 ltac:(lia)) as [Hd [Hd1 Hd2]].
      assert (Zdigits2 m1 - 1 < 24)%Z by (apply (Z.pow_lt_mono_r_iff 2); lia).
      lia.
Qed.

(** *** Rounding: the value of the result *)

Lemma mant_lt (m e k : Z) :
  (0 <= k)%Z -> (m < 2 ^ k)%Z -> (inject_Z m * pow2 e < pow2 (e + k))%Q.
Proof.
  intros Hk H. rewrite Z.add_comm, pow2_add.
  apply Qmult_lt_r; [apply pow2_pos|].
  rewrite <- (inject_Z_pow2 k) by assumption. now rewrite <- Zlt_Qlt.
Qed.

Lemma mant_le (m e k : Z) :
  (0 <= k)%Z -> (2 ^ k <= m)%Z -> (pow2 (e + k) <= inject_Z m * pow2 e)%Q.
Proof.
  intros Hk H. rewrite Z.add_comm, pow2_add.
  apply Qmult_le_r; [apply pow2_pos|].
  rewrite <- (inject_Z_pow2 k) by assumption. now rewrite <- Zle_Qle.
Qed.

Lemma mant_ge (m e k : Z) :
  (0 <= k)%Z -> (m <= 2 ^ k)%Z -> (inject_Z m * pow2 e <= pow2 (e + k))%Q.
Proof.
  intros Hk H. rewrite Z.add_comm, pow2_add.
  apply Qmult_le_r; [apply pow2_pos|].
  rewrite <- (inject_Z_pow2 k) by assumption. now rewrite <- Zle_Qle.
Qed.

Lemma digits_le_24 (m : Z) : (0 < m < 2 ^ 24)%Z -> (Zdigits2 m <= 24)%Z.
Proof.
  intros H. destruct (Zdigits2_bounds m ltac:(lia)) as [Hd [Hd1 Hd2]].
  assert (Zdigits2 m - 1 < 24)%Z by (apply (Z.pow_lt_mono_r_iff 2); lia). lia.
Qed.

Lemma digits_ge_24 (m : Z) : (2 ^ 23 <= m)%Z -> (24 <= Zdigits2 m)%Z.
Proof.
  intros H. destruct (Zdigits2_bounds m ltac:(lia)) as [Hd [Hd1 Hd2]].
  assert (23 < Zdigits2 m)%Z by (apply (Z.pow_lt_mono_r_iff 2); lia). lia.
Qed.

Section Rounded_mantissa.

Variables (s : bool) (e m : Z).
Hypothesis He : (-149 <= e)%Z.
Hypothesis Hm : (0 <= m <= 2 ^ 24)%Z.
Hypothesis Hn : (-149 < e)%Z -> (2 ^ 23 <= m)%Z.

Lemma mk_good : good (mk s e m).
Proof using He Hm Hn.
  unfold mk, good. destruct (Z.eqb_spec m (2 ^ 24)) as [E|E].
  - change (2 ^ 23)%Z with (Z.pos 8388608).
    destruct (Z.leb_spec (e + 1) 104); [|split; reflexivity].
    split; [|reflexivity]. cbn [valid_binary]. unfold bounded, canonical_mantissa.
    change (Z.pos (digits2_pos 8388608)) with 24%Z.
    apply andb_true_intro; split; [|unfold F32.emax, F32.prec; lia].
    apply Z.eqb_eq. unfold fexp, emin, F32.emax, F32.prec. lia.
  - destruct m as [|p|p] eqn:Ep; [split; reflexivity| |lia].
    destruct (Z.leb_spec e 104); [|split; reflexivity].
    split; [|reflexivity]. cbn [valid_binary]. unfold bounded, canonical_mantissa.
    apply andb_true_intro; split; [|unfold F32.emax, F32.prec; lia].
    apply Z.eqb_eq. unfold fexp, emin, F32.emax, F32.prec.
    change (Z.pos (digits2_pos p)) with (Zdigits2 (Z.pos p)).
    pose proof (digits_le_24 (Z.pos p) ltac:(lia)).
    destruct (Z.eq_dec e (-149)) as [->|]; [lia|].
    pose proof (digits_ge_24 (Z.pos p) ltac:(apply Hn; lia)). lia.
Qed.

Lemma mk_fval :
  (fval (mk s e m) == fsign s * Qmin (inject_Z m * pow2 e) (pow2 128))%Q.
Proof using He Hm Hn.
  unfold mk. destruct (Z.eqb_spec m (2 ^ 24)) as [E|E].
  - assert (Hv : (inject_Z m * pow2 e == pow2 (e + 24))%Q).
    { rewrite E, Z.add_comm, pow2_add, inject_Z_pow2 by lia. reflexivity. }
    rewrite Hv. change (2 ^ 23)%Z with (Z.pos 8388608).
    destruct (Z.leb_spec (e + 1) 104); cbn [fval].
    + rewrite Q.min_l by (apply pow2_le; lia).
      change (inject_Z (Z.pos 8388608)) with (inject_Z (2 ^ 23)).
      rewrite inject_Z_pow2 by lia. rewrite <- Qmult_assoc, <- pow2_add.
      replace (23 + (e + 1))%Z with (e + 24)%Z by lia. reflexivity.
    + rewrite Q.min_r by (apply pow2_le; lia). reflexivity.
  - destruct m as [|p|p] eqn:Ep; [| |lia].
    + cbn [fval]. rewrite Q.min_l.
      * change (inject_Z 0) with 0%Q. ring.
      * change (inject_Z 0) with 0%Q. rewrite Qmult_0_l.
        apply Qlt_le_weak, pow2_pos.
    + destruct (Z.leb_spec e 104); cbn [fval].
      * rewrite Q.min_l; [ring|].
        apply Qlt_le_weak, Qlt_le_trans with (pow2 (e + 24)).
        -- apply mant_lt; lia.
        -- apply pow2_le; lia.
      * rewrite Q.min_r; [reflexivity|].
        apply Qle_trans with (pow2 (e + 23)).
        -- apply pow2_le; lia.
        -- apply mant_le; [lia|apply Hn; lia].
Qed.

End Rounded_mantissa.

Lemma fsign_sq (s : bool) : (fsign s * fsign s == 1)%Q.
Proof. destruct s; reflexivity. Qed.

Lemma rounded_good (s : bool) (x : Q) (f : float) :
  (0 < x)%Q -> rounded s x f -> good f.
Proof.
  intros Hx (e & Hc & ->).
  destruct (canonic_bounds x e (Qlt_le_weak _ _ Hx) Hc) as [Hb1 Hb2].
  apply mk_good; [apply Hc|assumption|assumption].
Qed.

(** The rounded magnitude grows with the rational. *)
Lemma rounded_mono (s : bool) (x x' : Q) (f f' : float) :
  (0 < x)%Q -> (x <= x')%Q -> rounded s x f -> rounded s x' f' ->
  (fsign s * fval f <= fsign s * fval f')%Q.
Proof.
  intros Hx Hxx (e & Hc & ->) (e' & Hc' & ->).
  assert (Hx' : (0 < x')%Q) by lra.
  destruct (canonic_bounds x e (Qlt_le_weak _ _ Hx) Hc) as [Hb1 Hb2].
  destruct (canonic_bounds x' e' (Qlt_le_weak _ _ Hx') Hc') as [Hb1' Hb2'].
  pose proof (canonic_le x x' e e' Hxx Hc Hc') as Hee.
  rewrite !mk_fval by (assumption || apply Hc || apply Hc').
  rewrite !Qmult_assoc, !fsign_sq, !Qmult_1_l.
  apply Q.min_le_compat_r.
  set (m := nearest_even (position (x * pow2 (- e)))) in *.
  set (m' := nearest_even (position (x' * pow2 (- e')))) in *.
  destruct (Z.eq_dec e e') as [<-|Hne].
  - apply Qmult_le_r; [apply pow2_pos|]. rewrite <- Zle_Qle.
    apply nearest_even_mono, position_mono.
    apply Qmult_le_r; [apply pow2_pos|assumption].
  - apply Qle_trans with (pow2 (e + 24)); [apply mant_ge; lia|].
    apply Qle_trans with (pow2 (e' + 23)); [apply pow2_le; lia|].
    apply mant_le; [lia|apply Hb2'; destruct Hc; lia].
Qed.

Lemma rounded_sign (s : bool) (x : Q) (f : float) :
  (0 < x)%Q -> rounded s x f -> (0 <= fsign s * fval f)%Q.
Proof.
  intros Hx (e & Hc & ->).
  destruct (canonic_bounds x e (Qlt_le_weak _ _ Hx) Hc) as [Hb1 Hb2].
  rewrite mk_fval by (assumption || apply Hc).
  rewrite Qmult_assoc, fsign_sq, Qmult_1_l.
  apply Q.min_glb; [|apply Qlt_le_weak, pow2_pos].
  apply Qmult_le_0_compat; [|apply Qlt_le_weak, pow2_pos].
  rewrite <- (Zle_Qle 0). lia.
Qed.

Lemma fsign_false (q : Q) : (fsign false * q == q)%Q.
Proof. unfold fsign. ring. Qed.

Lemma fsign_true (q : Q) : (fsign true * q == - q)%Q.
Proof. unfold fsign. ring. Qed.

(** Rounding is monotone. *)
Lemma rounds_mono (x x' : Q) (f f' : float) :
  rounds x f -> rounds x' f' -> (x <= x')%Q -> (fval f <= fval f')%Q.
Proof.
  intros [[H0 [s ->]]|[[Hp Hr]|[Hn Hr]]] [[H0' [s' ->]]|[[Hp' Hr']|[Hn' Hr']]] Hxx;
    cbn [fval]; try lra.
  - pose proof (rounded_sign _ _ _ Hp' Hr') as H. rewrite fsign_false in H. lra.
  - pose proof (rounded_mono _ _ _ _ _ Hp Hxx Hr Hr') as H.
    now rewrite !fsign_false in H.
  - assert (Hp : (0 < - x)%Q) by lra.
    pose proof (rounded_sign _ _ _ Hp Hr) as H. rewrite fsign_true in H. lra.
  - assert (Hp : (0 < - x)%Q) by lra.
    pose proof (rounded_sign _ _ _ Hp Hr) as H. rewrite fsign_true in H.
    pose proof (rounded_sign _ _ _ Hp' Hr') as H'. rewrite fsign_false in H'. lra.
  - assert (Hp : (0 < - x')%Q) by lra. assert (Hxx' : (- x' <= - x)%Q) by lra.
    pose proof (rounded_mono _ _ _ _ _ Hp Hxx' Hr' Hr) as H.
    rewrite !fsign_true in H. lra.
Qed.

Lemma rounds_good (x : Q) (f : float) : rounds x f -> good f.
Proof.
  intros [[H0 [s ->]]|[[Hp Hr]|[Hn Hr]]].
  - split; reflexivity.
  - eapply rounded_good; eauto.
  - eapply rounded_good; [|eauto]. lra.
Qed.

#[export] Instance canonic_comp : Proper (Qeq ==> eq ==> iff) canonic.
Proof.
  intros x y H e e' <-. unfold canonic.
  split; intros (A & B & C); (split; [assumption|split; [|intros Hh]]).
  - now rewrite <- H.
  - rewrite <- H. auto.
  - now rewrite H.
  - rewrite H. auto.
Qed.

#[export] Instance rounded_comp : Proper (eq ==> Qeq ==> eq ==> iff) rounded.
Proof.
  intros s s' <- x y H f f' <-. unfold rounded.
  split; intros (e & Hc & ->); exists e.
  - rewrite <- H. split; [assumption|reflexivity].
  - rewrite H. split; [assumption|reflexivity].
Qed.

#[export] Instance rounds_comp : Proper (Qeq ==> eq ==> iff) rounds.
Proof.
  intros x y H f f' <-. unfold rounds.
  assert (Ho : (- x == - y)%Q) by now rewrite H.
  split; (intros [[H0 Hs]|[[Hp Hr]|[Hn Hr]]];
    [left|right; left|right; right]; split; try assumption).
  - now rewrite <- H.
  - now rewrite <- H.
  - now rewrite <- H.
  - now rewrite <- H.
  - now rewrite <- Ho.
  - now rewrite H.
  - now rewrite H.
  - now rewrite H.
  - now rewrite H.
  - now rewrite Ho.
Qed.

(** *** Floats of the format and their values *)

Lemma valid_canonic (s : bool) (m : positive) (e : Z) :
  valid_binary 24 128 (S754_finite s m e) = true ->
  canonic (inject_Z (Zpos m) * pow2 e) e /\ (e <= 104)%Z /\
  (Zpos m < 2 ^ 24)%Z /\ ((-149 < e)%Z -> (2 ^ 23 <= Zpos m)%Z).
Proof.
  cbn [valid_binary]. unfold bounded, canonical_mantissa. intros H.
  apply andb_prop in H as [H1 H2]. apply Z.eqb_eq in H1. apply Z.leb_le in H2.
  change (Z.pos (digits2_pos m)) with (Zdigits2 (Z.pos m)) in H1.
  destruct (Zdigits2_bounds (Z.pos m) ltac:(lia)) as [Hd [Hd1 Hd2]].
  set (d := Zdigits2 (Z.pos m)) in *. unfold fexp, emin in H1.
  assert (Hd24 : (d <= 24)%Z) by lia.
  assert (Hlt : (Z.pos m < 2 ^ 24)%Z).
  { apply Z.lt_le_trans with (2 ^ d)%Z; [assumption|].
    apply Z.pow_le_mono_r; lia. }
  assert (Hge : (-149 < e)%Z -> (2 ^ 23 <= Z.pos m)%Z).
  { intros He. replace 23%Z with (d - 1)%Z by lia. assumption. }
  repeat split; try lia; try assumption.
  - apply mant_lt; [lia|assumption].
  - intros He. apply mant_le; [lia|auto].
Qed.

Lemma finite_rounded (s : bool) (m : positive) (e : Z) :
  valid_binary 24 128 (S754_finite s m e) = true ->
  rounded s (inject_Z (Zpos m) * pow2 e) (S754_finite s m e).
Proof.
  intros H. destruct (valid_canonic s m e H) as (Hc & He & Hm & _).
  exists e. split; [assumption|].
  assert (E : (inject_Z (Z.pos m) * pow2 e * pow2 (- e) == inject_Z (Z.pos m))%Q)
    by (rewrite <- Qmult_assoc, pow2_opp; ring).
  rewrite E, position_Z, nearest_even_exact. unfold mk.
  destruct (Z.eqb_spec (Z.pos m) (2 ^ 24)); [lia|].
  destruct (Z.leb_spec e 104); [reflexivity|lia].
Qed.

Lemma finite_pos (m : positive) (e : Z) : (0 < inject_Z (Zpos m) * pow2 e)%Q.
Proof.
  apply Qmult_lt_0_compat; [|apply pow2_pos]. now rewrite <- (Zlt_Qlt 0).
Qed.

(** A finite float of the format is its own value rounded. *)
Lemma good_rounds (f : float) :
  good f -> F32.isfinite f = true -> rounds (fval f) f.
Proof.
  intros [Hv _] Hf. destruct f as [s|s| |s m e]; try discriminate.
  - left. split; [reflexivity|eauto].
  - pose proof (finite_pos m e) as Hp.
    pose proof (finite_rounded s m e Hv) as Hr.
    destruct s; cbn [fval].
    + right; right. rewrite <- Qmult_assoc, fsign_true. split; [lra|].
      now rewrite Qopp_involutive.
    + right; left. rewrite <- Qmult_assoc, fsign_false. split; assumption.
Qed.

Lemma finite_below (s : bool) (m : positive) (e : Z) :
  valid_binary 24 128 (S754_finite s m e) = true ->
  (inject_Z (Zpos m) * pow2 e < pow2 128)%Q.
Proof.
  intros H. destruct (valid_canonic s m e H) as ((_ & Hc & _) & He & _).
  apply Qlt_le_trans with (pow2 (e + 24)); [assumption|apply pow2_le; lia].
Qed.

Lemma good_range (f : float) :
  good f -> (- pow2 128 <= fval f <= pow2 128)%Q.
Proof.
  intros [Hv Hn]. pose proof (pow2_pos 128).
  destruct f as [s|s| |s m e]; cbn [fval]; try lra.
  - destruct s; unfold fsign; lra.
  - pose proof (finite_pos m e). pose proof (finite_below s m e Hv).
    rewrite <- Qmult_assoc. destruct s; unfold fsign; lra.
Qed.

Lemma finite_range (f : float) :
  good f -> F32.isfinite f = true -> (- pow2 128 < fval f < pow2 128)%Q.
Proof.
  intros [Hv Hn] Hf. pose proof (pow2_pos 128).
  destruct f as [s|s| |s m e]; try discriminate; cbn [fval]; try lra.
  pose proof (finite_pos m e). pose proof (finite_below s m e Hv).
  rewrite <- Qmult_assoc. destruct s; unfold fsign; lra.
Qed.

Lemma range_finite (f : float) :
  good f -> (- pow2 128 < fval f < pow2 128)%Q -> F32.isfinite f = true.
Proof.
  intros [Hv Hn] H.
  destruct f as [s|s| |s m e]; try reflexivity; [|cbn in Hn; discriminate].
  exfalso. cbn [fval] in H. destruct H as [H1 H2].
  destruct s; unfold fsign in H1, H2; lra.
Qed.

(** *** Comparison of floats and of their values *)

Lemma Qcompare_opp (a b : Q) : (- a ?= - b)%Q = CompOpp (a ?= b)%Q.
Proof.
  destruct (Qcompare_spec a b) as [H|H|H]; cbn [CompOpp].
  - apply (proj1 (Qeq_alt _ _)). now rewrite H.
  - apply (proj1 (Qgt_alt _ _)). lra.
  - apply (proj1 (Qlt_alt _ _)). lra.
Qed.

Lemma mant_compare (s s' : bool) (m m' : positive) (e e' : Z) :
  valid_binary 24 128 (S754_finite s m e) = true ->
  valid_binary 24 128 (S754_finite s' m' e') = true ->
  (inject_Z (Zpos m) * pow2 e ?= inject_Z (Zpos m') * pow2 e')%Q
  = match (e ?= e')%Z with
    | Eq => Pos.compare_cont Eq m m'
    | Lt => Lt
    | Gt => Gt
    end.
Proof.
  intros H H'.
  destruct (valid_canonic s m e H) as ((Ha & Hb & Hc) & He & Hm & Hn).
  destruct (valid_canonic s' m' e' H') as ((Ha' & Hb' & Hc') & He' & Hm' & Hn').
  destruct (Z.compare_spec e e') as [<-|Hlt|Hlt].
  - change (Pos.compare_cont Eq m m') with (Z.pos m ?= Z.pos m')%Z.
    destruct (Z.compare_spec (Z.pos m) (Z.pos m')) as [E|E|E].
    + apply (proj1 (Qeq_alt _ _)). now rewrite E.
    + apply (proj1 (Qlt_alt _ _)). apply Qmult_lt_r; [apply pow2_pos|]. now rewrite <- Zlt_Qlt.
    + apply (proj1 (Qgt_alt _ _)). apply Qmult_lt_r; [apply pow2_pos|]. now rewrite <- Zlt_Qlt.
  - apply (proj1 (Qlt_alt _ _)).
    assert (H1 : (pow2 (e + 24) <= pow2 (e' + 23))%Q) by (apply pow2_le; lia).
    assert (H2 : (pow2 (e' + 23) <= inject_Z (Z.pos m') * pow2 e')%Q)
      by (apply Hc'; lia).
    lra.
  - apply (proj1 (Qgt_alt _ _)).
    assert (H1 : (pow2 (e' + 24) <= pow2 (e + 23))%Q) by (apply pow2_le; lia).
    assert (H2 : (pow2 (e + 23) <= inject_Z (Z.pos m) * pow2 e)%Q)
      by (apply Hc; lia).
    lra.
Qed.

(** On floats of the format the comparison of the C operators is the
    comparison of the values. *)
Lemma SFcompare_fval (a b : float) :
  good a -> good b -> SFcompare a b = Some (fval a ?= fval b)%Q.
Proof.
  intros [Ha Na] [Hb Nb]. pose proof (pow2_pos 128) as H128.
  destruct a as [s|s| |s m e]; try discriminate;
  destruct b as [s'|s'| |s' m' e']; try discriminate; cbn [SFcompare fval];
  try pose proof (finite_pos m e) as Hp;
  try pose proof (finite_below s m e Ha) as Hl;
  try pose proof (finite_pos m' e') as Hp';
  try pose proof (finite_below s' m' e' Hb) as Hl';
  rewrite <- ?Qmult_assoc;
  try (f_equal; symmetry;
       first [ destruct s, s' | destruct s | destruct s' | idtac ];
       unfold fsign;
       first [ apply (proj1 (Qeq_alt _ _)); lra | apply (proj1 (Qlt_alt _ _)); lra | apply (proj1 (Qgt_alt _ _)); lra ]).
  f_equal. pose proof (mant_compare s s' m m' e e' Ha Hb) as Hc.
  destruct s, s'; rewrite ?fsign_true, ?fsign_false.
  - rewrite Qcompare_opp, Hc. now destruct (e ?= e')%Z.
  - symmetry. apply (proj1 (Qlt_alt _ _)). lra.
  - symmetry. apply (proj1 (Qgt_alt _ _)). lra.
  - rewrite Hc. reflexivity.
Qed.

Lemma leb_fval (a b : float) :
  good a -> good b -> (F32.leb a b = true <-> (fval a <= fval b)%Q).
Proof.
  intros Ha Hb. unfold F32.leb, SFleb. rewrite (SFcompare_fval a b Ha Hb).
  destruct (Qcompare_spec (fval a) (fval b)); split; intros; try lra;
    try reflexivity; discriminate.
Qed.

Lemma ltb_fval (a b : float) :
  good a -> good b -> (F32.ltb a b = true <-> (fval a < fval b)%Q).
Proof.
  intros Ha Hb. unfold F32.ltb, SFltb. rewrite (SFcompare_fval a b Ha Hb).
  destruct (Qcompare_spec (fval a) (fval b)); split; intros; try lra;
    try reflexivity; discriminate.
Qed.

(** *** The operations round their exact results *)

Lemma iter_xO (p d : positive) :
  Z.pos (Pos.iter xO p d) = (Z.pos p * 2 ^ Z.pos d)%Z.
Proof.
  induction d as [|d IH] using Pos.peano_ind.
  - cbn [Pos.iter]. lia.
  - rewrite Pos.iter_succ, Pos2Z.inj_xO, IH, Pos2Z.inj_succ, Z.pow_succ_r; lia.
Qed.

Lemma shl_align_spec (m : positive) (e ez : Z) :
  (ez <= e)%Z ->
  Z.pos (fst (shl_align m e ez)) = (Z.pos m * 2 ^ (e - ez))%Z /\
  snd (shl_align m e ez) = ez.
Proof.
  intros H. unfold shl_align. destruct (ez - e)%Z as [|d|d] eqn:E; cbn [fst snd].
  - replace (e - ez)%Z with 0%Z by lia. split; lia.
  - lia.
  - rewrite iter_xO. replace (e - ez)%Z with (Z.pos d) by lia. split; lia.
Qed.

Lemma scaled_value (m e ez : Z) :
  (ez <= e)%Z ->
  (inject_Z (m * 2 ^ (e - ez)) * pow2 ez == inject_Z m * pow2 e)%Q.
Proof.
  intros H. rewrite inject_Z_mult, inject_Z_pow2 by lia.
  rewrite <- Qmult_assoc, <- pow2_add. now replace (e - ez + ez)%Z with e by lia.
Qed.

Lemma digits_shift (m k : Z) :
  (0 < m)%Z -> (0 <= k)%Z -> Zdigits2 (m * 2 ^ k) = (Zdigits2 m + k)%Z.
Proof.
  intros Hm Hk. destruct (Zdigits2_bounds m Hm) as [Hd [Hd1 Hd2]].
  assert (0 < 2 ^ k)%Z by (apply Z.pow_pos_nonneg; lia).
  apply Zdigits2_unique; [nia|].
  replace (Zdigits2 m + k - 1)%Z with ((Zdigits2 m - 1) + k)%Z by lia.
  rewrite !Z.pow_add_r by lia. nia.
Qed.

Lemma position_scaled (m e : Z) :
  position (inject_Z m * pow2 e * pow2 (- e)) = (4 * m)%Z.
Proof.
  assert (E : (inject_Z m * pow2 e * pow2 (- e) == inject_Z m)%Q)
    by (rewrite <- Qmult_assoc, pow2_opp; ring).
  now rewrite E, position_Z.
Qed.

Lemma binary_round_rounded (s : bool) (p : positive) (e : Z) :
  rounded s (inject_Z (Z.pos p) * pow2 e) (binary_round 24 128 s p e).
Proof.
  unfold binary_round.
  set (e' := fexp 24 128 (Z.pos (digits2_pos p) + e)).
  destruct (Z.le_gt_cases e e') as [H|H].
  - assert (E : shl_align p e e' = (p, e))
      by (unfold shl_align; destruct (e' - e)%Z eqn:E; [reflexivity|reflexivity|lia]).
    rewrite E. apply binary_round_aux_rounded.
    + apply finite_pos.
    + lia.
    + rewrite position_scaled. cbn [location_code]. lia.
    + exact H.
  - destruct (shl_align_spec p e e' ltac:(lia)) as [H1 H2].
    destruct (shl_align p e e') as [mz ez]. cbn [fst snd] in H1, H2. subst ez.
    rewrite <- (scaled_value (Z.pos p) e e') by lia. rewrite <- H1.
    apply binary_round_aux_rounded.
    + apply finite_pos.
    + lia.
    + rewrite position_scaled. cbn [location_code]. lia.
    + rewrite H1, digits_shift by lia.
      replace (Zdigits2 (Z.pos p) + (e - e') + e')%Z
        with (Z.pos (digits2_pos p) + e)%Z by (cbn [Zdigits2]; lia).
      fold e'. lia.
Qed.

Lemma binary_normalize_rounds (m e : Z) (sz : bool) :
  rounds (inject_Z m * pow2 e) (binary_normalize 24 128 m e sz).
Proof.
  destruct m as [|p|p]; cbn [binary_normalize].
  - left. split; [change (inject_Z 0) with 0%Q; ring|eauto].
  - right; left. split; [apply finite_pos|apply binary_round_rounded].
  - pose proof (finite_pos p e) as Hp.
    assert (E : (- (inject_Z (Z.neg p) * pow2 e) == inject_Z (Z.pos p) * pow2 e)%Q).
    { change (Z.neg p) with (- Z.pos p)%Z. rewrite inject_Z_opp. ring. }
    right; right. split; [lra|]. rewrite E. apply binary_round_rounded.
Qed.

(** [(float)z] is [z] rounded. *)
Lemma of_Z_rounds (z : Z) : rounds (inject_Z z) (F32.of_Z z).
Proof.
  unfold F32.of_Z. pose proof (binary_normalize_rounds z 0 false) as H.
  assert (E : (inject_Z z * pow2 0 == inject_Z z)%Q) by (rewrite pow2_0; ring).
  now rewrite E in H.
Qed.

Lemma fval_finite (s : bool) (m : positive) (e : Z) :
  (fval (S754_finite s m e)
   == inject_Z (cond_Zopp s (Z.pos m)) * pow2 e)%Q.
Proof.
  cbn [fval]. destruct s; cbn [cond_Zopp fsign].
  - change (- Z.pos m)%Z with (- (Z.pos m))%Z. rewrite inject_Z_opp. ring.
  - ring.
Qed.

Lemma aligned_value (s : bool) (m : positive) (e ez : Z) :
  (ez <= e)%Z ->
  (inject_Z (cond_Zopp s (Z.pos (fst (shl_align m e ez)))) * pow2 ez
   == fval (S754_finite s m e))%Q.
Proof.
  intros H. destruct (shl_align_spec m e ez H) as [H1 _]. rewrite H1.
  rewrite fval_finite. destruct s; cbn [cond_Zopp].
  - rewrite !inject_Z_opp. pose proof (scaled_value (Z.pos m) e ez H) as H2.
    assert (E : forall u v : Q, (- u * v == - (u * v))%Q) by (intros; ring).
    now rewrite !E, H2.
  - apply scaled_value, H.
Qed.

(** The sum of two finite floats is the exact sum rounded. *)
Lemma add_rounds (a b : float) :
  good a -> good b -> F32.isfinite a = true -> F32.isfinite b = true ->
  rounds (fval a + fval b) (F32.add a b).
Proof.
  intros Ha Hb Fa Fb.
  destruct a as [s|s| |s m e]; try discriminate;
  destruct b as [s'|s'| |s' m' e']; try discriminate.
  - left. split; [cbn; ring|]. destruct s, s'; cbn; eauto.
  - assert (E : (fval (S754_zero s) + fval (S754_finite s' m' e')
                 == fval (S754_finite s' m' e'))%Q) by (cbn [fval]; ring).
    rewrite E. now apply good_rounds.
  - assert (E : (fval (S754_finite s m e) + fval (S754_zero s')
                 == fval (S754_finite s m e))%Q) by (cbn [fval]; ring).
    rewrite E. now apply good_rounds.
  - unfold F32.add. cbn [SFadd].
    pose proof (binary_normalize_rounds
      (cond_Zopp s (Z.pos (fst (shl_align m e (Z.min e e')))) +
       cond_Zopp s' (Z.pos (fst (shl_align m' e' (Z.min e e')))))
      (Z.min e e') false) as H.
    rewrite inject_Z_plus, Qmult_plus_distr_l in H.
    rewrite !aligned_value in H by lia. exact H.
Qed.

(** The difference of two finite floats is the exact difference rounded. *)
Lemma sub_rounds (a b : float) :
  good a -> good b -> F32.isfinite a = true -> F32.isfinite b = true ->
  rounds (fval a - fval b) (F32.sub a b).
Proof.
  intros Ha Hb Fa Fb.
  destruct a as [s|s| |s m e]; try discriminate;
  destruct b as [s'|s'| |s' m' e']; try discriminate.
  - left. split; [cbn; ring|]. destruct s, s'; cbn; eauto.
  - assert (E : (fval (S754_zero s) - fval (S754_finite s' m' e')
                 == fval (S754_finite (negb s') m' e'))%Q)
      by (cbn [fval]; destruct s'; cbn [negb fsign]; ring).
    rewrite E. apply good_rounds; [|reflexivity].
    destruct Hb as [Hb _]. split; [exact Hb|reflexivity].
  - assert (E : (fval (S754_finite s m e) - fval (S754_zero s')
                 == fval (S754_finite s m e))%Q) by (cbn [fval]; ring).
    rewrite E. now apply good_rounds.
  - unfold F32.sub. cbn [SFsub].
    pose proof (binary_normalize_rounds
      (cond_Zopp s (Z.pos (fst (shl_align m e (Z.min e e')))) -
       cond_Zopp s' (Z.pos (fst (shl_align m' e' (Z.min e e')))))
      (Z.min e e') false) as H.
    unfold Z.sub in H. rewrite inject_Z_plus, inject_Z_opp, Qmult_plus_distr_l in H.
    assert (E : forall u v : Q, (- u * v == - (u * v))%Q) by (intros; ring).
    rewrite E in H. rewrite !aligned_value in H by lia. exact H.
Qed.

(** The product of two finite floats is the exact product rounded. *)
Lemma mul_rounds (a b : float) :
  good a -> good b -> F32.isfinite a = true -> F32.isfinite b = true ->
  rounds (fval a * fval b) (F32.mul a b).
Proof.
  intros Ha Hb Fa Fb.
  destruct a as [s|s| |s m e]; try discriminate;
  destruct b as [s'|s'| |s' m' e']; try discriminate;
    try (left; split; [cbn [fval]; ring|cbn; eauto]).
  destruct Ha as [Ha _], Hb as [Hb _].
  destruct (valid_canonic s m e Ha) as ((He & _) & _ & Hm & Hn).
  destruct (valid_canonic s' m' e' Hb) as ((He' & _) & _ & Hm' & Hn').
  unfold F32.mul. cbn [SFmul].
  set (x := (inject_Z (Z.pos (m * m')) * pow2 (e + e'))%Q).
  assert (Hx : (0 < x)%Q) by apply finite_pos.
  assert (Hr : rounded (xorb s s') x
    (binary_round_aux F32.prec F32.emax (xorb s s') (Z.pos (m * m')) (e + e')
       loc_Exact)).
  { apply binary_round_aux_rounded; [assumption|lia| |].
    - unfold x. rewrite position_scaled. cbn [location_code]. lia.
    - unfold fexp, emin. rewrite Pos2Z.inj_mul.
      destruct (Z.eq_dec e (-149)) as [E|E]; destruct (Z.eq_dec e' (-149)) as [E'|E'].
      + lia.
      + destruct (Z.le_gt_cases e' 0); [lia|].
        pose proof (digits_ge_24 (Z.pos m * Z.pos m') ltac:(specialize (Hn' ltac:(lia)); nia)).
        lia.
      + destruct (Z.le_gt_cases e 0); [lia|].
        pose proof (digits_ge_24 (Z.pos m * Z.pos m') ltac:(specialize (Hn ltac:(lia)); nia)).
        lia.
      + pose proof (digits_ge_24 (Z.pos m * Z.pos m')
          ltac:(specialize (Hn ltac:(lia)); specialize (Hn' ltac:(lia)); nia)).
        lia. }
  assert (E : (fval (S754_finite s m e) * fval (S754_finite s' m' e')
               == fsign s * fsign s' * x)%Q).
  { unfold x. cbn [fval]. rewrite Pos2Z.inj_mul, inject_Z_mult, pow2_add. ring. }
  rewrite E. destruct s, s'; cbn [xorb fsign] in *.
  - right; left. split; [lra|]. assert (E1 : (-1 * -1 * x == x)%Q) by ring.
    now rewrite E1.
  - right; right. split; [lra|]. assert (E1 : (- (-1 * 1 * x) == x)%Q) by ring.
    now rewrite E1.
  - right; right. split; [lra|]. assert (E1 : (- (1 * -1 * x) == x)%Q) by ring.
    now rewrite E1.
  - right; left. split; [lra|]. assert (E1 : (1 * 1 * x == x)%Q) by ring.
    now rewrite E1.
Qed.

(** *** Division *)

Lemma new_location_code (m r : Z) :
  (0 <= r < m)%Z ->
  location_code (new_location m r)
  = if (r =? 0)%Z then 0%Z
    else match (2 * r ?= m)%Z with Lt => 1 | Eq => 2 | Gt => 3 end%Z.
Proof.
  intros H. unfold new_location, new_location_even, new_location_odd.
  destruct (Z.even m) eqn:Ev; destruct (Z.eqb_spec r 0); try reflexivity.
  assert (Ho : Z.odd m = true) by (rewrite <- Z.negb_even, Ev; reflexivity).
  apply Z.odd_spec in Ho as [k Hk].
  destruct (Z.compare_spec (2 * r + 1) m); destruct (Z.compare_spec (2 * r) m);
    cbn [location_code]; lia.
Qed.

Lemma div_core_spec (m1 m2 : positive) (e1 e2 : Z) :
  let '(q, e, l) := SFdiv_core_binary 24 128 (Z.pos m1) e1 (Z.pos m2) e2 in
  (0 <= q)%Z /\
  position (inject_Z (Z.pos m1) * pow2 e1 / (inject_Z (Z.pos m2) * pow2 e2)
            * pow2 (- e))
  = (4 * q + location_code l)%Z /\
  (e <= fexp 24 128 (Zdigits2 q + e))%Z.
Proof.
  unfold SFdiv_core_binary.
  set (d1 := Zdigits2 (Z.pos m1)). set (d2 := Zdigits2 (Z.pos m2)).
  set (e' := Z.min (fexp 24 128 (d1 + e1 - (d2 + e2))) (e1 - e2)).
  set (s := (e1 - e2 - e')%Z).
  assert (Hs : (0 <= s)%Z) by (unfold s, e'; lia).
  set (m' := match s with
             | 0%Z => Z.pos m1
             | Z.pos _ => Z.shiftl (Z.pos m1) s
             | Z.neg _ => 0%Z
             end).
  assert (Hm' : m' = (Z.pos m1 * 2 ^ s)%Z).
  { unfold m'. destruct s as [|p|p] eqn:Es; [lia| |lia].
    apply Z.shiftl_mul_pow2. lia. }
  clearbody m'.
  pose proof (Z_div_mod m' (Z.pos m2) ltac:(lia)) as Hdiv.
  change (IntDef.Z.div_eucl m' (Z.pos m2)) with (Z.div_eucl m' (Z.pos m2)).
  destruct (Z.div_eucl m' (Z.pos m2)) as [q r]. destruct Hdiv as [Hq Hr].
  assert (H2s : (0 < 2 ^ s)%Z) by (apply Z.pow_pos_nonneg; lia).
  assert (Hq0 : (0 <= q)%Z) by nia.
  split; [exact Hq0|]. split.
  - rewrite (new_location_code _ _ Hr), <- (position_frac q r (Z.pos m2) Hr).
    apply position_comp.
    assert (H1 : (pow2 e1 == pow2 s * pow2 e2 * pow2 e')%Q).
    { rewrite <- !pow2_add. now replace (s + e2 + e')%Z with e1 by (unfold s; lia). }
    assert (H2 : (inject_Z (Z.pos m1) * pow2 s
                  == inject_Z q * inject_Z (Z.pos m2) + inject_Z r)%Q).
    { rewrite <- (inject_Z_pow2 s), <- !inject_Z_mult, <- inject_Z_plus by lia.
      rewrite <- Hm', Hq. now rewrite Z.mul_comm. }
    pose proof (pow2_pos e2) as P2. pose proof (pow2_opp e') as Po.
    assert (Pm : (0 < inject_Z (Z.pos m2))%Q) by now rewrite <- (Zlt_Qlt 0).
    rewrite H1.
    transitivity (inject_Z (Z.pos m1) * pow2 s / inject_Z (Z.pos m2)
                  * (pow2 e' * pow2 (- e')))%Q; [field; split; lra|].
    rewrite Po, H2. field. lra.
  - unfold fexp, emin.
    destruct (Z.le_gt_cases e' (-149)) as [He|He]; [lia|].
    assert (Hk : (e' <= d1 + e1 - (d2 + e2) - 24)%Z)
      by (unfold e', fexp, emin in *; lia).
    destruct (Zdigits2_bounds (Z.pos m1) ltac:(lia)) as [Hd1 [Ha1 Hb1]].
    destruct (Zdigits2_bounds (Z.pos m2) ltac:(lia)) as [Hd2 [Ha2 Hb2]].
    fold d1 in Hd1, Ha1, Hb1. fold d2 in Hd2, Ha2, Hb2.
    set (k := (d1 + s - d2 - 1)%Z).
    assert (Hk23 : (23 <= k)%Z) by (unfold k, s; lia).
    assert (Hp : (2 ^ (d1 - 1) * 2 ^ s = 2 ^ k * 2 ^ d2)%Z).
    { rewrite <- !Z.pow_add_r by lia. f_equal. unfold k. lia. }
    assert (H2k : (0 < 2 ^ k)%Z) by (apply Z.pow_pos_nonneg; lia).
    assert (Hqk : (2 ^ k <= q)%Z) by nia.
    assert (H23 : (2 ^ 23 <= 2 ^ k)%Z) by (apply Z.pow_le_mono_r; lia).
    pose proof (digits_ge_24 q ltac:(lia)). lia.
Qed.

(** The quotient of two finite floats is the exact quotient rounded. *)
Lemma div_rounds (a b : float) :
  good a -> good b -> F32.isfinite a = true -> F32.isfinite b = true ->
  ~ (fval b == 0)%Q ->
  rounds (fval a / fval b) (F32.div a b).
Proof.
  intros Ha Hb Fa Fb Hnz.
  destruct a as [s|s| |s m e]; try discriminate;
  destruct b as [s'|s'| |s' m' e']; try discriminate;
    try (exfalso; apply Hnz; reflexivity).
  - left. split; [cbn [fval]; unfold Qdiv; ring|cbn; eauto].
  - unfold F32.div. cbn [SFdiv].
    pose proof (div_core_spec m m' e e') as Hc. unfold F32.prec, F32.emax.
    destruct (SFdiv_core_binary 24 128 (Z.pos m) e (Z.pos m') e') as [[q e0] l].
    destruct Hc as (Hq & Hp & He).
    pose proof (finite_pos m e) as P1. pose proof (finite_pos m' e') as P2.
    set (u := (inject_Z (Z.pos m) * pow2 e)%Q) in *.
    set (v := (inject_Z (Z.pos m') * pow2 e')%Q) in *.
    assert (Hx : (0 < u / v)%Q).
    { unfold Qdiv. apply Qmult_lt_0_compat; [assumption|].
      now apply Qinv_lt_0_compat. }
    pose proof (binary_round_aux_rounded (xorb s s') q e0 l (u / v) Hx Hq Hp He)
      as Hr.
    assert (E : (fval (S754_finite s m e) / fval (S754_finite s' m' e')
                 == fsign s * fsign s' * (u / v))%Q).
    { cbn [fval]. rewrite <- !Qmult_assoc. fold u v.
      destruct s, s'; unfold fsign; field; lra. }
    rewrite E. destruct s, s'; cbn [xorb fsign] in *.
    + right; left. split; [lra|]. assert (E1 : (-1 * -1 * (u / v) == u / v)%Q) by ring.
      now rewrite E1.
    + right; right. split; [lra|].
      assert (E1 : (- (-1 * 1 * (u / v)) == u / v)%Q) by ring. now rewrite E1.
    + right; right. split; [lra|].
      assert (E1 : (- (1 * -1 * (u / v)) == u / v)%Q) by ring. now rewrite E1.
    + right; left. split; [lra|]. assert (E1 : (1 * 1 * (u / v) == u / v)%Q) by ring.
      now rewrite E1.
Qed.

(** *** Monotone operations on floats *)

Lemma good_cases (f : float) :
  good f ->
  F32.isfinite f = true \/ f = S754_infinity false \/ f = S754_infinity true.
Proof.
  intros [_ Hn]. destruct f as [s|[]| |s m e]; auto; discriminate.
Qed.

Lemma rounds_zero : rounds 0 (S754_zero false).
Proof. left. split; [reflexivity|eauto]. Qed.

Lemma rounds_nonneg (x : Q) (f : float) :
  rounds x f -> (0 <= x)%Q -> (0 <= fval f)%Q.
Proof. intros H Hx. exact (rounds_mono 0 x _ f rounds_zero H Hx). Qed.

Lemma fval_infinity : (fval (S754_infinity false) == pow2 128)%Q.
Proof. cbn [fval fsign]. ring. Qed.

(** An operation that rounds a monotone function of the value of its
    finite arguments, and keeps the positive infinity, is monotone on
    the floats that are not negative. *)
Lemma lift_mono (op : float -> float) (h : Q -> Q) (p p' : float) :
  (forall q, good q -> F32.isfinite q = true -> (0 <= fval q)%Q ->
     rounds (h (fval q)) (op q)) ->
  op (S754_infinity false) = S754_infinity false ->
  (forall u v, (0 <= u)%Q -> (u <= v)%Q -> (h u <= h v)%Q) ->
  good p -> good p' -> (0 <= fval p)%Q -> (fval p <= fval p')%Q ->
  good (op p) /\ good (op p') /\ (fval (op p) <= fval (op p'))%Q.
Proof.
  intros Hop Hinf Hh Hp Hp' H0 Hpp. pose proof (pow2_pos 128) as H128.
  assert (Hg : forall q, good q -> (0 <= fval q)%Q -> good (op q)).
  { intros q Hq Hq0. destruct (good_cases q Hq) as [Hf|[->| ->]].
    - eapply rounds_good, Hop; assumption.
    - rewrite Hinf. split; reflexivity.
    - exfalso. cbn [fval fsign] in Hq0. lra. }
  assert (H0' : (0 <= fval p')%Q) by lra.
  split; [auto|]. split; [auto|].
  destruct (good_cases p' Hp') as [Hf'|[->| ->]].
  - assert (Hf : F32.isfinite p = true).
    { apply range_finite; [assumption|].
      pose proof (finite_range p' Hp' Hf'). lra. }
    eapply rounds_mono; [apply Hop|apply Hop|apply Hh]; assumption.
  - rewrite Hinf, fval_infinity. apply good_range. auto.
  - exfalso. cbn [fval fsign] in H0'. lra.
Qed.

Lemma positive_finite (f : float) :
  good f -> F32.isfinite f = true -> (0 < fval f)%Q ->
  exists m e, f = S754_finite false m e.
Proof.
  intros _ Hf H. destruct f as [s|s| |[] m e]; cbn in Hf; try discriminate.
  - exfalso. pose proof (finite_pos m e). cbn [fval fsign] in H.
    rewrite <- Qmult_assoc in H. lra.
  - eauto.
Qed.

(** *** Conversions of integers *)

Lemma of_Z_mono (z z' : Z) :
  (z <= z')%Z -> (fval (F32.of_Z z) <= fval (F32.of_Z z'))%Q.
Proof.
  intros H. eapply rounds_mono; [apply of_Z_rounds|apply of_Z_rounds|].
  now rewrite <- Zle_Qle.
Qed.

Lemma of_Z_finite (z : Z) :
  (0 <= z < 2 ^ 64)%Z ->
  good (F32.of_Z z) /\ F32.isfinite (F32.of_Z z) = true /\
  (0 <= fval (F32.of_Z z))%Q.
Proof.
  intros H. pose proof (rounds_good _ _ (of_Z_rounds z)) as Hg.
  assert (H0 : (0 <= fval (F32.of_Z z))%Q).
  { apply (rounds_nonneg (inject_Z z)); [apply of_Z_rounds|].
    rewrite <- (Zle_Qle 0). lia. }
  split; [assumption|]. split; [|assumption].
  apply range_finite; [assumption|].
  pose proof (of_Z_mono z (2 ^ 64) ltac:(lia)) as H1.
  assert (H2 : (fval (F32.of_Z (2 ^ 64)) < pow2 128)%Q) by (vm_compute; reflexivity).
  pose proof (pow2_pos 128). lra.
Qed.

(** *** The x coordinates *)

Lemma finite_le_max (f : float) :
  good f -> F32.isfinite f = true ->
  (- fval F32.FLT_MAX <= fval f <= fval F32.FLT_MAX)%Q.
Proof.
  intros [Hv _] Hf.
  assert (Hmax : (fval F32.FLT_MAX == inject_Z (2 ^ 24 - 1) * pow2 104)%Q)
    by (vm_compute; reflexivity).
  destruct f as [s|s| |s m e]; try discriminate.
  - cbn [fval]. rewrite Hmax.
    assert (0 < inject_Z (2 ^ 24 - 1) * pow2 104)%Q by apply finite_pos. lra.
  - destruct (valid_canonic s m e Hv) as (_ & He & Hm & _).
    assert (H : (inject_Z (Z.pos m) * pow2 e <= fval F32.FLT_MAX)%Q).
    { rewrite Hmax.
      apply Qle_trans with (inject_Z (2 ^ 24 - 1) * pow2 e)%Q.
      - apply Qmult_le_r; [apply pow2_pos|]. rewrite <- Zle_Qle. lia.
      - apply Qmult_le_l; [reflexivity|]. apply pow2_le, He. }
    pose proof (finite_pos m e). cbn [fval]. rewrite <- Qmult_assoc.
    destruct s; unfold fsign; lra.
Qed.

Lemma spec_x_monotone (fp : float) (n i : nat) :
  valid_binary 24 128 fp = true ->
  (Z.of_nat n < 2 ^ 64)%Z ->
  F32.ltb (F32.mul (F32.of_Z 2) fp) (F32.of_Z 1152) = true ->
  F32.isinf (F32.mul (F32.of_Z 2) fp) = false ->
  i + 1 < n ->
  F32.leb (spec_x fp n i) (spec_x fp n (i + 1)) = true.
Proof.
  intros Hv Hn Hlt Hinf Hi.
  (* the padding is finite *)
  assert (Hfp : good fp /\ F32.isfinite fp = true).
  { destruct fp as [s|s| |s m e].
    - split; [split|]; reflexivity.
    - destruct s; vm_compute in Hinf; discriminate.
    - vm_compute in Hlt. discriminate.
    - split; [split; [assumption|]|]; reflexivity. }
  destruct Hfp as [Gfp Ffp].
  (* twice the padding *)
  destruct (of_Z_finite 2 ltac:(lia)) as (G2 & F2 & _).
  pose proof (mul_rounds _ _ G2 Gfp F2 Ffp) as Rt.
  set (t := F32.mul (F32.of_Z 2) fp) in *.
  pose proof (rounds_good _ _ Rt) as Gt.
  assert (Ft : F32.isfinite t = true).
  { destruct (good_cases t Gt) as [H|[H|H]]; [assumption| |];
      rewrite H in Hinf; discriminate. }
  (* the width left for the samples *)
  destruct (of_Z_finite 1152 ltac:(lia)) as (GW & FW & _).
  apply (ltb_fval _ _ Gt GW) in Hlt.
  pose proof (sub_rounds _ _ GW Gt FW Ft) as Rw.
  set (w := F32.sub (F32.of_Z 1152) t) in *.
  pose proof (rounds_good _ _ Rw) as Gw.
  assert (Hw0 : (0 <= fval w)%Q) by (apply (rounds_nonneg _ _ Rw); lra).
  assert (Fw : F32.isfinite w = true).
  { apply range_finite; [assumption|].
    assert (Gm : good (SFopp F32.FLT_MAX)) by (split; reflexivity).
    pose proof (sub_rounds _ _ GW Gm FW eq_refl) as Rm.
    assert (Em : F32.sub (F32.of_Z 1152) (SFopp F32.FLT_MAX) = F32.FLT_MAX)
      by (vm_compute; reflexivity).
    rewrite Em in Rm.
    assert (Eo : (fval (SFopp F32.FLT_MAX) == - fval F32.FLT_MAX)%Q)
      by (cbn [fval SFopp F32.FLT_MAX negb fsign]; ring).
    destruct (finite_le_max t Gt Ft) as [Ht1 Ht2].
    assert (Hle : (fval w <= fval F32.FLT_MAX)%Q).
    { apply (rounds_mono _ _ _ _ Rw Rm). lra. }
    assert (Hmax : (fval F32.FLT_MAX < pow2 128)%Q) by (vm_compute; reflexivity).
    pose proof (pow2_pos 128). lra. }
  (* the sample indices and the count *)
  destruct (of_Z_finite (Z.of_nat i) ltac:(lia)) as (Gi & Fi & Hi0).
  destruct (of_Z_finite (Z.of_nat (i + 1)) ltac:(lia)) as (Gj & Fj & Hj0).
  destruct (of_Z_finite (Z.of_nat n) ltac:(lia)) as (GN & FN & _).
  pose proof (of_Z_mono (Z.of_nat i) (Z.of_nat (i + 1)) ltac:(lia)) as Hij.
  assert (HN : (0 < fval (F32.of_Z (Z.of_nat n)))%Q).
  { pose proof (of_Z_mono 1 (Z.of_nat n) ltac:(lia)) as H1.
    assert (H2 : (0 < fval (F32.of_Z 1))%Q) by (vm_compute; reflexivity). lra. }
  set (N := F32.of_Z (Z.of_nat n)) in *.
  (* the products *)
  pose proof (mul_rounds _ _ Gi Gw Fi Fw) as Rp.
  pose proof (mul_rounds _ _ Gj Gw Fj Fw) as Rq.
  set (p := F32.mul (F32.of_Z (Z.of_nat i)) w) in *.
  set (q := F32.mul (F32.of_Z (Z.of_nat (i + 1))) w) in *.
  assert (Hp0 : (0 <= fval p)%Q).
  { apply (rounds_nonneg _ _ Rp). now apply Qmult_le_0_compat. }
  assert (Hpq : (fval p <= fval q)%Q).
  { apply (rounds_mono _ _ _ _ Rp Rq). now apply Qmult_le_compat_r. }
  (* the quotients *)
  destruct (positive_finite N GN FN HN) as (mN & eN & EN).
  assert (Hinv : (0 < / fval N)%Q) by now apply Qinv_lt_0_compat.
  destruct (lift_mono (fun a => F32.div a N) (fun u => u / fval N)%Q p q)
    as (Gz & Gz' & Hzz); try assumption.
  { intros a Ga Fa _. apply div_rounds; try assumption. lra. }
  { rewrite EN. reflexivity. }
  { intros u v _ Huv. unfold Qdiv. apply Qmult_le_compat_r; lra. }
  { now apply rounds_good in Rp. }
  { now apply rounds_good in Rq. }
  assert (Hz0 : (0 <= fval (F32.div p N))%Q).
  { destruct (good_cases p (rounds_good _ _ Rp)) as [Fp|[Ep|Ep]].
    - apply (rounds_nonneg (fval p / fval N)).
      + apply div_rounds; try assumption; [now apply rounds_good in Rp|lra].
      + unfold Qdiv. apply Qmult_le_0_compat; lra.
    - rewrite Ep, EN. cbn. pose proof (pow2_pos 128). cbn [fval fsign]. lra.
    - rewrite Ep in Hp0. cbn [fval fsign] in Hp0. pose proof (pow2_pos 128). lra. }
  (* the sums *)
  destruct (lift_mono (fun a => F32.add fp a) (fun u => fval fp + u)%Q
              (F32.div p N) (F32.div q N))
    as (Gx & Gx' & Hxx); try assumption.
  { intros a Ga Fa _. now apply add_rounds. }
  { destruct fp as [s|s| |s m e]; try discriminate; reflexivity. }
  { intros u v _ Huv. lra. }
  unfold spec_x. fold t w N p q.
  apply leb_fval; assumption.
Qed.

(** *** The padding read from the header is a float of the format *)

Lemma of_ratio_valid (s : bool) (num den : positive) :
  valid_binary 24 128 (F32.of_ratio s num den) = true.
Proof.
  unfold F32.of_ratio, F32.prec, F32.emax.
  pose proof (div_core_spec num den 0 0) as Hc.
  destruct (SFdiv_core_binary 24 128 (Z.pos num) 0 (Z.pos den) 0) as [[q e] l].
  destruct Hc as (Hq & Hp & He).
  pose proof (finite_pos num 0) as P1. pose proof (finite_pos den 0) as P2.
  assert (Hx : (0 < inject_Z (Z.pos num) * pow2 0 / (inject_Z (Z.pos den) * pow2 0))%Q).
  { unfold Qdiv. apply Qmult_lt_0_compat; [assumption|].
    now apply Qinv_lt_0_compat. }
  exact (proj1 (rounded_good _ _ _ Hx
                  (binary_round_aux_rounded s q e l _ Hx Hq Hp He))).
Qed.

Lemma of_scaled_valid (s : bool) (m base e : Z) :
  valid_binary 24 128 (F32.of_scaled s m base e) = true.
Proof.
  unfold F32.of_scaled. destruct m; try reflexivity.
  destruct (0 <=? e)%Z; apply of_ratio_valid.
Qed.

Lemma scan_float_valid (s : cstr) (r : fscan) :
  scan_float s = Some r -> valid_binary 24 128 (fs_val r) = true.
Proof.
  unfold scan_float. destruct (scan_sign _) as [neg s1]. unfold scan_float_body.
  destruct (strip_prefix_ci (txt "inf") s1) as [r1|].
  { destruct (strip_prefix_ci (txt "inity") r1); intros H; injection H as <-;
      reflexivity. }
  destruct (strip_prefix_ci (txt "nan") s1) as [r1|].
  { destruct r1 as [|c r1]; [intros H; injection H as <-; reflexivity|].
    destruct (Ascii.eqb c "("); [|intros H; injection H as <-; reflexivity].
    destruct (drop_while isnchar r1) as [|d r2];
      [intros H; injection H as <-; reflexivity|].
    destruct (Ascii.eqb d ")"); intros H; injection H as <-; reflexivity. }
  assert (Hhex : forall h, scan_hex neg s1 = Some h ->
                   valid_binary 24 128 (fs_val h) = true).
  { intros h. unfold scan_hex. destruct s1 as [|z [|x s2]]; try discriminate.
    destruct (_ && _); [|discriminate].
    destruct (scan_mantissa isxdigit s2) as [[ip fp] r0].
    destruct (ip ++ fp); [discriminate|].
    destruct (scan_exponent "p" r0) as [e r'].
    intros H; injection H as <-. apply of_scaled_valid. }
  assert (Hdec : forall h, scan_decimal neg s1 = Some h ->
                   valid_binary 24 128 (fs_val h) = true).
  { intros h. unfold scan_decimal.
    destruct (scan_mantissa isdigit s1) as [[ip fp] r0].
    destruct (ip ++ fp); [discriminate|].
    destruct (scan_exponent "e" r0) as [e r'].
    intros H; injection H as <-. apply of_scaled_valid. }
  destruct (scan_hex neg s1) as [h|]; [intros H; injection H as <-; auto|].
  apply Hdec.
Qed.

Lemma scan_f_valid (s : cstr) (v : float) :
  scan_f s = Some v -> valid_binary 24 128 v = true.
Proof.
  intros H. apply scan_f_scan_float in H as (r & H & <-).
  eapply scan_float_valid, H.
Qed.

Lemma header_tag_valid (tag : cstr) (g : graphdata_s) :
  valid_binary 24 128 (frame_px g) = true ->
  valid_binary 24 128 (frame_px (header_tag tag g).1) = true.
Proof.
  intros H. unfold header_tag.
  repeat match goal with
  | |- context [if ?b then _ else _] => destruct b
  end; cbn [fst];
  try match goal with
  | |- context [match ?o with Some _ => _ | None => _ end] =>
      destruct o eqn:E
  end; cbn; try assumption.
  unfold sscanf_key_f in E. destruct (strip_prefix _ _); [|discriminate].
  eapply scan_f_valid, E.
Qed.

Lemma header_tags_valid (fuel : nat) (line : cstr) (i lp nc : nat)
    (g g1 : graphdata_s) (log log1 : list event) :
  valid_binary 24 128 (frame_px g) = true ->
  header_tags fuel line i lp nc g log = Some (g1, log1) ->
  valid_binary 24 128 (frame_px g1) = true.
Proof.
  revert lp nc g log. induction fuel as [|fuel IH]; intros lp nc g log Hg;
    [discriminate|].
  cbn [header_tags]. destruct (lp <? i); [|intros H; injection H as <- _; exact Hg].
  destruct (sscanf_s31_n _) as [[tag nc']|];
    [|intros H; injection H as <- _; exact Hg].
  pose proof (header_tag_valid tag g Hg) as Hv.
  destruct (header_tag tag g) as [g' w]. apply IH. exact Hv.
Qed.

Lemma parsed_frame_px_valid (E : env) (name : cstr) (g0 g : graphdata_s) :
  parsed (read_undgraph E name g0) g ->
  valid_binary 24 128 (frame_px g) = true.
Proof.
  intros [log H]. destruct (fopen E name) as [file|] eqn:Ho.
  - destruct (fgets 64 file) as [[line fp]|] eqn:Hg.
    + rewrite (read_undgraph_open E name file line fp g0 Ho Hg) in H.
      destruct (str_eqb _ _); [|discriminate].
      destruct (header_of line g0) as [[g1 l1]|] eqn:Hh; [|discriminate].
      destruct (malloc E _); [|discriminate].
      assert (Eg : g = loaded g1 (samples file)) by congruence.
      rewrite Eg, frame_px_loaded.
      unfold header_of in Hh. eapply header_tags_valid, Hh. reflexivity.
    + unfold read_undgraph in H. rewrite Ho, Hg in H. discriminate.
  - unfold read_undgraph in H. rewrite Ho in H. discriminate.
Qed.

(** *** The x coordinates of the mesh of [main] *)

Lemma main_mesh_x (E : env) (argv : list cstr) (mesh : list (option vec2_t))
    (log : list event) (g : graphdata_s) :
  main E argv = Ret (inr mesh) log ->
  parsed (read_undgraph E (main_filename argv) graphdata) g ->
  forall i, i < size g ->
    exists p, mesh !! i = Some (Some p) /\
      p.1 = spec_x (frame_px g) (size g) i.
Proof.
  intros H [log1 Hg]. apply main_mesh in H as (g2 & log3 & [log2 Hp] & Hb).
  assert (Eg : g2 = g) by congruence. subst g2.
  assert (Hp' : parsed (read_undgraph E (main_filename argv) graphdata) g)
    by (eexists; exact Hg).
  destruct (parsed_invariant _ _ _ _ Hp') as (Hd & Hl & _).
  set (g' := force_flags (drop 2 argv) g) in *.
  destruct (size_force_flags (drop 2 argv) g) as (Hs & Hdat & Hfp & Hmax).
  fold g' in Hs, Hdat, Hfp, Hmax.
  unfold build_mesh in Hb. destruct (malloc E _); [|discriminate].
  assert (Hd' : data g' = map Some (values g)) by (now rewrite Hdat).
  assert (Hl' : length (values g) = size g') by (now rewrite Hs).
  destruct (mesh_loop_spec g' (values g) Hd' Hl' (S (size g')) 0
              (replicate (size g') None) [])
    as (mesh' & log' & Hrun & Hlen & Hall).
  { lia. }
  { lia. }
  { apply length_replicate. }
  { intros j v Hj. lia. }
  rewrite Hrun in Hb. injection Hb as Hmesh _. subst mesh'.
  intros i Hi.
  destruct (lookup_lt_is_Some_2 (values g) i) as [v Hv]; [lia|].
  exists (vertex g' i v). split; [exact (Hall i v Hv)|].
  unfold vertex. cbn [fst]. rewrite mesh_x_spec, Hs, Hfp. reflexivity.
Qed.

(** C5 (as stated) fails: with the header tag frame_px:-3e38 twice the
    padding is minus infinity, which is below the canvas width; the width
    left for the samples is plus infinity, the first x coordinate is
    0 * infinity, a NaN, and no comparison with a NaN holds. *)
Lemma frame_px_overflow_unordered :
  exists g mesh log,
    parsed (read_undgraph
              (env_of (text ["undgraph frame_px:-3e38"; "1"; "2"]%string))
              (main_filename [txt "undgraph"; txt "wide.txt"]) graphdata) g /\
    main (env_of (text ["undgraph frame_px:-3e38"; "1"; "2"]%string))
         [txt "undgraph"; txt "wide.txt"] = Ret (inr mesh) log /\
    0 < size g /\
    F32.ltb (F32.mul (F32.of_Z 2) (frame_px g)) (F32.of_Z 1152) = true /\
    exists p q, mesh !! 0 = Some (Some p) /\ mesh !! 1 = Some (Some q) /\
      p.1 = S754_nan /\ F32.leb p.1 q.1 = false.
Proof.
  eexists. eexists. eexists.
  split; [eexists; vm_compute; reflexivity|].
  split; [vm_compute; reflexivity|].
  split; [cbn; lia|]. split; [vm_compute; reflexivity|].
  eexists. eexists. split; [reflexivity|]. split; [reflexivity|].
  split; reflexivity.
Qed.

(** C5: for a parsed series with count > 0 (a [size_t], below 2 ^ 64) and
    a padding with canvasWidth > 2 * framePadding where 2 * framePadding
    is not infinite in binary32, the x coordinates of the mesh [main]
    builds are non-decreasing in the sample index: x[i] <= x[i+1] for
    every i with i + 1 < count. *)
Theorem mesh_x_monotone (E : env) (argv : list cstr)
    (mesh : list (option vec2_t)) (log : list event) (g : graphdata_s)
    (i : nat) :
  main E argv = Ret (inr mesh) log ->
  parsed (read_undgraph E (main_filename argv) graphdata) g ->
  0 < size g -> (Z.of_nat (size g) < 2 ^ 64)%Z ->
  F32.ltb (F32.mul (F32.of_Z 2) (frame_px g)) (F32.of_Z 1152) = true ->
  F32.isinf (F32.mul (F32.of_Z 2) (frame_px g)) = false ->
  i + 1 < size g ->
  exists p q, mesh !! i = Some (Some p) /\ mesh !! (i + 1) = Some (Some q) /\
    F32.leb p.1 q.1 = true.
Proof.
  intros Hm Hp _ Hn Hlt Hinf Hi.
  destruct (main_mesh_x E argv mesh log g Hm Hp i ltac:(lia)) as (p & Hpi & Ep).
  destruct (main_mesh_x E argv mesh log g Hm Hp (i + 1) Hi) as (q & Hqi & Eq).
  exists p, q. split; [assumption|]. split; [assumption|].
  rewrite Ep, Eq. apply spec_x_monotone; try assumption.
  eapply parsed_frame_px_valid, Hp.
Qed.

Lemma mesh_x_monotone_witness :
  exists p q,
    [Some (S754_zero false, S754_finite false 14155776 (-16));
     Some (S754_finite false 12582912 (-15),
           S754_finite false 14155776 (-15));
     Some (S754_finite false 12582912 (-14),
           S754_finite false 10616832 (-14))] !! 1 = Some (Some p) /\
    [Some (S754_zero false, S754_finite false 14155776 (-16));
     Some (S754_finite false 12582912 (-15),
           S754_finite false 14155776 (-15));
     Some (S754_finite false 12582912 (-14),
           S754_finite false 10616832 (-14))] !! (1 + 1) = Some (Some q) /\
    F32.leb p.1 q.1 = true.
Proof.
  eapply (mesh_x_monotone (env_of (file_of MAGIC three_lines))
            [txt "undgraph"; txt "three.txt"] _ _ three_parsed 1).
  - vm_compute. reflexivity.
  - eexists. vm_compute. reflexivity.
  - vm_compute. lia.
  - vm_compute. reflexivity.
  - vm_compute. reflexivity.
  - vm_compute. reflexivity.
  - vm_compute. lia.
Defined.

(** *** The ways [read_undgraph] and [main] end *)

Lemma fgets_none (file : cstr) : fgets 64 file = None -> file = [].
Proof. destruct file; [reflexivity|discriminate]. Qed.

Lemma read_undgraph_cases (E : env) (name : cstr) (g0 : graphdata_s) :
  match fopen E name with
  | None => read_undgraph E name g0 = Ret (0%Z, g0) [msg_strerror]
  | Some file =>
      match file with
      | [] => read_undgraph E name g0 = Stop null_deref
      | _ =>
          read_undgraph E name g0
          = Ret (0%Z, set_defaults g0) [msg_invalid_header] \/
          (malloc E (4 * length (samples file)) = false /\
           read_undgraph E name g0 = Stop assert_failed) \/
          (exists g1 log,
             read_undgraph E name g0
             = Ret (1%Z, loaded g1 (samples file)) log)
      end
  end.
Proof.
  destruct (fopen E name) as [file|] eqn:Ho.
  - destruct file as [|c file].
    + unfold read_undgraph. rewrite Ho. reflexivity.
    + destruct (fgets 64 (c :: file)) as [[line fp]|] eqn:Hg; [|discriminate].
      rewrite (read_undgraph_open E name _ line fp g0 Ho Hg).
      destruct (str_eqb _ _); [|now left].
      pose proof (header_of_total line g0) as Ht.
      destruct (header_of line g0) as [[g1 log]|]; [|contradiction].
      destruct (malloc E _); eauto.
  - unfold read_undgraph. rewrite Ho. reflexivity.
Qed.

Lemma build_mesh_cases (E : env) (g : graphdata_s) (vs : list float) :
  data g = map Some vs -> length vs = size g ->
  (malloc E (8 * size g) = false /\ build_mesh E g = Stop assert_failed) \/
  exists mesh log, build_mesh E g = Ret mesh log /\ length mesh = size g /\
    forall j v, vs !! j = Some v -> mesh !! j = Some (Some (vertex g j v)).
Proof.
  intros Hd Hl. unfold build_mesh. destruct (malloc E _); [right|now left].
  destruct (mesh_loop_spec g vs Hd Hl (S (size g)) 0 (replicate (size g) None) [])
    as (mesh & log & Hrun & Hlen & Hall).
  - lia.
  - lia.
  - apply length_replicate.
  - intros j v Hj. lia.
  - eauto.
Qed.

Lemma main_unfold (E : env) (argv : list cstr) :
  main E argv =
  let log0 := match argv with
              | _ :: f :: _ => [msg_reading f]
              | _ => [msg_default_file]
              end in
  match read_undgraph E (main_filename argv) graphdata with
  | Stop f => Stop f
  | Loops => Loops
  | Ret (r, g) log1 =>
      if (r =? 0)%Z then Ret (inl 1%Z) (log0 ++ log1)
      else
        let g' := force_flags (drop 2 argv) g in
        let log2 :=
          [msg_window; msg_color; msg_msaa (bool_to_string (msaa g'));
           msg_save (bool_to_string (save g'));
           msg_line_width (line_width g'); msg_frame_px (frame_px g')]
          ++ (if F32.leb (frame_px g') F32.FLT_EPSILON
              then [msg_frame_px_note] else []) in
        if renderer_ready E then
          match build_mesh E g' with
          | Ret mesh log3 => Ret (inr mesh) (log0 ++ log1 ++ log2 ++ log3)
          | Stop f => Stop f
          | Loops => Loops
          end
        else Ret (inl 1%Z) (log0 ++ log1 ++ log2)
  end.
Proof. unfold main. destruct argv as [|? [|? ?]]; reflexivity. Qed.

Lemma build_mesh_after_read (E : env) (name : cstr) (g0 g : graphdata_s)
    (args : list cstr) :
  parsed (read_undgraph E name g0) g ->
  (malloc E (8 * size g) = false /\
   build_mesh E (force_flags args g) = Stop assert_failed) \/
  exists mesh log, build_mesh E (force_flags args g) = Ret mesh log.
Proof.
  intros Hp. destruct (parsed_invariant _ _ _ _ Hp) as (Hd & Hl & _).
  destruct (size_force_flags args g) as (Hs & Hdat & _).
  destruct (build_mesh_cases E (force_flags args g) (values g)) as [H|H].
  - now rewrite Hdat.
  - now rewrite Hs.
  - left. now rewrite <- Hs.
  - right. destruct H as (mesh & log & H & _). eauto.
Qed.

(** X1: every run ends. [read_undgraph] comes to an end on every file:
    the header loop moves on by at least one character for each token and
    the two reading loops consume the file; the mesh loop of [main] ends
    too. *)
Theorem every_run_ends :
  (forall E name g0, read_undgraph E name g0 <> Loops) /\
  (forall E argv, main E argv <> Loops).
Proof.
  assert (H1 : forall E name g0, read_undgraph E name g0 <> Loops).
  { intros E name g0. pose proof (read_undgraph_cases E name g0) as H.
    destruct (fopen E name) as [[|c file]|]; try congruence.
    destruct H as [H|[[_ H]|(g1 & log & H)]]; congruence. }
  split; [exact H1|]. intros E argv. rewrite main_unfold. cbn zeta.
  specialize (H1 E (main_filename argv) graphdata).
  destruct (read_undgraph E (main_filename argv) graphdata) as [[r g] log1| |] eqn:Er;
    try congruence.
  destruct (read_undgraph_ret _ _ _ _ _ _ Er) as [->|[-> Hp]]; [discriminate|].
  cbn [Z.eqb]. destruct (renderer_ready E); [|discriminate].
  destruct (build_mesh_after_read E _ _ g (drop 2 argv) Hp)
    as [[_ H]|(mesh & log & H)]; rewrite H; discriminate.
Qed.

(** X2: when [read_undgraph] returns 0 it has logged one message and has
    left the data of the caller's structure alone: either the file did not
    open and nothing was written, or the magic word was wrong and only the
    four tag fields were set to their defaults. *)
Theorem failed_read_keeps_data (E : env) (name : cstr) (g0 g : graphdata_s)
    (log : list event) :
  read_undgraph E name g0 = Ret (0%Z, g) log ->
  size g = size g0 /\ data g = data g0 /\ max_value g = max_value g0 /\
  min_value g = min_value g0 /\ tick_size g = tick_size g0 /\
  ((fopen E name = None /\ g = g0 /\ log = [msg_strerror]) \/
   (fopen E name <> None /\ g = set_defaults g0 /\
    log = [msg_invalid_header])).
Proof.
  intros H. pose proof (read_undgraph_cases E name g0) as Hc.
  destruct (fopen E name) as [[|c file]|] eqn:Ho.
  - congruence.
  - destruct Hc as [Hc|[[_ Hc]|(g1 & l & Hc)]]; try congruence.
    rewrite Hc in H. injection H as <- <-.
    repeat split; try reflexivity. right. repeat split. discriminate.
  - rewrite Hc in H. injection H as <- <-. repeat split; try reflexivity.
    left. auto.
Qed.

Lemma failed_read_keeps_data_witness :
  size three_parsed = size three_parsed /\
  data three_parsed = data three_parsed /\
  max_value three_parsed = max_value three_parsed /\
  min_value three_parsed = min_value three_parsed /\
  tick_size three_parsed = tick_size three_parsed /\
  ((fopen {| fopen := fun _ => None; stack_tag := []; malloc := fun _ => true;
             renderer_ready := true |} (txt "missing.txt") = None /\
    three_parsed = three_parsed /\ [msg_strerror] = [msg_strerror]) \/
   (fopen {| fopen := fun _ => None; stack_tag := []; malloc := fun _ => true;
             renderer_ready := true |} (txt "missing.txt") <> None /\
    three_parsed = set_defaults three_parsed /\
    [msg_strerror] = [msg_invalid_header])).
Proof.
  apply (failed_read_keeps_data
           {| fopen := fun _ => None; stack_tag := []; malloc := fun _ => true;
              renderer_ready := true |} (txt "missing.txt")
           three_parsed three_parsed [msg_strerror]).
  reflexivity.
Defined.

(** The ways [main] stops other than by returning. *)
Lemma main_stop_cases (E : env) (argv : list cstr) (f : fault) :
  main E argv = Stop f ->
  (f = null_deref /\ fopen E (main_filename argv) = Some []) \/
  (f = assert_failed /\ exists n, malloc E n = false).
Proof.
  rewrite main_unfold. cbn zeta.
  pose proof (read_undgraph_cases E (main_filename argv) graphdata) as Hc.
  destruct (read_undgraph E (main_filename argv) graphdata) as [[r g] log1|f1|] eqn:Er.
  - destruct (read_undgraph_ret _ _ _ _ _ _ Er) as [->|[-> Hp]]; [discriminate|].
    cbn [Z.eqb]. destruct (renderer_ready E); [|discriminate].
    destruct (build_mesh_after_read E _ _ g (drop 2 argv) Hp)
      as [[Hm H]|(mesh & log & H)]; rewrite H; [|discriminate].
    intros Hf. injection Hf as <-. right. eauto.
  - intros Hf. injection Hf as <-.
    destruct (fopen E (main_filename argv)) as [[|c file]|]; try congruence.
    + left. split; congruence.
    + destruct Hc as [Hc|[[Hm Hc]|(g1 & l & Hc)]]; try congruence.
      right. split; [congruence|eauto].
  - discriminate.
Qed.

(** X3: the reads of the data buffer and of the line pointer. The mesh
    loop of [main] never reads an element of [data] that lies outside the
    buffer or that the reading loop did not write. [main] hands the null
    pointer of [fgets] to [strlen] exactly when the file opens and is
    empty, and an [assert] fails only when an allocation failed. (The
    calls of [lprintf] that lack an argument are events of the model, not
    faults, and are outside this statement.) *)
Theorem main_faults (E : env) (argv : list cstr) :
  (forall i, main E argv <> Stop (bad_read i)) /\
  (main E argv = Stop null_deref <->
   fopen E (main_filename argv) = Some []) /\
  (main E argv = Stop assert_failed -> exists n, malloc E n = false).
Proof.
  split; [|split; [split|]].
  - intros i H. apply main_stop_cases in H as [[H _]|[H _]]; discriminate.
  - intros H. apply main_stop_cases in H as [[_ H]|[H _]];
      [exact H|discriminate].
  - intros Ho. rewrite main_unfold. cbn zeta.
    unfold read_undgraph. now rewrite Ho.
  - intros H. apply main_stop_cases in H as [[H _]|[_ H]];
      [discriminate|exact H].
Qed.

(** X4: the exit status of [main] before the window opens is 1, and
    [main] returns there exactly when [read_undgraph] returned 0 or, after
    a successful read, the window, the context or the shaders could not be
    set up. *)
Theorem main_exit_status (E : env) (argv : list cstr) :
  (forall r log, main E argv = Ret (inl r) log -> r = 1%Z) /\
  ((exists r log, main E argv = Ret (inl r) log) <->
   ((exists g log1,
       read_undgraph E (main_filename argv) graphdata = Ret (0%Z, g) log1) \/
    (renderer_ready E = false /\
     exists g, parsed (read_undgraph E (main_filename argv) graphdata) g))).
Proof.
  rewrite main_unfold. cbn zeta. split; [|split].
  - intros r log.
    destruct (read_undgraph E (main_filename argv) graphdata)
      as [[r1 g] log1| |] eqn:Er; try discriminate.
    destruct (r1 =? 0)%Z; [intros H; now injection H as <- _|].
    destruct (renderer_ready E); [|intros H; now injection H as <- _].
    destruct (build_mesh E _) as [m l| |]; discriminate.
  - intros (r & log & H).
    destruct (read_undgraph E (main_filename argv) graphdata)
      as [[r1 g] log1| |] eqn:Er; try discriminate.
    destruct (read_undgraph_ret _ _ _ _ _ _ Er) as [->|[-> Hp]].
    + left. exists g, log1. reflexivity.
    + cbn [Z.eqb] in H. destruct (renderer_ready E).
      * destruct (build_mesh E _) as [m l| |]; discriminate.
      * right. split; [reflexivity|]. exists g, log1. reflexivity.
  - intros [(g & log1 & Hr)|(Hn & g & log1 & Hr)]; rewrite Hr; cbn [Z.eqb].
    + eexists _, _. reflexivity.
    + rewrite Hn. eexists _, _. reflexivity.
Qed.

(** *** Command-line flags *)

(** X5: the arguments after the file name. The word forcemsaa among them
    sets [msaa] to 1 and the word forcesave sets [save] to 1, whatever the
    header said; every other argument is ignored, and no other field
    changes. *)
Theorem force_flags_spec (args : list cstr) (g : graphdata_s) :
  msaa (force_flags args g)
  = (if existsb (fun a => str_eqb a (txt "forcemsaa")) args
     then 1%Z else msaa g) /\
  save (force_flags args g)
  = (if existsb (fun a => str_eqb a (txt "forcesave")) args
     then 1%Z else save g) /\
  line_width (force_flags args g) = line_width g /\
  frame_px (force_flags args g) = frame_px g /\
  max_value (force_flags args g) = max_value g /\
  min_value (force_flags args g) = min_value g /\
  tick_size (force_flags args g) = tick_size g /\
  size (force_flags args g) = size g /\
  data (force_flags args g) = data g.
Proof.
  revert g. induction args as [|a args IH]; intros g; cbn [force_flags existsb].
  - repeat split.
  - destruct (str_eqb a (txt "forcemsaa")) eqn:E1.
    + assert (E2 : str_eqb a (txt "forcesave") = false).
      { apply str_eqb_eq in E1. subst a. reflexivity. }
      rewrite E2. cbn [orb].
      destruct (IH (set_msaa g 1)) as (H1 & H2 & H3 & H4 & H5 & H6 & H7 & H8 & H9).
      rewrite H1, H2, H3, H4, H5, H6, H7, H8, H9.
      cbn [set_msaa msaa save line_width frame_px max_value min_value
           tick_size size data].
      repeat match goal with
      | |- context [if ?b then _ else _] => destruct b
      end; repeat split.
    + destruct (str_eqb a (txt "forcesave")) eqn:E2; cbn [orb].
      * destruct (IH (set_save g 1)) as (H1 & H2 & H3 & H4 & H5 & H6 & H7 & H8 & H9).
        rewrite H1, H2, H3, H4, H5, H6, H7, H8, H9.
        cbn [set_save msaa save line_width frame_px max_value min_value
             tick_size size data].
        repeat match goal with
        | |- context [if ?b then _ else _] => destruct b
        end; repeat split.
      * apply IH.
Qed.

(** *** The extremes of the samples *)

Lemma fold_select {A} (f : A -> A -> A) (vs : list A) (m : A) :
  (forall a v, f a v = a \/ f a v = v) ->
  fold_left f vs m = m \/ In (fold_left f vs m) vs.
Proof.
  intros Hf. revert m. induction vs as [|v vs IH]; intros m; cbn [fold_left].
  - now left.
  - destruct (IH (f m v)) as [H|H].
    + rewrite H. destruct (Hf m v) as [E|E]; rewrite E; [now left|right; now left].
    + right. now right.
Qed.

Lemma fold_invariant {A} (P : A -> Prop) (f : A -> A -> A) (vs : list A) (m : A) :
  P m -> (forall a v, P a -> In v vs -> P (f a v)) -> P (fold_left f vs m).
Proof.
  revert m. induction vs as [|v vs IH]; intros m Hm Hf; cbn [fold_left]; [exact Hm|].
  apply IH.
  - apply Hf; [assumption|now left].
  - intros a w Ha Hw. apply Hf; [assumption|now right].
Qed.

Lemma strtof_valid (s : cstr) : valid_binary 24 128 (strtof s) = true.
Proof.
  unfold strtof. destruct (scan_float s) as [r|] eqn:E; [|reflexivity].
  eapply scan_float_valid, E.
Qed.

Lemma parsed_values (E : env) (name : cstr) (g0 g : graphdata_s) :
  parsed (read_undgraph E name g0) g ->
  max_value g = running_max (values g) /\
  min_value g = running_min (values g) /\
  forall v, In v (values g) -> valid_binary 24 128 v = true.
Proof.
  intros H. apply parsed_loaded in H as (file & g1 & _ & ->).
  rewrite max_loaded, min_loaded, values_loaded. repeat split.
  intros v Hv. unfold samples in Hv. apply in_map_iff in Hv as (l & <- & _).
  apply strtof_valid.
Qed.

Lemma parsed_extremes_good (E : env) (name : cstr) (g0 g : graphdata_s) :
  parsed (read_undgraph E name g0) g ->
  good (max_value g) /\ good (min_value g) /\
  F32.leb (min_value g) F32.FLT_MAX = true.
Proof.
  intros H. destruct (parsed_values _ _ _ _ H) as (Hmax & Hmin & Hv).
  destruct (parsed_invariant _ _ _ _ H) as (_ & _ & Nmax & Nmin & _).
  repeat split; try assumption.
  - rewrite Hmax. unfold running_max.
    apply (fold_invariant (fun m => valid_binary F32.prec F32.emax m = true));
      [reflexivity|].
    intros a v Ha Hin. destruct (F32.ltb a v); [apply Hv, Hin|exact Ha].
  - rewrite Hmin. unfold running_min.
    apply (fold_invariant (fun m => valid_binary F32.prec F32.emax m = true));
      [reflexivity|].
    intros a v Ha Hin. destruct (F32.ltb v a); [apply Hv, Hin|exact Ha].
  - rewrite Hmin. unfold running_min.
    apply (fold_invariant (fun m => F32.leb m F32.FLT_MAX = true));
      [reflexivity|].
    intros a v Ha Hin. destruct (F32.ltb v a) eqn:El; [|exact Ha].
    eapply ltb_leb_trans; eauto.
Qed.

(** X6: the extremes are attained or initial. [max_value] is FLT_MIN or
    one of the samples and [min_value] is FLT_MAX or one of the samples;
    as soon as one sample is greater than FLT_MIN, [max_value] is a sample
    that no sample exceeds, and as soon as one sample is less than FLT_MAX,
    [min_value] is a sample that exceeds no sample. *)
Theorem extremes_attained (E : env) (name : cstr) (g0 g : graphdata_s) :
  parsed (read_undgraph E name g0) g ->
  (max_value g = F32.FLT_MIN \/ In (max_value g) (values g)) /\
  (min_value g = F32.FLT_MAX \/ In (min_value g) (values g)) /\
  (forall s, In s (values g) -> F32.ltb F32.FLT_MIN s = true ->
     In (max_value g) (values g) /\
     forall v, In v (values g) -> F32.ltb (max_value g) v = false) /\
  (forall s, In s (values g) -> F32.ltb s F32.FLT_MAX = true ->
     In (min_value g) (values g) /\
     forall v, In v (values g) -> F32.ltb v (min_value g) = false).
Proof.
  intros H. destruct (parsed_values _ _ _ _ H) as (Hmax & Hmin & _).
  destruct (parsed_invariant _ _ _ _ H) as (_ & _ & Hb).
  pose proof (bounds_values g Hb) as Hbv.
  assert (Amax : max_value g = F32.FLT_MIN \/ In (max_value g) (values g)).
  { rewrite Hmax at 1 2. apply fold_select.
    intros a v. destruct (F32.ltb a v); auto. }
  assert (Amin : min_value g = F32.FLT_MAX \/ In (min_value g) (values g)).
  { rewrite Hmin at 1 2. apply fold_select.
    intros a v. destruct (F32.ltb v a); auto. }
  assert (Hno : forall a b, F32.leb a b = true -> F32.ltb b a = false).
  { intros a b Hab. destruct (F32.ltb b a) eqn:Hba; [|reflexivity].
    apply leb_lex in Hab as (_ & _ & Hn). apply ltb_lex in Hba as (_ & _ & Hl).
    contradiction. }
  assert (Hnan : forall a b, F32.isnan a = true -> F32.ltb a b = false /\
                             F32.ltb b a = false).
  { intros a b Ha. destruct a; try discriminate. split; [reflexivity|].
    unfold F32.ltb, SFltb. now rewrite SFcompare_nan_r. }
  split; [exact Amax|]. split; [exact Amin|]. split.
  - intros s Hs Hlt. destruct (ltb_not_nan _ _ Hlt) as [_ Ns].
    destruct (Hbv s Hs Ns) as [_ Hle].
    pose proof (ltb_leb_ltb _ _ _ Hlt Hle) as Hm. split.
    + destruct Amax as [Em|Hin]; [|exact Hin]. rewrite Em in Hm.
      apply ltb_lex in Hm as (_ & _ & Hl). now apply lex_lt_irrefl in Hl.
    + intros v Hv. destruct (F32.isnan v) eqn:Nv.
      * exact (proj2 (Hnan v _ Nv)).
      * apply Hno. now apply Hbv.
  - intros s Hs Hlt. destruct (ltb_not_nan _ _ Hlt) as [Ns _].
    destruct (Hbv s Hs Ns) as [Hle _].
    split.
    + destruct Amin as [Em|Hin]; [|exact Hin]. rewrite Em in Hle.
      pose proof (Hno _ _ Hle). congruence.
    + intros v Hv. destruct (F32.isnan v) eqn:Nv.
      * exact (proj1 (Hnan v _ Nv)).
      * apply Hno. now apply Hbv.
Qed.

Lemma extremes_attained_witness :
  (max_value three_parsed = F32.FLT_MIN \/
   In (max_value three_parsed) (values three_parsed)) /\
  (min_value three_parsed = F32.FLT_MAX \/
   In (min_value three_parsed) (values three_parsed)) /\
  (forall s, In s (values three_parsed) -> F32.ltb F32.FLT_MIN s = true ->
     In (max_value three_parsed) (values three_parsed) /\
     forall v, In v (values three_parsed) ->
       F32.ltb (max_value three_parsed) v = false) /\
  (forall s, In s (values three_parsed) -> F32.ltb s F32.FLT_MAX = true ->
     In (min_value three_parsed) (values three_parsed) /\
     forall v, In v (values three_parsed) ->
       F32.ltb v (min_value three_parsed) = false).
Proof.
  apply (extremes_attained (env_of (file_of MAGIC three_lines)) [] graphdata).
  eexists. vm_compute. reflexivity.
Defined.

(** *** The tick size *)

Lemma abs_cases (d : float) :
  good d ->
  (exists s, F32.abs d = S754_zero s) \/
  F32.abs d = S754_infinity false \/
  exists m e, F32.abs d = S754_finite false m e /\
    valid_binary 24 128 (S754_finite false m e) = true.
Proof.
  intros [Hv Hn]. destruct d as [s|s| |s m e]; try discriminate; cbn.
  - left. eauto.
  - right; left. reflexivity.
  - right; right. eauto.
Qed.

(** X7: the tick size is never negative and never a NaN: for a series of
    fewer than 2 ^ 64 samples it is a float that is at least zero, possibly
    plus infinity. *)
Theorem tick_size_not_negative (E : env) (name : cstr) (g0 g : graphdata_s) :
  parsed (read_undgraph E name g0) g ->
  (Z.of_nat (size g) < 2 ^ 64)%Z ->
  F32.leb F32.zero (tick_size g) = true.
Proof.
  intros Hp Hn.
  destruct (parsed_extremes_good _ _ _ _ Hp) as (GM & Gm & Hm).
  destruct (parsed_invariant _ _ _ _ Hp) as (_ & Hl & _ & _ & HM & _).
  destruct (parsed_values _ _ _ _ Hp) as (Emax & Emin & _).
  assert (Ht : tick_size g
               = F32.div (F32.abs (F32.sub (max_value g) (min_value g)))
                         (F32.of_Z (Z.of_nat (size g)))).
  { destruct (parsed_loaded _ _ _ _ Hp) as (file & g1 & _ & ->).
    apply tick_size_loaded. }
  rewrite Ht.
  destruct (Nat.eq_dec (size g) 0) as [E0|E0].
  { rewrite E0. rewrite E0 in Hl. destruct (values g); [|discriminate].
    rewrite Emax, Emin. vm_compute. reflexivity. }
  assert (Gmin : good F32.FLT_MIN) by (split; reflexivity).
  assert (Gmax : good F32.FLT_MAX) by (split; reflexivity).
  apply (leb_fval _ _ Gmin GM) in HM. apply (leb_fval _ _ Gm Gmax) in Hm.
  assert (Pmin : (0 < fval F32.FLT_MIN)%Q) by (vm_compute; reflexivity).
  assert (Pmax : (fval F32.FLT_MAX < pow2 128)%Q) by (vm_compute; reflexivity).
  pose proof (pow2_pos 128) as P128.
  set (M := max_value g) in *. set (m := min_value g) in *.
  assert (Gd : good (F32.sub M m)).
  { destruct (good_cases M GM) as [FM|[EM|EM]];
    destruct (good_cases m Gm) as [Fm|[Em|Em]].
    - eapply rounds_good, sub_rounds; assumption.
    - rewrite Em in Hm. cbn [fval fsign] in Hm. lra.
    - rewrite Em. destruct M; try discriminate; split; reflexivity.
    - rewrite EM. destruct m; try discriminate; split; reflexivity.
    - rewrite Em in Hm. cbn [fval fsign] in Hm. lra.
    - rewrite EM, Em. split; reflexivity.
    - rewrite EM in HM. cbn [fval fsign] in HM. lra.
    - rewrite EM in HM. cbn [fval fsign] in HM. lra.
    - rewrite EM in HM. cbn [fval fsign] in HM. lra. }
  destruct (of_Z_finite (Z.of_nat (size g)) ltac:(lia)) as (GN & FN & _).
  assert (HN : (0 < fval (F32.of_Z (Z.of_nat (size g))))%Q).
  { pose proof (of_Z_mono 1 (Z.of_nat (size g)) ltac:(lia)) as H1.
    assert (H2 : (0 < fval (F32.of_Z 1))%Q) by (vm_compute; reflexivity). lra. }
  set (N := F32.of_Z (Z.of_nat (size g))) in *.
  destruct (positive_finite N GN FN HN) as (mN & eN & EN).
  assert (Gz : good F32.zero) by (split; reflexivity).
  destruct (abs_cases _ Gd) as [[s Ea]|[Ea|(ma & ea & Ea & Va)]].
  - rewrite Ea, EN. destruct s; reflexivity.
  - rewrite Ea, EN. reflexivity.
  - assert (Ga : good (F32.abs (F32.sub M m)))
      by (rewrite Ea; split; [exact Va|reflexivity]).
    assert (Fa : F32.isfinite (F32.abs (F32.sub M m)) = true)
      by (rewrite Ea; reflexivity).
    pose proof (div_rounds _ _ Ga GN Fa FN ltac:(lra)) as Hr.
    apply leb_fval; [assumption|eapply rounds_good, Hr|].
    apply (rounds_nonneg _ _ Hr).
    assert (Ha0 : (0 < fval (F32.abs (F32.sub M m)))%Q).
    { rewrite Ea. cbn [fval fsign]. rewrite <- Qmult_assoc, Qmult_1_l.
      apply finite_pos. }
    assert (Hinv : (0 < / fval N)%Q) by now apply Qinv_lt_0_compat.
    unfold Qdiv. apply Qmult_le_0_compat; lra.
Qed.

Lemma tick_size_not_negative_witness :
  F32.leb F32.zero (tick_size three_parsed) = true.
Proof.
  apply (tick_size_not_negative (env_of (file_of MAGIC three_lines)) []
           graphdata).
  - eexists. vm_compute. reflexivity.
  - vm_compute. reflexivity.
Defined.

(** *** The frame inside the padding *)

(** The side of the canvas less twice the padding: when twice the padding
    is finite and below the side [W], it is a finite float that is not
    negative. *)
Lemma frame_inner (fp : float) (W : Z) :
  (0 <= W < 2 ^ 64)%Z ->
  F32.sub (F32.of_Z W) (SFopp F32.FLT_MAX) = F32.FLT_MAX ->
  valid_binary 24 128 fp = true ->
  F32.ltb (F32.mul (F32.of_Z 2) fp) (F32.of_Z W) = true ->
  F32.isinf (F32.mul (F32.of_Z 2) fp) = false ->
  good fp /\ F32.isfinite fp = true /\
  good (F32.sub (F32.of_Z W) (F32.mul (F32.of_Z 2) fp)) /\
  F32.isfinite (F32.sub (F32.of_Z W) (F32.mul (F32.of_Z 2) fp)) = true /\
  (0 <= fval (F32.sub (F32.of_Z W) (F32.mul (F32.of_Z 2) fp)))%Q.
Proof.
  intros HW Em Hv Hlt Hinf.
  assert (E2 : F32.of_Z 2 = S754_finite false 8388608 (-22))
    by (vm_compute; reflexivity).
  assert (Hfp : good fp /\ F32.isfinite fp = true).
  { destruct fp as [s|s| |s m e].
    - split; [split|]; reflexivity.
    - rewrite E2 in Hinf. destruct s; cbn in Hinf; discriminate.
    - rewrite E2 in Hlt. cbn in Hlt. discriminate.
    - split; [split; [assumption|]|]; reflexivity. }
  destruct Hfp as [Gfp Ffp]. split; [assumption|]. split; [assumption|].
  destruct (of_Z_finite 2 ltac:(lia)) as (G2 & F2 & _).
  pose proof (mul_rounds _ _ G2 Gfp F2 Ffp) as Rt.
  set (t := F32.mul (F32.of_Z 2) fp) in *.
  pose proof (rounds_good _ _ Rt) as Gt.
  assert (Ft : F32.isfinite t = true).
  { destruct (good_cases t Gt) as [H|[H|H]]; [assumption| |];
      rewrite H in Hinf; discriminate. }
  destruct (of_Z_finite W HW) as (GW & FW & _).
  apply (ltb_fval _ _ Gt GW) in Hlt.
  pose proof (sub_rounds _ _ GW Gt FW Ft) as Rw.
  set (w := F32.sub (F32.of_Z W) t) in *.
  pose proof (rounds_good _ _ Rw) as Gw.
  assert (Hw0 : (0 <= fval w)%Q) by (apply (rounds_nonneg _ _ Rw); lra).
  split; [assumption|]. split; [|assumption].
  apply range_finite; [assumption|].
  assert (Gm : good (SFopp F32.FLT_MAX)) by (split; reflexivity).
  pose proof (sub_rounds _ _ GW Gm FW eq_refl) as Rm.
  rewrite Em in Rm.
  assert (Eo : (fval (SFopp F32.FLT_MAX) == - fval F32.FLT_MAX)%Q)
    by (cbn [fval SFopp F32.FLT_MAX negb fsign]; ring).
  destruct (finite_le_max t Gt Ft) as [Ht1 Ht2].
  assert (Hle : (fval w <= fval F32.FLT_MAX)%Q).
  { apply (rounds_mono _ _ _ _ Rw Rm). lra. }
  assert (Hmax : (fval F32.FLT_MAX < pow2 128)%Q) by (vm_compute; reflexivity).
  pose proof (pow2_pos 128). lra.
Qed.

Lemma add_zero_value (fp : float) (s : bool) :
  good fp -> F32.isfinite fp = true ->
  good (F32.add fp (S754_zero s)) /\
  (fval (F32.add fp (S754_zero s)) == fval fp)%Q.
Proof.
  intros G F. destruct fp as [s'|s'| |s' m e]; try discriminate.
  - destruct s', s; cbn; split; try reflexivity; split; reflexivity.
  - cbn [F32.add SFadd]. split; [assumption|reflexivity].
Qed.

(** The sum of the padding and a float that is not negative is at least
    the padding. *)
Lemma add_not_below (fp z : float) :
  good fp -> F32.isfinite fp = true -> good z -> (0 <= fval z)%Q ->
  good (F32.add fp z) /\ (fval fp <= fval (F32.add fp z))%Q.
Proof.
  intros G F Gz Hz.
  destruct (lift_mono (fun a => F32.add fp a) (fun u => fval fp + u)%Q
              (S754_zero false) z) as (_ & Gx & Hx); try assumption.
  - intros a Ga Fa _. now apply add_rounds.
  - destruct fp as [s|s| |s m e]; try discriminate; reflexivity.
  - intros u v _ Huv. lra.
  - split; reflexivity.
  - cbn [fval]. lra.
  - split; [assumption|].
    destruct (add_zero_value fp false G F) as [_ E]. now rewrite <- E.
Qed.

(** The offset of sample [i] from the padding: a float that is not
    negative. *)
Lemma spec_x_offset (fp : float) (n i : nat) :
  valid_binary 24 128 fp = true ->
  (Z.of_nat n < 2 ^ 64)%Z ->
  F32.ltb (F32.mul (F32.of_Z 2) fp) (F32.of_Z 1152) = true ->
  F32.isinf (F32.mul (F32.of_Z 2) fp) = false ->
  i < n ->
  good (F32.div
          (F32.mul (F32.of_Z (Z.of_nat i))
             (F32.sub (F32.of_Z 1152) (F32.mul (F32.of_Z 2) fp)))
          (F32.of_Z (Z.of_nat n))) /\
  (0 <= fval (F32.div
                (F32.mul (F32.of_Z (Z.of_nat i))
                   (F32.sub (F32.of_Z 1152) (F32.mul (F32.of_Z 2) fp)))
                (F32.of_Z (Z.of_nat n))))%Q.
Proof.
  intros Hv Hn Hlt Hinf Hi.
  destruct (frame_inner fp 1152 ltac:(lia) ltac:(vm_compute; reflexivity)
              Hv Hlt Hinf) as (Gfp & Ffp & Gw & Fw & Hw0).
  set (w := F32.sub (F32.of_Z 1152) (F32.mul (F32.of_Z 2) fp)) in *.
  destruct (of_Z_finite (Z.of_nat i) ltac:(lia)) as (Gi & Fi & Hi0).
  destruct (of_Z_finite (Z.of_nat n) ltac:(lia)) as (GN & FN & _).
  assert (HN : (0 < fval (F32.of_Z (Z.of_nat n)))%Q).
  { pose proof (of_Z_mono 1 (Z.of_nat n) ltac:(lia)) as H1.
    assert (H2 : (0 < fval (F32.of_Z 1))%Q) by (vm_compute; reflexivity). lra. }
  set (N := F32.of_Z (Z.of_nat n)) in *.
  pose proof (mul_rounds _ _ Gi Gw Fi Fw) as Rp.
  set (p := F32.mul (F32.of_Z (Z.of_nat i)) w) in *.
  pose proof (rounds_good _ _ Rp) as Gp.
  assert (Hp0 : (0 <= fval p)%Q).
  { apply (rounds_nonneg _ _ Rp). now apply Qmult_le_0_compat. }
  destruct (positive_finite N GN FN HN) as (mN & eN & EN).
  assert (Hinv : (0 < / fval N)%Q) by now apply Qinv_lt_0_compat.
  destruct (good_cases p Gp) as [Fp|[Ep|Ep]].
  - pose proof (div_rounds _ _ Gp GN Fp FN ltac:(lra)) as Rz.
    split; [eapply rounds_good, Rz|].
    apply (rounds_nonneg _ _ Rz). unfold Qdiv. apply Qmult_le_0_compat; lra.
  - rewrite Ep, EN. cbn [F32.div SFdiv xorb]. split; [split; reflexivity|].
    cbn [fval fsign]. pose proof (pow2_pos 128). lra.
  - rewrite Ep in Hp0. cbn [fval fsign] in Hp0. pose proof (pow2_pos 128). lra.
Qed.

Lemma spec_x_first (fp : float) (n : nat) :
  valid_binary 24 128 fp = true ->
  (Z.of_nat n < 2 ^ 64)%Z ->
  F32.ltb (F32.mul (F32.of_Z 2) fp) (F32.of_Z 1152) = true ->
  F32.isinf (F32.mul (F32.of_Z 2) fp) = false ->
  0 < n ->
  good (spec_x fp n 0) /\ (fval (spec_x fp n 0) == fval fp)%Q.
Proof.
  intros Hv Hn Hlt Hinf Hi.
  destruct (frame_inner fp 1152 ltac:(lia) ltac:(vm_compute; reflexivity)
              Hv Hlt Hinf) as (Gfp & Ffp & Gw & Fw & Hw0).
  unfold spec_x.
  set (w := F32.sub (F32.of_Z 1152) (F32.mul (F32.of_Z 2) fp)) in *.
  destruct (of_Z_finite (Z.of_nat n) ltac:(lia)) as (GN & FN & _).
  assert (HN : (0 < fval (F32.of_Z (Z.of_nat n)))%Q).
  { pose proof (of_Z_mono 1 (Z.of_nat n) ltac:(lia)) as H1.
    assert (H2 : (0 < fval (F32.of_Z 1))%Q) by (vm_compute; reflexivity). lra. }
  destruct (positive_finite _ GN FN HN) as (mN & eN & EN). rewrite EN.
  change (F32.of_Z (Z.of_nat 0)) with (S754_zero false).
  assert (Ez : exists s, F32.div (F32.mul (S754_zero false) w)
                           (S754_finite false mN eN) = S754_zero s).
  { destruct w as [s|s| |s m e]; try discriminate; cbn; eauto. }
  destruct Ez as [s Ez]. rewrite Ez. now apply add_zero_value.
Qed.

(** X8: the polyline starts at the left padding and stays right of it.
    For a series of fewer than 2 ^ 64 samples and a padding with
    canvasWidth > 2 * framePadding, 2 * framePadding finite, the x of the
    first vertex of the mesh of [main] equals framePadding and the x of
    every vertex is at least framePadding. *)
Theorem mesh_x_from_padding (E : env) (argv : list cstr)
    (mesh : list (option vec2_t)) (log : list event) (g : graphdata_s)
    (i : nat) :
  main E argv = Ret (inr mesh) log ->
  parsed (read_undgraph E (main_filename argv) graphdata) g ->
  (Z.of_nat (size g) < 2 ^ 64)%Z ->
  F32.ltb (F32.mul (F32.of_Z 2) (frame_px g)) (F32.of_Z 1152) = true ->
  F32.isinf (F32.mul (F32.of_Z 2) (frame_px g)) = false ->
  i < size g ->
  exists p0 p,
    mesh !! 0 = Some (Some p0) /\ mesh !! i = Some (Some p) /\
    SFcompare p0.1 (frame_px g) = Some Eq /\
    F32.leb (frame_px g) p.1 = true.
Proof.
  intros Hm Hp Hn Hlt Hinf Hi.
  pose proof (parsed_frame_px_valid _ _ _ _ Hp) as Hv.
  destruct (main_mesh_x E argv mesh log g Hm Hp 0 ltac:(lia)) as (p0 & H0 & E0).
  destruct (main_mesh_x E argv mesh log g Hm Hp i Hi) as (p & Hpi & Ep).
  exists p0, p. split; [assumption|]. split; [assumption|].
  destruct (frame_inner (frame_px g) 1152 ltac:(lia) ltac:(vm_compute; reflexivity)
              Hv Hlt Hinf) as (Gfp & Ffp & _).
  split.
  - rewrite E0.
    destruct (spec_x_first (frame_px g) (size g) Hv Hn Hlt Hinf ltac:(lia))
      as [G0 V0].
    rewrite (SFcompare_fval _ _ G0 Gfp). f_equal.
    apply (proj1 (Qeq_alt _ _)). exact V0.
  - rewrite Ep. unfold spec_x.
    destruct (spec_x_offset (frame_px g) (size g) i Hv Hn Hlt Hinf Hi) as [Gz Hz].
    destruct (add_not_below (frame_px g) _ Gfp Ffp Gz Hz) as [Gx Hx].
    apply leb_fval; assumption.
Qed.

Lemma mesh_x_from_padding_witness :
  exists p0 p,
    [Some (S754_zero false, S754_finite false 14155776 (-16));
     Some (S754_finite false 12582912 (-15),
           S754_finite false 14155776 (-15));
     Some (S754_finite false 12582912 (-14),
           S754_finite false 10616832 (-14))] !! 0 = Some (Some p0) /\
    [Some (S754_zero false, S754_finite false 14155776 (-16));
     Some (S754_finite false 12582912 (-15),
           S754_finite false 14155776 (-15));
     Some (S754_finite false 12582912 (-14),
           S754_finite false 10616832 (-14))] !! 2 = Some (Some p) /\
    SFcompare p0.1 (frame_px three_parsed) = Some Eq /\
    F32.leb (frame_px three_parsed) p.1 = true.
Proof.
  eapply (mesh_x_from_padding (env_of (file_of MAGIC three_lines))
            [txt "undgraph"; txt "three.txt"] _ _ three_parsed 2).
  - vm_compute. reflexivity.
  - eexists. vm_compute. reflexivity.
  - vm_compute. reflexivity.
  - vm_compute. reflexivity.
  - vm_compute. reflexivity.
  - vm_compute. lia.
Defined.

(** *** The y coordinates *)

Lemma main_mesh_vertex (E : env) (argv : list cstr)
    (mesh : list (option vec2_t)) (log : list event) (g : graphdata_s)
    (i : nat) (v : float) :
  main E argv = Ret (inr mesh) log ->
  parsed (read_undgraph E (main_filename argv) graphdata) g ->
  values g !! i = Some v ->
  mesh !! i = Some (Some (spec_x (frame_px g) (size g) i,
                          spec_y (frame_px g) (max_value g) v)).
Proof.
  intros H [log1 Hg] Hv. apply main_mesh in H as (g2 & log3 & [log2 Hp] & Hb).
  assert (Eg : g2 = g) by congruence. subst g2.
  assert (Hp' : parsed (read_undgraph E (main_filename argv) graphdata) g)
    by (eexists; exact Hg).
  destruct (parsed_invariant _ _ _ _ Hp') as (Hd & Hl & _).
  set (g' := force_flags (drop 2 argv) g) in *.
  destruct (size_force_flags (drop 2 argv) g) as (Hs & Hdat & Hfp & Hmax).
  fold g' in Hs, Hdat, Hfp, Hmax.
  destruct (build_mesh_cases E g' (values g)) as [[_ Hf]|(m & l & Hr & _ & Hall)].
  - now rewrite Hdat.
  - now rewrite Hs.
  - congruence.
  - assert (Em : m = mesh) by congruence. subst m.
    etransitivity; [exact (Hall i v Hv)|].
    unfold vertex. rewrite mesh_x_spec, mesh_y_spec, Hs, Hfp, Hmax. reflexivity.
Qed.

(** The quotient of a sample that is finite and not negative by the
    maximum lies between 0 and 1. *)
Lemma sample_ratio (v M : float) :
  good v -> F32.isfinite v = true -> (0 <= fval v)%Q ->
  good M -> (0 < fval M)%Q -> (fval v <= fval M)%Q ->
  good (F32.div v M) /\ F32.isfinite (F32.div v M) = true /\
  (0 <= fval (F32.div v M) <= 1)%Q.
Proof.
  intros Gv Fv Hv0 GM HM Hle. pose proof (pow2_pos 128) as P128.
  destruct (good_cases M GM) as [FM|[EM|EM]].
  - pose proof (div_rounds _ _ Gv GM Fv FM ltac:(lra)) as Rq.
    pose proof (rounds_good _ _ Rq) as Gq.
    assert (Hinv : (0 < / fval M)%Q) by now apply Qinv_lt_0_compat.
    assert (H0 : (0 <= fval v / fval M)%Q)
      by (unfold Qdiv; apply Qmult_le_0_compat; lra).
    assert (H1 : (fval v / fval M <= 1)%Q).
    { apply Qle_shift_div_r; [assumption|]. lra. }
    assert (Gone : good F32.one) by (split; reflexivity).
    pose proof (good_rounds F32.one Gone eq_refl) as R1.
    assert (E1 : (fval F32.one == 1)%Q) by (vm_compute; reflexivity).
    assert (Hq0 : (0 <= fval (F32.div v M))%Q) by (apply (rounds_nonneg _ _ Rq H0)).
    assert (Hq1 : (fval (F32.div v M) <= 1)%Q).
    { rewrite <- E1. apply (rounds_mono _ _ _ _ Rq R1). now rewrite E1. }
    split; [assumption|]. split; [|split; assumption].
    apply range_finite; [assumption|].
    assert (1 < pow2 128)%Q by (vm_compute; reflexivity). lra.
  - rewrite EM. destruct v as [s|s| |s m e]; try discriminate; cbn;
      (split; [split; reflexivity|]); (split; [reflexivity|]); cbn; lra.
  - rewrite EM in HM. cbn [fval fsign] in HM. lra.
Qed.

(** X9: a sample that is finite and not negative is drawn inside the
    frame. For a padding with canvasHeight > 2 * framePadding,
    2 * framePadding finite, the y of its vertex in the mesh of [main] is
    at least framePadding and at most
    framePadding + (648 - 2 * framePadding). *)
Theorem mesh_y_in_frame (E : env) (argv : list cstr)
    (mesh : list (option vec2_t)) (log : list event) (g : graphdata_s)
    (i : nat) (v : float) :
  main E argv = Ret (inr mesh) log ->
  parsed (read_undgraph E (main_filename argv) graphdata) g ->
  F32.ltb (F32.mul (F32.of_Z 2) (frame_px g)) (F32.of_Z 648) = true ->
  F32.isinf (F32.mul (F32.of_Z 2) (frame_px g)) = false ->
  values g !! i = Some v ->
  F32.isfinite v = true -> F32.leb F32.zero v = true ->
  exists p, mesh !! i = Some (Some p) /\
    F32.leb (frame_px g) p.2 = true /\
    F32.leb p.2
      (F32.add (frame_px g)
         (F32.sub (F32.of_Z 648) (F32.mul (F32.of_Z 2) (frame_px g))))
    = true.
Proof.
  intros Hm Hp Hlt Hinf Hi Fv Hv0.
  eexists. split; [exact (main_mesh_vertex E argv mesh log g i v Hm Hp Hi)|].
  cbn [snd]. unfold spec_y.
  pose proof (parsed_frame_px_valid _ _ _ _ Hp) as Hval.
  destruct (frame_inner (frame_px g) 648 ltac:(lia) ltac:(vm_compute; reflexivity)
              Hval Hlt Hinf) as (Gfp & Ffp & Gh & Fh & Hh0).
  set (h := F32.sub (F32.of_Z 648) (F32.mul (F32.of_Z 2) (frame_px g))) in *.
  set (fp := frame_px g) in *.
  assert (Hin : In v (values g)).
  { apply list_elem_of_In. eapply list_elem_of_lookup_2, Hi. }
  destruct (parsed_values _ _ _ _ Hp) as (_ & _ & Hvalid).
  assert (Gv : good v).
  { split; [apply Hvalid, Hin|]. destruct v; try discriminate; reflexivity. }
  destruct (parsed_extremes_good _ _ _ _ Hp) as (GM & _ & _).
  destruct (parsed_invariant _ _ _ _ Hp) as (_ & _ & Hb).
  destruct (bounds_values g Hb v Hin (proj2 Gv)) as [_ HvM].
  destruct Hb as (_ & _ & HM & _).
  assert (Gmin : good F32.FLT_MIN) by (split; reflexivity).
  assert (Gz : good F32.zero) by (split; reflexivity).
  apply (leb_fval _ _ Gmin GM) in HM. apply (leb_fval _ _ Gv GM) in HvM.
  apply (leb_fval _ _ Gz Gv) in Hv0. cbn [fval F32.zero] in Hv0.
  assert (Pmin : (0 < fval F32.FLT_MIN)%Q) by (vm_compute; reflexivity).
  destruct (sample_ratio v (max_value g) Gv Fv Hv0 GM ltac:(lra) HvM)
    as (Gq & Fq & Hq0 & Hq1).
  set (q := F32.div v (max_value g)) in *.
  pose proof (mul_rounds _ _ Gq Gh Fq Fh) as Rr.
  pose proof (rounds_good _ _ Rr) as Gr.
  pose proof (good_rounds h Gh Fh) as Rh.
  assert (Hr0 : (0 <= fval (F32.mul q h))%Q).
  { apply (rounds_nonneg _ _ Rr). now apply Qmult_le_0_compat. }
  assert (Hr1 : (fval (F32.mul q h) <= fval h)%Q).
  { apply (rounds_mono _ _ _ _ Rr Rh).
    rewrite <- (Qmult_1_l (fval h)) at 2. now apply Qmult_le_compat_r. }
  set (r := F32.mul q h) in *.
  assert (Fr : F32.isfinite r = true).
  { apply range_finite; [assumption|].
    destruct (finite_range h Gh Fh). pose proof (pow2_pos 128). lra. }
  destruct (add_not_below fp r Gfp Ffp Gr Hr0) as [Gy Hy].
  split; [apply leb_fval; assumption|].
  pose proof (add_rounds _ _ Gfp Gr Ffp Fr) as Ry.
  pose proof (add_rounds _ _ Gfp Gh Ffp Fh) as Rtop.
  apply leb_fval; [assumption|eapply rounds_good, Rtop|].
  apply (rounds_mono _ _ _ _ Ry Rtop). lra.
Qed.

Lemma mesh_y_in_frame_witness :
  exists p,
    [Some (S754_zero false, S754_finite false 14155776 (-16));
     Some (S754_finite false 12582912 (-15),
           S754_finite false 14155776 (-15));
     Some (S754_finite false 12582912 (-14),
           S754_finite false 10616832 (-14))] !! 1 = Some (Some p) /\
    F32.leb (frame_px three_parsed) p.2 = true /\
    F32.leb p.2
      (F32.add (frame_px three_parsed)
         (F32.sub (F32.of_Z 648)
            (F32.mul (F32.of_Z 2) (frame_px three_parsed))))
    = true.
Proof.
  eapply (mesh_y_in_frame (env_of (file_of MAGIC three_lines))
            [txt "undgraph"; txt "three.txt"] _ _ three_parsed 1
            (S754_finite false 8388608 (-22))).
  - vm_compute. reflexivity.
  - eexists. vm_compute. reflexivity.
  - vm_compute. reflexivity.
  - vm_compute. reflexivity.
  - vm_compute. reflexivity.
  - vm_compute. reflexivity.
  - vm_compute. reflexivity.
Defined.

(** *** The warnings of the mesh loop *)

Lemma mesh_loop_log (g : graphdata_s) (vs : list float) :
  data g = map Some vs -> length vs = size g ->
  forall fuel i mesh log mesh' log',
    i <= size g ->
    mesh_loop fuel g i mesh log = Ret mesh' log' ->
    log' = log ++ warnings_from g i (drop i vs).
Proof.
  intros Hd Hl. induction fuel as [|fuel IH]; intros i mesh log mesh' log' Hi;
    [discriminate|].
  cbn [mesh_loop]. destruct (Nat.ltb_spec i (size g)) as [Hlt|Hge].
  - destruct (lookup_lt_is_Some_2 vs i) as [v Hv]; [lia|].
    rewrite Hd, lookup_map, Hv. cbn [option_map]. intros H.
    apply IH in H; [|lia]. rewrite H.
    rewrite (drop_S vs v i Hv). cbn [warnings_from]. unfold vertex_warnings.
    now rewrite <- !app_assoc.
  - intros H. injection H as _ <-. rewrite drop_ge by lia.
    cbn [warnings_from]. now rewrite app_nil_r.
Qed.

Lemma in_warnings_from (g : graphdata_s) (e : event) (vs : list float) (i : nat) :
  In e (warnings_from g i vs) <->
  exists k v, vs !! k = Some v /\ In e (vertex_warnings g (i + k) v).
Proof.
  revert i. induction vs as [|w vs IH]; intros i; cbn [warnings_from].
  - split; [contradiction|]. intros (k & v & H & _). discriminate.
  - rewrite in_app_iff, IH. split.
    + intros [H|(k & v & Hk & H)].
      * exists 0, w. rewrite Nat.add_0_r. auto.
      * exists (S k), v. replace (i + S k) with (S i + k) by lia. auto.
    + intros ([|k] & v & Hk & H).
      * left. cbn in Hk. injection Hk as ->. now rewrite Nat.add_0_r in H.
      * right. exists k, v. replace (S i + k) with (i + S k) by lia. auto.
Qed.

Lemma in_vertex_warning (e : event) (i axis : nat) (c : float) :
  In e (vertex_warning i axis c) <->
  (e = msg_vertex_inf i axis /\ F32.isinf c = true) \/
  (e = msg_vertex_nan i axis /\ F32.isnan c = true).
Proof.
  unfold vertex_warning. destruct c as [s|s| |s m e']; cbn; intuition congruence.
Qed.

Lemma header_tags_log (fuel : nat) (line : cstr) (i lp nc : nat)
    (g g1 : graphdata_s) (log log1 : list event) :
  header_tags fuel line i lp nc g log = Some (g1, log1) ->
  exists tags, log1 = log ++ map msg_unknown_tag tags.
Proof.
  revert lp nc g log. induction fuel as [|fuel IH]; intros lp nc g log;
    [discriminate|].
  cbn [header_tags].
  destruct (lp <? i);
    [|intros H; injection H as _ <-; exists []; now rewrite app_nil_r].
  destruct (sscanf_s31_n _) as [[tag nc']|];
    [|intros H; injection H as _ <-; exists []; now rewrite app_nil_r].
  destruct (header_tag tag g) as [g' w] eqn:Ht. intros H.
  apply IH in H as [tags ->].
  assert (Hw : w = [] \/ w = [msg_unknown_tag tag]).
  { unfold header_tag in Ht.
    repeat match type of Ht with
    | (if ?b then _ else _) = _ => destruct b
    end; injection Ht as _ <-; auto. }
  destruct Hw as [->| ->].
  - exists tags. now rewrite app_nil_r.
  - exists (tag :: tags). now rewrite <- app_assoc.
Qed.

(** The messages of [read_undgraph]: an error message alone, or the
    warnings about unknown tags followed by the number of values. *)
Lemma read_undgraph_log (E : env) (name : cstr) (g0 g : graphdata_s) (r : Z)
    (log : list event) :
  read_undgraph E name g0 = Ret (r, g) log ->
  (r = 0%Z /\ (log = [msg_strerror] \/ log = [msg_invalid_header])) \/
  (r = 1%Z /\ exists tags,
     log = map msg_unknown_tag tags ++ [msg_found (size g)]).
Proof.
  intros H. destruct (fopen E name) as [file|] eqn:Ho.
  - destruct (fgets 64 file) as [[line fp]|] eqn:Hg.
    + rewrite (read_undgraph_open E name file line fp g0 Ho Hg) in H.
      destruct (str_eqb _ _).
      * destruct (header_of line g0) as [[g1 l1]|] eqn:Hh; [|discriminate].
        destruct (malloc E _); [|discriminate].
        injection H as <- <- <-. right. split; [reflexivity|].
        unfold header_of in Hh. apply header_tags_log in Hh as [tags ->].
        exists tags. now rewrite size_loaded.
      * injection H as <- _ <-. left. auto.
    + unfold read_undgraph in H. rewrite Ho, Hg in H. discriminate.
  - unfold read_undgraph in H. rewrite Ho in H. injection H as <- _ <-.
    left. auto.
Qed.

Lemma no_vertex_event_in (e : event) (l : list event) :
  Forall (fun x => is_vertex_event x = false) l ->
  is_vertex_event e = true -> ~ In e l.
Proof.
  intros Hl He Hin. rewrite List.Forall_forall in Hl. apply Hl in Hin. congruence.
Qed.

(** The log of a run that reaches the mesh: what comes before the mesh
    loop holds no warning about a vertex, and the mesh loop logs the
    warnings of the samples in order. *)
Lemma main_log (E : env) (argv : list cstr) (mesh : list (option vec2_t))
    (log : list event) :
  main E argv = Ret (inr mesh) log ->
  exists g pre,
    parsed (read_undgraph E (main_filename argv) graphdata) g /\
    Forall (fun x => is_vertex_event x = false) pre /\
    log = pre ++ warnings_from (force_flags (drop 2 argv) g) 0 (values g) /\
    length mesh = size g /\
    forall j v, values g !! j = Some v ->
      mesh !! j = Some (Some (vertex (force_flags (drop 2 argv) g) j v)).
Proof.
  rewrite main_unfold. cbn zeta.
  destruct (read_undgraph E (main_filename argv) graphdata) as [[r g] log1| |] eqn:Er;
    try discriminate.
  destruct (read_undgraph_ret _ _ _ _ _ _ Er) as [->|[-> Hp]]; [discriminate|].
  cbn [Z.eqb]. destruct (renderer_ready E); [|discriminate].
  destruct (parsed_invariant _ _ _ _ Hp) as (Hd & Hl & _).
  set (g' := force_flags (drop 2 argv) g) in *.
  destruct (size_force_flags (drop 2 argv) g) as (Hs & Hdat & _).
  fold g' in Hs, Hdat.
  assert (Hd' : data g' = map Some (values g)) by (now rewrite Hdat).
  assert (Hl' : length (values g) = size g') by (now rewrite Hs).
  destruct (build_mesh_cases E g' (values g) Hd' Hl')
    as [[_ Hf]|(m & l & Hr & Hlen & Hall)]; [rewrite Hf; discriminate|].
  rewrite Hr. intros H. injection H as <- <-.
  unfold build_mesh in Hr. destruct (malloc E _); [|discriminate].
  apply (mesh_loop_log g' (values g) Hd' Hl') in Hr; [|lia].
  cbn [app] in Hr. rewrite drop_0 in Hr. subst l.
  destruct (read_undgraph_log _ _ _ _ _ _ Er) as [[? _]|[_ [tags ->]]];
    [discriminate|].
  exists g,
    (match argv with
     | _ :: f :: _ => [msg_reading f]
     | _ => [msg_default_file]
     end ++ (map msg_unknown_tag tags ++ [msg_found (size g)]) ++
     ([msg_window; msg_color; msg_msaa (bool_to_string (msaa g'));
       msg_save (bool_to_string (save g'));
       msg_line_width (line_width g'); msg_frame_px (frame_px g')]
      ++ (if F32.leb (frame_px g') F32.FLT_EPSILON
          then [msg_frame_px_note] else []))).
  split; [eexists; reflexivity|]. split; [|split; [|split]].
  - repeat (apply Forall_app; split).
    + destruct argv as [|? [|? ?]]; repeat constructor.
    + apply List.Forall_forall. intros x Hx.
      apply in_map_iff in Hx as (t & <- & _). reflexivity.
    + repeat constructor.
    + repeat constructor.
    + destruct (F32.leb _ _); repeat constructor.
  - now rewrite <- !app_assoc.
  - congruence.
  - exact Hall.
Qed.

(** X10: the warnings about vertices say which coordinates are not
    finite. In a run of [main] that reaches the mesh, a warning
    "vertex[i].x = infinity" (or nan, or .y) is logged exactly when that
    coordinate of vertex [i] is an infinity (or a NaN); a mesh without
    warnings has finite coordinates only. *)
Theorem vertex_warnings_exact (E : env) (argv : list cstr)
    (mesh : list (option vec2_t)) (log : list event) (i : nat) (x y : float) :
  main E argv = Ret (inr mesh) log ->
  mesh !! i = Some (Some (x, y)) ->
  (In (msg_vertex_inf i 0) log <-> F32.isinf x = true) /\
  (In (msg_vertex_nan i 0) log <-> F32.isnan x = true) /\
  (In (msg_vertex_inf i 1) log <-> F32.isinf y = true) /\
  (In (msg_vertex_nan i 1) log <-> F32.isnan y = true).
Proof.
  intros Hm Hi. apply main_log in Hm as (g & pre & Hp & Hpre & -> & Hlen & Hall).
  set (g' := force_flags (drop 2 argv) g) in *.
  destruct (parsed_invariant _ _ _ _ Hp) as (_ & Hl & _).
  destruct (lookup_lt_is_Some_2 (values g) i) as [v Hv].
  { apply lookup_lt_Some in Hi. rewrite Hl, <- Hlen. exact Hi. }
  assert (Hiv : Some (Some (x, y)) = Some (Some (vertex g' i v)))
    by (etransitivity; [symmetry; exact Hi|exact (Hall i v Hv)]).
  injection Hiv as Hx Hy.
  assert (Hin : forall e, is_vertex_event e = true ->
            (In e (pre ++ warnings_from g' 0 (values g)) <->
             exists k w, values g !! k = Some w /\
               In e (vertex_warnings g' k w))).
  { intros e He. rewrite in_app_iff, in_warnings_from. split.
    - intros [H|H]; [now apply no_vertex_event_in in H|exact H].
    - intros H. right. exact H. }
  assert (Hone : forall e a,
            (e = msg_vertex_inf i a \/ e = msg_vertex_nan i a) ->
            ((exists k w, values g !! k = Some w /\
                In e (vertex_warnings g' k w)) <->
             In e (vertex_warnings g' i v))).
  { intros e a He. split.
    - intros (k & w & Hk & H). assert (k = i); [|subst k].
      { unfold vertex_warnings in H. rewrite in_app_iff, !in_vertex_warning in H.
        destruct He as [-> | ->]; destruct H as [[[H _]|[H _]]|[[H _]|[H _]]];
          congruence. }
      rewrite Hv in Hk. now injection Hk as ->.
    - intros H. exists i, v. auto. }
  assert (Hkey : forall e a,
            (e = msg_vertex_inf i a \/ e = msg_vertex_nan i a) ->
            (In e (pre ++ warnings_from g' 0 (values g)) <->
             In e (vertex_warning i 0 (mesh_x g' i)
                   ++ vertex_warning i 1 (mesh_y g' v)))).
  { intros e a He. etransitivity; [|exact (Hone e a He)].
    apply Hin. destruct He as [-> | ->]; reflexivity. }
  subst x y.
  rewrite (Hkey _ 0 (or_introl eq_refl)), (Hkey _ 0 (or_intror eq_refl)),
    (Hkey _ 1 (or_introl eq_refl)), (Hkey _ 1 (or_intror eq_refl)).
  rewrite !in_app_iff, !in_vertex_warning.
  repeat split; intros H; try tauto;
    destruct H as [[[H H']|[H H']]|[[H H']|[H H']]];
    try discriminate; try exact H'; congruence.
Qed.

Lemma vertex_warnings_exact_witness :
  (In (msg_vertex_inf 1 0) three_log <->
   F32.isinf (S754_finite false 12582912 (-15)) = true) /\
  (In (msg_vertex_nan 1 0) three_log <->
   F32.isnan (S754_finite false 12582912 (-15)) = true) /\
  (In (msg_vertex_inf 1 1) three_log <->
   F32.isinf (S754_finite false 14155776 (-15)) = true) /\
  (In (msg_vertex_nan 1 1) three_log <->
   F32.isnan (S754_finite false 14155776 (-15)) = true).
Proof.
  eapply (vertex_warnings_exact (env_of (file_of MAGIC three_lines))
            [txt "undgraph"; txt "three.txt"]).
  - vm_compute. reflexivity.
  - reflexivity.
Defined.

(** *** The header loop, token by token *)

Lemma tag_token_facts (t : cstr) :
  tag_token t = true ->
  (exists c t', t = c :: t' /\ isspace c = false) /\
  forallb (fun c => negb (isspace c)) t = true /\
  forallb (fun c => negb (Ascii.eqb c NUL)) t = true /\
  forallb (fun c => negb (Ascii.eqb c nl)) t = true /\
  1 <= length t <= 31.
Proof.
  unfold tag_token. intros H. apply andb_true_iff in H as [H H3].
  apply andb_true_iff in H as [H1 H2]. apply Nat.leb_le in H3.
  assert (Hall : forall c, In c t -> isspace c = false /\ Ascii.eqb c NUL = false
                           /\ Ascii.eqb c nl = false).
  { intros c Hc. rewrite forallb_forall in H2. specialize (H2 c Hc).
    apply andb_true_iff in H2 as [Ha Hb]. apply negb_true_iff in Ha, Hb.
    repeat split; try assumption.
    destruct (Ascii.eqb_spec c nl) as [->|]; [discriminate Ha|reflexivity]. }
  repeat split; try assumption.
  - destruct t as [|c t']; [discriminate|]. exists c, t'. split; [reflexivity|].
    apply Hall. now left.
  - apply forallb_forall. intros c Hc. apply negb_true_iff. now apply Hall.
  - apply forallb_forall. intros c Hc. apply negb_true_iff. now apply Hall.
  - apply forallb_forall. intros c Hc. apply negb_true_iff. now apply Hall.
  - destruct t; [discriminate|]. cbn. lia.
Qed.

Lemma separator_space (rest : list cstr) : isspace (separator rest) = true.
Proof. destruct rest; reflexivity. Qed.

Lemma tokens_text_head (ts : list cstr) :
  Forall (fun t => tag_token t = true) ts ->
  drop_while isspace (tokens_text ts) = tokens_text ts.
Proof.
  intros H. destruct H as [|t ts Ht _]; [reflexivity|].
  destruct (tag_token_facts t Ht) as ((c & t' & -> & Hc) & _).
  cbn. now rewrite Hc.
Qed.

Lemma tokens_text_length (ts : list cstr) :
  Forall (fun t => tag_token t = true) ts ->
  length ts <= length (tokens_text ts).
Proof.
  induction 1 as [|t ts Ht _ IH]; [reflexivity|].
  cbn [tokens_text length]. rewrite length_app. cbn [length]. lia.
Qed.

Lemma header_text_tokens (tags : list cstr) :
  header_text tags ++ [nl] = MAGIC ++ separator tags :: tokens_text tags.
Proof.
  unfold header_text. rewrite <- app_assoc. f_equal.
  induction tags as [|t ts IH]; [reflexivity|].
  cbn [map concat tokens_text separator]. rewrite <- !app_comm_cons.
  f_equal. rewrite <- app_assoc, IH. reflexivity.
Qed.

Lemma sscanf_token (t : cstr) (ts : list cstr) :
  tag_token t = true -> Forall (fun t => tag_token t = true) ts ->
  sscanf_s31_n (t ++ separator ts :: tokens_text ts) = Some (t, S (length t)).
Proof.
  intros Ht Hts.
  destruct (tag_token_facts t Ht) as ((c & t' & E & Hc) & Hsp & _ & _ & Hlen).
  unfold sscanf_s31_n.
  assert (Hd : drop_while isspace (t ++ separator ts :: tokens_text ts)
               = t ++ separator ts :: tokens_text ts).
  { rewrite E. cbn. now rewrite Hc. }
  rewrite Hd. rewrite E at 1. cbn [app]. rewrite app_comm_cons, <- E.
  assert (Htw : take_while (fun x => negb (isspace x))
                  (t ++ separator ts :: tokens_text ts) = t).
  { rewrite take_while_app_stop by (now rewrite separator_space).
    now apply take_while_all. }
  rewrite Htw, take_ge by lia. rewrite drop_app_length.
  cbn [drop_while]. rewrite separator_space, (tokens_text_head ts Hts).
  rewrite length_app. cbn [length]. do 2 f_equal. lia.
Qed.

Lemma apply_tags_cons (t : cstr) (ts : list cstr) (g : graphdata_s)
    (log : list event) :
  apply_tags (t :: ts) (g, log)
  = apply_tags ts ((header_tag t g).1, log ++ (header_tag t g).2).
Proof. reflexivity. Qed.

Lemma header_tags_tokens (ts : list cstr) :
  Forall (fun t => tag_token t = true) ts ->
  forall fuel pre lp nc g log,
    lp + nc = length pre -> length ts < fuel ->
    header_tags fuel (pre ++ tokens_text ts) (length (pre ++ tokens_text ts))
      lp nc g log
    = Some (apply_tags ts (g, log)).
Proof.
  induction 1 as [|t ts Ht Hts IH]; intros fuel pre lp nc g log Hl Hf;
    (destruct fuel as [|fuel]; [cbn in Hf; lia|]); cbn [header_tags].
  - cbn [tokens_text]. rewrite app_nil_r, Hl, drop_all.
    destruct (lp <? length pre); reflexivity.
  - destruct (tag_token_facts t Ht) as (_ & _ & _ & _ & Hlen).
    assert (Hlt : (lp <? length (pre ++ tokens_text (t :: ts))) = true).
    { apply Nat.ltb_lt. cbn [tokens_text]. rewrite !length_app. lia. }
    rewrite Hlt, Hl, drop_app_length. cbn [tokens_text].
    rewrite (sscanf_token t ts Ht Hts).
    rewrite apply_tags_cons. destruct (header_tag t g) as [g' w]. cbn [fst snd].
    replace (pre ++ t ++ separator ts :: tokens_text ts)
      with ((pre ++ t ++ [separator ts]) ++ tokens_text ts)
      by (now rewrite <- !app_assoc).
    apply IH.
    + rewrite !length_app. cbn [length]. lia.
    + cbn [length] in Hf. lia.
Qed.

Lemma header_text_line (tags : list cstr) :
  Forall (fun t => tag_token t = true) tags ->
  length (header_text tags) <= 62 ->
  header_line (header_text tags) = true.
Proof.
  intros Hts Hlen. unfold header_line, text_line.
  assert (Hno : forallb (fun c => negb (Ascii.eqb c nl) && negb (Ascii.eqb c NUL))
                  (header_text tags) = true).
  { unfold header_text. rewrite forallb_app. apply andb_true_iff.
    split; [reflexivity|]. clear Hlen.
    induction Hts as [|t ts Ht _ IH]; [reflexivity|].
    cbn [map concat]. rewrite <- app_comm_cons. cbn [forallb].
    rewrite forallb_app, IH.
    destruct (tag_token_facts t Ht) as (_ & _ & H1 & H2 & _).
    assert (H3 : forallb (fun c => negb (Ascii.eqb c nl) && negb (Ascii.eqb c NUL)) t
                 = true).
    { apply forallb_forall. intros c Hc.
      rewrite forallb_forall in H1, H2. now rewrite (H1 c Hc), (H2 c Hc). }
    now rewrite H3. }
  rewrite Hno. apply Nat.leb_le in Hlen. rewrite Hlen. cbn [andb].
  apply str_eqb_eq. unfold first_token, header_text.
  assert (Hd : drop_while isspace
                 (MAGIC ++ concat (map (fun t => " "%char :: t) tags))
               = MAGIC ++ concat (map (fun t => " "%char :: t) tags))
    by reflexivity.
  rewrite Hd. destruct tags as [|t ts]; [reflexivity|].
  cbn [map concat]. rewrite <- app_comm_cons.
  now rewrite take_while_app_stop by reflexivity.
Qed.

(** The header loop applies the body to each token of the line, from
    left to right. *)
Lemma header_of_tokens (tags : list cstr) (g0 : graphdata_s) :
  Forall (fun t => tag_token t = true) tags ->
  length (header_text tags) <= 62 ->
  header_of (header_text tags ++ [nl]) g0
  = Some (apply_tags tags (set_defaults g0, [])).
Proof.
  intros Hts Hlen. pose proof (header_text_line tags Hts Hlen) as Hh.
  unfold header_of. unfold header_line in Hh. apply andb_true_iff in Hh as [Ht _].
  rewrite (c_str_text_line _ Ht), header_text_tokens.
  rewrite (sscanf_token MAGIC tags eq_refl Hts). cbn [snd].
  replace (MAGIC ++ separator tags :: tokens_text tags)
    with ((MAGIC ++ [separator tags]) ++ tokens_text tags)
    by (now rewrite <- app_assoc).
  apply header_tags_tokens; [assumption|reflexivity|].
  pose proof (tokens_text_length tags Hts). rewrite length_app. lia.
Qed.

(** *** What a token does to the fields *)

Lemma strip_prefix_starts (key : cstr) (c : ascii) (tag r : cstr) :
  strip_prefix (key ++ [c]) tag = Some r -> starts_with key tag = true.
Proof.
  unfold starts_with. revert tag. induction key as [|x key IH]; intros tag;
    [reflexivity|].
  destruct tag as [|y tag]; [discriminate|]. cbn [app strip_prefix].
  destruct (Ascii.eqb x y); [apply IH|discriminate].
Qed.

Lemma conv_none (key tag : cstr) :
  starts_with key tag = false ->
  sscanf_key_d key tag = None /\ sscanf_key_f key tag = None.
Proof.
  intros H. unfold sscanf_key_d, sscanf_key_f.
  destruct (strip_prefix (key ++ [":"%char]) tag) as [r|] eqn:E; [|auto].
  apply strip_prefix_starts in E. congruence.
Qed.

Lemma header_tag_fields (tag : cstr) (g : graphdata_s) :
  msaa (header_tag tag g).1
  = match sscanf_key_d (txt "msaa") tag with Some v => v | None => msaa g end /\
  save (header_tag tag g).1
  = match sscanf_key_d (txt "save") tag with Some v => v | None => save g end /\
  line_width (header_tag tag g).1
  = match sscanf_key_f (txt "lw") tag with
    | Some v => v | None => line_width g end /\
  frame_px (header_tag tag g).1
  = match sscanf_key_f (txt "frame_px") tag with
    | Some v => v | None => frame_px g end /\
  (header_tag tag g).2
  = if unknown_tag tag then [msg_unknown_tag tag] else [].
Proof.
  unfold unknown_tag, KEYS. cbn [existsb].
  destruct (starts_with (txt "msaa") tag) eqn:E1.
  { rewrite (header_tag_known (txt "msaa") tag g) by (cbn; tauto). eval_key_tests.
    pose proof (starts_with_other (txt "msaa") (txt "save") _ eq_refl E1) as E2.
    pose proof (starts_with_other (txt "msaa") (txt "lw") _ eq_refl E1) as E3.
    pose proof (starts_with_other (txt "msaa") (txt "frame_px") _ eq_refl E1) as E4.
    destruct (conv_none _ _ E2) as [-> _]. destruct (conv_none _ _ E3) as [_ ->].
    destruct (conv_none _ _ E4) as [_ ->].
    destruct (sscanf_key_d (txt "msaa") tag); repeat split. }
  destruct (starts_with (txt "save") tag) eqn:E2.
  { rewrite (header_tag_known (txt "save") tag g) by (cbn; tauto). eval_key_tests.
    pose proof (starts_with_other (txt "save") (txt "lw") _ eq_refl E2) as E3.
    pose proof (starts_with_other (txt "save") (txt "frame_px") _ eq_refl E2) as E4.
    destruct (conv_none _ _ E1) as [-> _]. destruct (conv_none _ _ E3) as [_ ->].
    destruct (conv_none _ _ E4) as [_ ->].
    destruct (sscanf_key_d (txt "save") tag); repeat split. }
  destruct (starts_with (txt "lw") tag) eqn:E3.
  { rewrite (header_tag_known (txt "lw") tag g) by (cbn; tauto). eval_key_tests.
    pose proof (starts_with_other (txt "lw") (txt "frame_px") _ eq_refl E3) as E4.
    destruct (conv_none _ _ E1) as [-> _]. destruct (conv_none _ _ E2) as [-> _].
    destruct (conv_none _ _ E4) as [_ ->].
    destruct (sscanf_key_f (txt "lw") tag); repeat split. }
  destruct (starts_with (txt "frame_px") tag) eqn:E4.
  { rewrite (header_tag_known (txt "frame_px") tag g) by (cbn; tauto).
    eval_key_tests.
    destruct (conv_none _ _ E1) as [-> _]. destruct (conv_none _ _ E2) as [-> _].
    destruct (conv_none _ _ E3) as [_ ->].
    destruct (sscanf_key_f (txt "frame_px") tag); repeat split. }
  rewrite header_tag_unknown.
  - destruct (conv_none _ _ E1) as [-> _]. destruct (conv_none _ _ E2) as [-> _].
    destruct (conv_none _ _ E3) as [_ ->]. destruct (conv_none _ _ E4) as [_ ->].
    repeat split.
  - intros key [<-|[<-|[<-|[<-|[]]]]]; assumption.
Qed.

Lemma apply_tags_fields (tags : list cstr) (g : graphdata_s) (log : list event) :
  msaa (apply_tags tags (g, log)).1
  = last_value (sscanf_key_d (txt "msaa")) tags (msaa g) /\
  save (apply_tags tags (g, log)).1
  = last_value (sscanf_key_d (txt "save")) tags (save g) /\
  line_width (apply_tags tags (g, log)).1
  = last_value (sscanf_key_f (txt "lw")) tags (line_width g) /\
  frame_px (apply_tags tags (g, log)).1
  = last_value (sscanf_key_f (txt "frame_px")) tags (frame_px g) /\
  (apply_tags tags (g, log)).2
  = log ++ map msg_unknown_tag (List.filter unknown_tag tags).
Proof.
  revert g log. induction tags as [|t ts IH]; intros g log.
  - cbn. rewrite app_nil_r. repeat split.
  - rewrite apply_tags_cons.
    destruct (IH (header_tag t g).1 (log ++ (header_tag t g).2))
      as (H1 & H2 & H3 & H4 & H5).
    destruct (header_tag_fields t g) as (F1 & F2 & F3 & F4 & F5).
    rewrite H1, H2, H3, H4, H5, F1, F2, F3, F4, F5.
    unfold last_value. cbn [fold_left List.filter].
    repeat split.
    rewrite <- app_assoc. f_equal. destruct (unknown_tag t); reflexivity.
Qed.

Lemma tags_store_all (g : graphdata_s) (i : nat) (vs : list float) :
  msaa (store_all g i vs) = msaa g /\ save (store_all g i vs) = save g /\
  line_width (store_all g i vs) = line_width g.
Proof.
  revert g i. induction vs as [|v vs IH]; intros g i; cbn [store_all]; [auto|].
  destruct (IH (store_sample g i v) (S i)) as (H1 & H2 & H3).
  rewrite H1, H2, H3. unfold store_sample.
  destruct (F32.ltb (max_value g) v); cbn;
    match goal with |- context [if ?b then _ else _] => destruct b end; auto.
Qed.

Lemma tags_loaded (g1 : graphdata_s) (vs : list float) :
  msaa (loaded g1 vs) = msaa g1 /\ save (loaded g1 vs) = save g1 /\
  line_width (loaded g1 vs) = line_width g1.
Proof.
  unfold loaded. cbn [msaa save line_width set_tick_size].
  destruct (tags_store_all (allocated g1 (length vs)) 0 vs) as (H1 & H2 & H3).
  rewrite H1, H2, H3. auto.
Qed.

(** The outcome of [read_undgraph] on a file whose header is the magic
    word and a list of tokens. *)
Lemma read_undgraph_tokens (E : env) (name : cstr) (tags ls : list cstr)
    (g0 : graphdata_s) :
  fopen E name = Some (file_of (header_text tags) ls) ->
  Forall (fun t => tag_token t = true) tags ->
  length (header_text tags) <= 62 ->
  Forall (fun l => sample_line l = true) ls ->
  malloc E (4 * length ls) = true ->
  read_undgraph E name g0
  = Ret (1%Z, loaded (apply_tags tags (set_defaults g0, [])).1 (map strtof ls))
        ((apply_tags tags (set_defaults g0, [])).2 ++ [msg_found (length ls)]).
Proof.
  intros Ho Hts Hlen Hls Hm.
  pose proof (header_text_line tags Hts Hlen) as Hh.
  rewrite (read_undgraph_open E name _ _ _ g0 Ho (fgets_file_of _ ls Hh)).
  rewrite (magic_tag_header E _ Hh). change (str_eqb MAGIC MAGIC) with true.
  cbn match. rewrite (header_of_tokens tags g0 Hts Hlen).
  rewrite (samples_file_of _ ls Hh Hls), length_map, Hm.
  now destruct (apply_tags tags (set_defaults g0, [])).
Qed.

(** X11: how the header sets the tag fields. For a header made of the
    magic word and tokens separated by single spaces, each of [msaa],
    [save], [line_width] and [frame_px] ends as the value of the last
    token that converts for its key, and keeps its default (0, 0, 1.0, 0)
    when no token does. *)
Theorem header_fields (E : env) (name : cstr) (tags ls : list cstr)
    (g0 : graphdata_s) :
  fopen E name = Some (file_of (header_text tags) ls) ->
  Forall (fun t => tag_token t = true) tags ->
  length (header_text tags) <= 62 ->
  Forall (fun l => sample_line l = true) ls ->
  malloc E (4 * length ls) = true ->
  exists g, parsed (read_undgraph E name g0) g /\
    msaa g = last_value (sscanf_key_d (txt "msaa")) tags 0%Z /\
    save g = last_value (sscanf_key_d (txt "save")) tags 0%Z /\
    line_width g = last_value (sscanf_key_f (txt "lw")) tags F32.one /\
    frame_px g = last_value (sscanf_key_f (txt "frame_px")) tags F32.zero.
Proof.
  intros Ho Hts Hlen Hls Hm.
  pose proof (read_undgraph_tokens E name tags ls g0 Ho Hts Hlen Hls Hm) as Hr.
  eexists. split; [eexists; exact Hr|].
  destruct (tags_loaded (apply_tags tags (set_defaults g0, [])).1 (map strtof ls))
    as (H1 & H2 & H3).
  rewrite H1, H2, H3, frame_px_loaded.
  destruct (apply_tags_fields tags (set_defaults g0) []) as (F1 & F2 & F3 & F4 & _).
  rewrite F1, F2, F3, F4. repeat split.
Qed.

Lemma header_fields_witness :
  exists g,
    parsed (read_undgraph
              (env_of (file_of (header_text [txt "msaa:1"; txt "lw:2.5"])
                         three_lines))
              (txt "tags.txt") graphdata) g /\
    msaa g = last_value (sscanf_key_d (txt "msaa"))
               [txt "msaa:1"; txt "lw:2.5"] 0%Z /\
    save g = last_value (sscanf_key_d (txt "save"))
               [txt "msaa:1"; txt "lw:2.5"] 0%Z /\
    line_width g = last_value (sscanf_key_f (txt "lw"))
                     [txt "msaa:1"; txt "lw:2.5"] F32.one /\
    frame_px g = last_value (sscanf_key_f (txt "frame_px"))
                   [txt "msaa:1"; txt "lw:2.5"] F32.zero.
Proof.
  apply (header_fields
           (env_of (file_of (header_text [txt "msaa:1"; txt "lw:2.5"])
                      three_lines))
           (txt "tags.txt") [txt "msaa:1"; txt "lw:2.5"] three_lines graphdata).
  - reflexivity.
  - repeat constructor.
  - vm_compute. lia.
  - repeat constructor.
  - reflexivity.
Defined.

(** X12: the messages of a successful read. For such a header
    [read_undgraph] logs one unknown-tag warning for each token that
    starts with none of the four keys, in the order of the line, and then
    the number of values found; nothing else. *)
Theorem header_messages (E : env) (name : cstr) (tags ls : list cstr)
    (g0 : graphdata_s) :
  fopen E name = Some (file_of (header_text tags) ls) ->
  Forall (fun t => tag_token t = true) tags ->
  length (header_text tags) <= 62 ->
  Forall (fun l => sample_line l = true) ls ->
  malloc E (4 * length ls) = true ->
  exists g,
    read_undgraph E name g0
    = Ret (1%Z, g)
          (map msg_unknown_tag (List.filter unknown_tag tags)
           ++ [msg_found (length ls)]).
Proof.
  intros Ho Hts Hlen Hls Hm.
  pose proof (read_undgraph_tokens E name tags ls g0 Ho Hts Hlen Hls Hm) as Hr.
  destruct (apply_tags_fields tags (set_defaults g0) []) as (_ & _ & _ & _ & F5).
  rewrite F5 in Hr. eexists. exact Hr.
Qed.

Lemma header_messages_witness :
  exists g,
    read_undgraph
      (env_of (file_of (header_text [txt "color:red"; txt "lw:2"; txt "x"])
                 three_lines))
      (txt "tags.txt") graphdata
    = Ret (1%Z, g)
          (map msg_unknown_tag
             (List.filter unknown_tag [txt "color:red"; txt "lw:2"; txt "x"])
           ++ [msg_found (length three_lines)]).
Proof.
  apply (header_messages
           (env_of (file_of (header_text [txt "color:red"; txt "lw:2"; txt "x"])
                      three_lines))
           (txt "tags.txt") [txt "color:red"; txt "lw:2"; txt "x"] three_lines
           graphdata).
  - reflexivity.
  - repeat constructor.
  - vm_compute. lia.
  - repeat constructor.
  - reflexivity.
Defined.

(** *** Lines longer than the buffer *)

Lemma fgets_chars_full (n : nat) (a rest : cstr) :
  length a = n -> forallb (fun c => negb (Ascii.eqb c nl)) a = true ->
  fgets_chars n (a ++ rest) = (a, rest).
Proof.
  revert a. induction n as [|n IH]; intros a Hl Ha.
  - destruct a; [|discriminate]. cbn. now destruct rest.
  - destruct a as [|c a]; [discriminate|]. cbn in Ha.
    apply andb_true_iff in Ha as [Hc Ha]. apply negb_true_iff in Hc.
    cbn [app fgets_chars]. rewrite Hc, IH; [reflexivity|now injection Hl|assumption].
Qed.

Lemma full_chunk_facts (a : cstr) :
  full_chunk a = true ->
  length a = 63 /\ forallb (fun c => negb (Ascii.eqb c nl)) a = true /\
  c_str a = a.
Proof.
  unfold full_chunk. intros H. apply andb_true_iff in H as [Hl Ha].
  apply Nat.eqb_eq in Hl. split; [assumption|].
  assert (Hall : forall c, In c a -> Ascii.eqb c nl = false /\ Ascii.eqb c NUL = false).
  { intros c Hc. rewrite forallb_forall in Ha. specialize (Ha c Hc).
    apply andb_true_iff in Ha as [H1 H2]. now apply negb_true_iff in H1, H2. }
  split.
  - apply forallb_forall. intros c Hc. apply negb_true_iff. now apply Hall.
  - apply take_while_all. apply forallb_forall. intros c Hc.
    apply negb_true_iff. now apply Hall.
Qed.

Lemma fgets_full_chunk (a rest : cstr) :
  full_chunk a = true -> fgets 64 (a ++ rest) = Some (a, rest).
Proof.
  intros H. destruct (full_chunk_facts a H) as (Hl & Hn & _).
  unfold fgets. change (64 - 1) with 63.
  rewrite (fgets_chars_full 63 a rest Hl Hn).
  destruct a; [discriminate|reflexivity].
Qed.





(** X14: a header line longer than the buffer. When the first line has
    more than 63 characters, only its first 63 characters are the header;
    the rest of the line is read as the first data line, and when
    [sscanf] converts no number from that rest no sample is read at all,
    whatever follows. *)
Theorem long_header_empties (E : env) (name a b rest : cstr)
    (g0 : graphdata_s) :
  fopen E name = Some (a ++ b ++ nl :: rest) ->
  full_chunk a = true -> first_token a = MAGIC ->
  text_line b = true -> scan_f b = None ->
  malloc E 0 = true ->
  exists g, parsed (read_undgraph E name g0) g /\
    size g = 0 /\ values g = [] /\ data g = [].
Proof.
  intros Ho Ha Hmagic Hb Hs Hm.
  pose proof (fgets_full_chunk a (b ++ nl :: rest) Ha) as Hg.
  rewrite (read_undgraph_open E name _ _ _ g0 Ho Hg).
  destruct (full_chunk_facts a Ha) as (Hl & _ & Hc).
  assert (Hmt : magic_tag E a = MAGIC).
  { unfold magic_tag. rewrite Hc.
    destruct (sscanf_s31_n_token a) as [n Hn]; [rewrite Hmagic; discriminate|].
    rewrite Hn, Hmagic. reflexivity. }
  rewrite Hmt. change (str_eqb MAGIC MAGIC) with true. cbn match.
  destruct (header_of a g0) as [[g1 log]|] eqn:Eh;
    [|now apply header_of_total in Eh].
  assert (Hv : samples (a ++ b ++ nl :: rest) = []).
  { unfold samples, data_lines. rewrite Hg. cbn [lines].
    rewrite (fgets_text_line b rest Hb). cbn [take_while].
    now rewrite (not_counted_line b Hb Hs). }
  rewrite Hv. change (4 * length (@nil float)) with 0. rewrite Hm.
  eexists. split; [eexists; reflexivity|].
  rewrite size_loaded, values_loaded, data_loaded. auto.
Qed.

Lemma long_header_empties_witness :
  exists g,
    parsed (read_undgraph
              (env_of (wide_head ++ wide_tail ++ nl :: text ["1"; "2"]%string))
              (txt "wide.txt") graphdata) g /\
    size g = 0 /\ values g = [] /\ data g = [].
Proof.
  apply (long_header_empties
           (env_of (wide_head ++ wide_tail ++ nl :: text ["1"; "2"]%string))
           (txt "wide.txt") wide_head wide_tail (text ["1"; "2"]%string)).
  - reflexivity.
  - reflexivity.
  - reflexivity.
  - reflexivity.
  - vm_compute. reflexivity.
  - reflexivity.
Defined.

(** *** A successful read assigns every field *)

Lemma graphdata_eq (a b : graphdata_s) :
  msaa a = msaa b -> save a = save b -> line_width a = line_width b ->
  frame_px a = frame_px b -> max_value a = max_value b ->
  min_value a = min_value b -> tick_size a = tick_size b ->
  size a = size b -> data a = data b -> a = b.
Proof. destruct a, b; cbn; intros; subst; reflexivity. Qed.

Lemma header_tag_same (t : cstr) (g g' : graphdata_s) :
  same_tags g g' ->
  same_tags (header_tag t g).1 (header_tag t g').1 /\
  (header_tag t g).2 = (header_tag t g').2.
Proof.
  intros (H1 & H2 & H3 & H4).
  destruct (header_tag_fields t g) as (F1 & F2 & F3 & F4 & F5).
  destruct (header_tag_fields t g') as (G1 & G2 & G3 & G4 & G5).
  unfold same_tags. rewrite F1, F2, F3, F4, F5, G1, G2, G3, G4, G5, H1, H2, H3, H4.
  auto.
Qed.

Lemma header_tags_same (fuel : nat) (line : cstr) (i lp nc : nat)
    (g g' g1 : graphdata_s) (log log1 : list event) :
  same_tags g g' ->
  header_tags fuel line i lp nc g log = Some (g1, log1) ->
  exists g1', header_tags fuel line i lp nc g' log = Some (g1', log1) /\
    same_tags g1 g1'.
Proof.
  revert lp nc g g' log. induction fuel as [|fuel IH]; intros lp nc g g' log Hs;
    [discriminate|].
  cbn [header_tags].
  destruct (lp <? i); [|intros H; injection H as <- <-; eauto].
  destruct (sscanf_s31_n _) as [[tag nc']|]; [|intros H; injection H as <- <-; eauto].
  destruct (header_tag_same tag g g' Hs) as [Hs' Hw].
  destruct (header_tag tag g) as [h w], (header_tag tag g') as [h' w'].
  cbn [fst snd] in Hs', Hw. subst w'. now apply IH.
Qed.

Lemma loaded_same (g1 g1' : graphdata_s) (vs : list float) :
  same_tags g1 g1' -> loaded g1 vs = loaded g1' vs.
Proof.
  intros (H1 & H2 & H3 & H4).
  destruct (tags_loaded g1 vs) as (A1 & A2 & A3).
  destruct (tags_loaded g1' vs) as (B1 & B2 & B3).
  apply graphdata_eq.
  - congruence.
  - congruence.
  - congruence.
  - rewrite !frame_px_loaded. assumption.
  - now rewrite !max_loaded.
  - now rewrite !min_loaded.
  - now rewrite !tick_size_loaded, !max_loaded, !min_loaded, !size_loaded.
  - now rewrite !size_loaded.
  - now rewrite !data_loaded.
Qed.

(** X15: a successful read assigns every field of the structure. What
    [read_undgraph] leaves when it returns 1, and what it logs, depend on
    the file only, not on what the caller's structure held before. *)
Theorem read_overwrites_structure (E : env) (name : cstr)
    (g0 g0' g : graphdata_s) (log : list event) :
  read_undgraph E name g0 = Ret (1%Z, g) log ->
  read_undgraph E name g0' = Ret (1%Z, g) log.
Proof.
  intros H. destruct (fopen E name) as [file|] eqn:Ho.
  - destruct (fgets 64 file) as [[line fp]|] eqn:Hg.
    + rewrite (read_undgraph_open E name file line fp g0 Ho Hg) in H.
      rewrite (read_undgraph_open E name file line fp g0' Ho Hg).
      destruct (str_eqb _ _); [|discriminate].
      destruct (header_of line g0) as [[g1 l1]|] eqn:Hh; [|discriminate].
      unfold header_of in Hh.
      destruct (fun Hs => header_tags_same _ _ _ _ _ (set_defaults g0)
                  (set_defaults g0') g1 [] l1 Hs Hh) as (g1' & Hh' & Hs);
        [repeat split|].
      unfold header_of. rewrite Hh'.
      destruct (malloc E _); [|discriminate].
      rewrite <- (loaded_same g1 g1' _ Hs). exact H.
    + unfold read_undgraph in H. rewrite Ho, Hg in H. discriminate.
  - unfold read_undgraph in H. rewrite Ho in H. discriminate.
Qed.

Lemma read_overwrites_structure_witness :
  read_undgraph (env_of (file_of MAGIC three_lines)) [] three_parsed
  = Ret (1%Z, three_parsed) [msg_found 3].
Proof.
  apply (read_overwrites_structure (env_of (file_of MAGIC three_lines)) []
           graphdata three_parsed three_parsed [msg_found 3]).
  vm_compute. reflexivity.
Defined.

(** *** The screenshot *)

Lemma render_loop_no_save (n : nat) (closes : nat -> bool) (pixels : bool)
    (k : nat) (filename : cstr) (fuel : nat) :
  (forall j, j < n -> closes (k + j) = false) -> closes (k + n) = true ->
  n < fuel ->
  render_loop fuel closes pixels k 0%Z filename
  = Some (repeat frame_presented n).
Proof.
  revert k fuel. induction n as [|n IH]; intros k fuel Ho Hc Hf;
    (destruct fuel as [|fuel]; [lia|]); cbn [render_loop].
  - rewrite Nat.add_0_r in Hc. now rewrite Hc.
  - rewrite <- (Nat.add_0_r k) at 1. rewrite (Ho 0) by lia. cbn [Z.eqb].
    rewrite (IH (S k) fuel); [reflexivity| | |lia].
    + intros j Hj. replace (S k + j) with (k + S j) by lia. apply Ho. lia.
    + now replace (S k + n) with (k + S n) by lia.
Qed.

(** X16: the save tag takes one screenshot, in the first frame. If the
    window stays open for [n] frames, a run with [save] set presents the
    first frame, writes one PNG file named after the input file, and
    presents the other frames without writing again; if the window is
    closed before the first frame nothing is written. *)
Theorem screenshot_once (n : nat) (closes : nat -> bool) (save : Z)
    (filename : cstr) (fuel : nat) :
  (forall j, j < n -> closes j = false) -> closes n = true ->
  save <> 0%Z -> n < fuel ->
  render_loop fuel closes true 0 save filename
  = Some (match n with
          | O => []
          | S m => frame_presented :: png_written (png_name filename)
                   :: repeat frame_presented m
          end).
Proof.
  intros Ho Hc Hs Hf. destruct fuel as [|fuel]; [lia|]. cbn [render_loop].
  destruct n as [|m].
  - now rewrite Hc.
  - rewrite (Ho 0) by lia. apply Z.eqb_neq in Hs. rewrite Hs.
    rewrite (render_loop_no_save m closes true 1 filename fuel);
      [reflexivity| | |lia].
    + intros j Hj. apply Ho. lia.
    + exact Hc.
Qed.

Lemma screenshot_once_witness :
  render_loop 5 (closes_at 3) true 0 1%Z (txt "three.txt")
  = Some [frame_presented; png_written (png_name (txt "three.txt"));
          frame_presented; frame_presented].
Proof.
  apply (screenshot_once 3 (closes_at 3) 1%Z (txt "three.txt") 5).
  - intros j Hj. unfold closes_at. apply Nat.leb_gt. exact Hj.
  - reflexivity.
  - discriminate.
  - lia.
Defined.

(** X17: the name of the screenshot. It is the file name followed by
    .png as long as the file name has at most 123 characters; it never
    has more than 127 characters, so a longer file name loses the
    extension, and for a file name of exactly 127 characters the
    screenshot is written over the input file itself. *)
Theorem png_name_cut (filename : cstr) :
  forallb (fun c => negb (Ascii.eqb c NUL)) filename = true ->
  length (png_name filename) <= 127 /\
  (length filename <= 123 -> png_name filename = filename ++ txt ".png") /\
  (127 <= length filename -> png_name filename = take 127 filename) /\
  (length filename = 127 -> png_name filename = filename).
Proof.
  intros H. unfold png_name, snprintf_128, c_str.
  rewrite (take_while_all _ _ H).
  split; [rewrite length_take; lia|]. split; [|split].
  - intros Hl. apply take_ge. rewrite length_app. cbn. lia.
  - intros Hl. rewrite take_app_le by lia. reflexivity.
  - intros Hl. rewrite take_app_le by lia. apply take_ge. lia.
Qed.

Lemma png_name_cut_witness :
  length (png_name name_127) <= 127 /\
  (length name_127 <= 123 -> png_name name_127 = name_127 ++ txt ".png") /\
  (127 <= length name_127 -> png_name name_127 = take 127 name_127) /\
  (length name_127 = 127 -> png_name name_127 = name_127).
Proof.
  apply (png_name_cut name_127). reflexivity.
Defined.

(** *** A token longer than the tag buffer *)

Lemma sscanf_piece (t r : cstr) (sep : ascii) :
  tag_token t = true -> isspace sep = true -> drop_while isspace r = r ->
  sscanf_s31_n (t ++ sep :: r) = Some (t, S (length t)).
Proof.
  intros Ht Hsep Hr.
  destruct (tag_token_facts t Ht) as ((c & t' & E & Hc) & Hsp & _ & _ & Hlen).
  unfold sscanf_s31_n.
  assert (Hd : drop_while isspace (t ++ sep :: r) = t ++ sep :: r).
  { rewrite E. cbn. now rewrite Hc. }
  rewrite Hd. rewrite E at 1. cbn [app]. rewrite app_comm_cons, <- E.
  assert (Htw : take_while (fun x => negb (isspace x)) (t ++ sep :: r) = t).
  { rewrite take_while_app_stop by (now rewrite Hsep).
    now apply take_while_all. }
  rewrite Htw, take_ge by lia. rewrite drop_app_length.
  cbn [drop_while]. rewrite Hsep, Hr.
  rewrite length_app. cbn [length]. do 2 f_equal. lia.
Qed.

Lemma full_tag_facts (a : cstr) :
  full_tag a = true ->
  length a = 31 /\ forallb (fun c => negb (isspace c)) a = true /\
  forallb (fun c => negb (Ascii.eqb c nl) && negb (Ascii.eqb c NUL)) a = true /\
  exists c a', a = c :: a' /\ isspace c = false.
Proof.
  unfold full_tag. intros H. apply andb_true_iff in H as [Hl Ha].
  apply Nat.eqb_eq in Hl. split; [assumption|].
  assert (Hall : forall c, In c a -> isspace c = false /\ Ascii.eqb c NUL = false
                           /\ Ascii.eqb c nl = false).
  { intros c Hc. rewrite forallb_forall in Ha. specialize (Ha c Hc).
    apply andb_true_iff in Ha as [H1 H2]. apply negb_true_iff in H1, H2.
    repeat split; try assumption.
    destruct (Ascii.eqb_spec c nl) as [->|]; [discriminate H1|reflexivity]. }
  repeat split.
  - apply forallb_forall. intros c Hc. apply negb_true_iff. now apply Hall.
  - apply forallb_forall. intros c Hc.
    destruct (Hall c Hc) as (_ & H1 & H2). now rewrite H1, H2.
  - destruct a as [|c a']; [discriminate|]. exists c, a'. split; [reflexivity|].
    apply Hall. now left.
Qed.

Lemma take_while_prefix {A} (p : A -> bool) (a s : list A) :
  forallb p a = true -> exists u, take_while p (a ++ s) = a ++ u.
Proof.
  induction a as [|x a IH]; intros H; [eexists; reflexivity|].
  cbn in H. apply andb_true_iff in H as [Hx H].
  destruct (IH H) as [u Hu]. exists u. cbn. now rewrite Hx, Hu.
Qed.

Lemma sscanf_long (a b r : cstr) :
  full_tag a = true -> tag_token b = true ->
  sscanf_s31_n (a ++ b ++ r) = Some (a, 31).
Proof.
  intros Ha Hb. destruct (full_tag_facts a Ha) as (Hl & Hsp & _ & (c & a' & E & Hc)).
  destruct (tag_token_facts b Hb) as ((d & b' & Eb & Hd) & _).
  unfold sscanf_s31_n.
  assert (Hdr : drop_while isspace (a ++ b ++ r) = a ++ b ++ r).
  { rewrite E. cbn. now rewrite Hc. }
  rewrite Hdr. rewrite E at 1. cbn [app]. rewrite app_comm_cons, <- E.
  assert (Htk : take 31 (take_while (fun x => negb (isspace x)) (a ++ b ++ r)) = a).
  { destruct (take_while_prefix (fun x => negb (isspace x)) a (b ++ r) Hsp)
      as [u ->].
    rewrite take_app_le by lia. apply take_ge. lia. }
  rewrite Htk, drop_app_length.
  assert (Hb' : drop_while isspace (b ++ r) = b ++ r)
    by (rewrite Eb; cbn; now rewrite Hd).
  rewrite Hb', !length_app. do 2 f_equal. lia.
Qed.

Lemma header_tags_step (fuel : nat) (line : cstr) (i lp nc : nat)
    (g : graphdata_s) (log : list event) (tag : cstr) (nc' : nat) :
  lp < i -> sscanf_s31_n (drop (lp + nc) line) = Some (tag, nc') ->
  header_tags (S fuel) line i lp nc g log
  = header_tags fuel line i (lp + nc) nc' (header_tag tag g).1
      (log ++ (header_tag tag g).2).
Proof.
  intros Hlt Hs. cbn [header_tags]. apply Nat.ltb_lt in Hlt. rewrite Hlt, Hs.
  now destruct (header_tag tag g).
Qed.

Lemma tokens_text_app (ts : list cstr) (w : cstr) (post : list cstr) :
  tokens_text (ts ++ w :: post)
  = concat (map (fun t => t ++ [" "%char]) ts) ++ tokens_text (w :: post).
Proof.
  induction ts as [|t ts IH]; [reflexivity|].
  cbn [app tokens_text map concat]. rewrite IH, <- !app_assoc.
  destruct ts; reflexivity.
Qed.

Lemma apply_tags_app (xs ys : list cstr) (s : graphdata_s * list event) :
  apply_tags (xs ++ ys) s = apply_tags ys (apply_tags xs s).
Proof. unfold apply_tags. apply fold_left_app. Qed.

(** The header loop over tokens that are each followed by a space, up to
    the text [rest] that follows them. *)
Lemma header_tags_spaced (ts : list cstr) (rest : cstr) :
  Forall (fun t => tag_token t = true) ts ->
  rest <> [] -> drop_while isspace rest = rest ->
  forall fuel pre lp nc g log,
    lp + nc = length pre ->
    exists lp' nc',
      lp' + nc' = length (pre ++ concat (map (fun t => t ++ [" "%char]) ts)) /\
      header_tags (length ts + fuel)
        (pre ++ concat (map (fun t => t ++ [" "%char]) ts) ++ rest)
        (length (pre ++ concat (map (fun t => t ++ [" "%char]) ts) ++ rest))
        lp nc g log
      = header_tags fuel
          (pre ++ concat (map (fun t => t ++ [" "%char]) ts) ++ rest)
          (length (pre ++ concat (map (fun t => t ++ [" "%char]) ts) ++ rest))
          lp' nc' (apply_tags ts (g, log)).1 (apply_tags ts (g, log)).2.
Proof.
  intros Hts Hne Hr. induction Hts as [|t ts Ht Hts IH];
    intros fuel pre lp nc g log Hl.
  - exists lp, nc. cbn [map concat length]. rewrite app_nil_r. auto.
  - destruct (tag_token_facts t Ht) as (_ & _ & _ & _ & Hlen).
    cbn [map concat length Nat.add].
    assert (Hd : drop_while isspace
                   (concat (map (fun t => t ++ [" "%char]) ts) ++ rest)
                 = concat (map (fun t => t ++ [" "%char]) ts) ++ rest).
    { destruct Hts as [|t' ts' Ht' _]; [exact Hr|].
      destruct (tag_token_facts t' Ht') as ((c & t1 & -> & Hc) & _).
      cbn. now rewrite Hc. }
    rewrite (header_tags_step _ _ _ lp nc g log t (S (length t))).
    + destruct (IH fuel (pre ++ t ++ [" "%char]) (lp + nc) (S (length t))
                  (header_tag t g).1 (log ++ (header_tag t g).2)) as (lp' & nc' & H1 & H2).
      { rewrite !length_app. cbn [length]. lia. }
      exists lp', nc'. rewrite apply_tags_cons.
      rewrite <- !app_assoc in H1, H2. cbn [app] in H1, H2.
      rewrite <- !app_assoc. cbn [app]. split; [exact H1|exact H2].
    + rewrite !length_app. lia.
    + rewrite Hl, drop_app_length, <- !app_assoc. cbn [app].
      apply sscanf_piece; [exact Ht|reflexivity|exact Hd].
Qed.

Lemma spaced_length (ts : list cstr) :
  length ts <= length (concat (map (fun t => t ++ [" "%char]) ts)).
Proof.
  induction ts as [|t ts IH]; [reflexivity|].
  cbn [map concat length]. rewrite !length_app. cbn [length]. lia.
Qed.

Lemma not_space_not_nl (c : ascii) :
  isspace c = false -> Ascii.eqb c nl = false.
Proof.
  intros H. destruct (Ascii.eqb_spec c nl) as [->|]; [discriminate H|reflexivity].
Qed.

(** A header line made of the magic word and words of any length. *)
Lemma header_words_line (ws : list cstr) :
  Forall (fun w => forallb (fun c => negb (isspace c) && negb (Ascii.eqb c NUL)) w
                   = true) ws ->
  length (header_text ws) <= 62 ->
  header_line (header_text ws) = true.
Proof.
  intros Hws Hlen. unfold header_line, text_line.
  assert (Hno : forallb (fun c => negb (Ascii.eqb c nl) && negb (Ascii.eqb c NUL))
                  (header_text ws) = true).
  { unfold header_text. rewrite forallb_app. apply andb_true_iff.
    split; [reflexivity|]. clear Hlen.
    induction Hws as [|w ws Hw _ IH]; [reflexivity|].
    cbn [map concat]. rewrite <- app_comm_cons. cbn [forallb].
    rewrite forallb_app, IH.
    assert (H3 : forallb (fun c => negb (Ascii.eqb c nl) && negb (Ascii.eqb c NUL)) w
                 = true).
    { apply forallb_forall. intros c Hc. rewrite forallb_forall in Hw.
      specialize (Hw c Hc). apply andb_true_iff in Hw as [H1 H2].
      apply negb_true_iff in H1. now rewrite (not_space_not_nl c H1), H2. }
    now rewrite H3. }
  rewrite Hno. apply Nat.leb_le in Hlen. rewrite Hlen. cbn [andb].
  apply str_eqb_eq. unfold first_token, header_text.
  assert (Hd : drop_while isspace
                 (MAGIC ++ concat (map (fun t => " "%char :: t) ws))
               = MAGIC ++ concat (map (fun t => " "%char :: t) ws))
    by reflexivity.
  rewrite Hd. destruct ws as [|t ts]; [reflexivity|].
  cbn [map concat]. rewrite <- app_comm_cons.
  now rewrite take_while_app_stop by reflexivity.
Qed.

Lemma long_header_line (pre post : list cstr) (a b : cstr) :
  Forall (fun t => tag_token t = true) pre ->
  full_tag a = true -> tag_token b = true ->
  Forall (fun t => tag_token t = true) post ->
  length (header_text (pre ++ (a ++ b) :: post)) <= 62 ->
  header_line (header_text (pre ++ (a ++ b) :: post)) = true.
Proof.
  intros Hpre Ha Hb Hpost Hlen. apply header_words_line; [|exact Hlen].
  assert (Hw : forall t, tag_token t = true ->
            forallb (fun c => negb (isspace c) && negb (Ascii.eqb c NUL)) t = true).
  { intros t Ht. unfold tag_token in Ht. apply andb_true_iff in Ht as [Ht _].
    now apply andb_true_iff in Ht as [_ Ht]. }
  apply Forall_app. split; [eapply Forall_impl; [exact Hpre|exact Hw]|].
  constructor; [|eapply Forall_impl; [exact Hpost|exact Hw]].
  rewrite forallb_app, (Hw b Hb). unfold full_tag in Ha.
  apply andb_true_iff in Ha as [_ ->]. reflexivity.
Qed.

(** The header loop on a line with one token longer than 31 characters
    among its tokens. *)
Lemma header_of_long_tag (pre post : list cstr) (a b : cstr)
    (g0 : graphdata_s) :
  Forall (fun t => tag_token t = true) pre ->
  full_tag a = true -> tag_token b = true ->
  Forall (fun t => tag_token t = true) post ->
  length (header_text (pre ++ (a ++ b) :: post)) <= 62 ->
  header_of (header_text (pre ++ (a ++ b) :: post) ++ [nl]) g0
  = Some (apply_tags (pre ++ a :: b :: post) (set_defaults g0, [])).
Proof.
  intros Hpre Ha Hb Hpost Hlen.
  pose proof (long_header_line pre post a b Hpre Ha Hb Hpost Hlen) as Hh.
  destruct (full_tag_facts a Ha) as (Hl & Hsp & Hna & (c & a' & Ea & Hca)).
  unfold header_of. unfold header_line in Hh.
  apply andb_true_iff in Hh as [Ht _].
  rewrite (c_str_text_line _ Ht), header_text_tokens.
  replace (separator (pre ++ (a ++ b) :: post)) with " "%char
    by (destruct pre; reflexivity).
  rewrite tokens_text_app. cbn [tokens_text]. rewrite <- (app_assoc a b).
  change (b ++ separator post :: tokens_text post) with (tokens_text (b :: post)).
  set (sp := concat (map (fun t => t ++ [" "%char]) pre)).
  set (tl := tokens_text (b :: post)).
  assert (Hrest : drop_while isspace (a ++ tl) = a ++ tl)
    by (rewrite Ea; cbn; now rewrite Hca).
  assert (Hd : drop_while isspace (sp ++ a ++ tl) = sp ++ a ++ tl).
  { unfold sp. destruct Hpre as [|t' ts' Ht' _]; [exact Hrest|].
    destruct (tag_token_facts t' Ht') as ((c' & t1 & -> & Hc') & _).
    cbn. now rewrite Hc'. }
  rewrite (sscanf_piece MAGIC (sp ++ a ++ tl) " "%char eq_refl eq_refl Hd).
  cbn [snd]. change (S (length MAGIC)) with 9.
  replace (MAGIC ++ " "%char :: sp ++ a ++ tl)
    with ((MAGIC ++ [" "%char]) ++ sp ++ a ++ tl)
    by (now rewrite <- app_assoc).
  set (L := (MAGIC ++ [" "%char]) ++ sp ++ a ++ tl).
  assert (HL : length L = 9 + length sp + 31 + length tl).
  { unfold L. rewrite !length_app, Hl. cbn. lia. }
  pose proof (spaced_length pre) as Hsp1. fold sp in Hsp1.
  pose proof (tokens_text_length (b :: post) (List.Forall_cons _ b post Hb Hpost)) as Htl.
  fold tl in Htl. cbn [length] in Htl.
  replace (S (length L))
    with (length pre + S (S (S (length post)) + (length L - length pre - 2 - length post)))
    by lia.
  destruct (header_tags_spaced pre (a ++ tl) Hpre
              ltac:(rewrite Ea; discriminate) Hrest
              (S (S (S (length post)) + (length L - length pre - 2 - length post)))
              (MAGIC ++ [" "%char]) 0 9 (set_defaults g0) [] eq_refl)
    as (lp' & nc' & H1 & H2).
  fold sp in H1, H2. fold L in H2. rewrite H2.
  rewrite length_app in H1. change (length (MAGIC ++ [" "%char])) with 9 in H1.
  destruct (apply_tags pre (set_defaults g0, [])) as [g1 l1] eqn:E1.
  cbn [fst snd].
  rewrite (header_tags_step _ L _ lp' nc' g1 l1 a 31).
  - assert (EL : L = ((MAGIC ++ [" "%char]) ++ sp ++ a) ++ tokens_text (b :: post))
      by (unfold L, tl; now rewrite <- !app_assoc).
    rewrite EL in *. clear H2. rewrite header_tags_tokens.
    + rewrite apply_tags_app, E1, !apply_tags_cons. reflexivity.
    + now constructor.
    + rewrite !length_app. change (length MAGIC) with 8. cbn [length]. lia.
    + cbn [length]. lia.
  - lia.
  - replace (lp' + nc') with (length ((MAGIC ++ [" "%char]) ++ sp))
      by (rewrite !length_app; change (length MAGIC) with 8; cbn [length]; lia).
    unfold L. rewrite (app_assoc _ sp), drop_app_length.
    unfold tl. cbn [tokens_text]. apply (sscanf_long a b _ Ha Hb).
Qed.

(** X18: a token longer than the tag buffer is read in two pieces. In a
    header of tokens separated by single spaces, a token of more than 31
    characters is handled as two tokens, its first 31 characters and the
    rest: each piece sets a field or draws a warning on its own, between
    the tokens before it and those after it. *)
Theorem long_tag_split (E : env) (name a b : cstr) (pre post ls : list cstr)
    (g0 : graphdata_s) :
  fopen E name
  = Some (file_of (header_text (pre ++ (a ++ b) :: post)) ls) ->
  Forall (fun t => tag_token t = true) pre ->
  full_tag a = true -> tag_token b = true ->
  Forall (fun t => tag_token t = true) post ->
  length (header_text (pre ++ (a ++ b) :: post)) <= 62 ->
  Forall (fun l => sample_line l = true) ls ->
  malloc E (4 * length ls) = true ->
  read_undgraph E name g0
  = Ret (1%Z, loaded (apply_tags (pre ++ a :: b :: post)
                        (set_defaults g0, [])).1
                     (map strtof ls))
        ((apply_tags (pre ++ a :: b :: post) (set_defaults g0, [])).2
         ++ [msg_found (length ls)]).
Proof.
  intros Ho Hpre Ha Hb Hpost Hlen Hls Hm.
  pose proof (long_header_line pre post a b Hpre Ha Hb Hpost Hlen) as Hh.
  rewrite (read_undgraph_open E name _ _ _ g0 Ho (fgets_file_of _ ls Hh)).
  rewrite (magic_tag_header E _ Hh). change (str_eqb MAGIC MAGIC) with true.
  cbn match.
  rewrite (header_of_long_tag pre post a b g0 Hpre Ha Hb Hpost Hlen).
  rewrite (samples_file_of _ ls Hh Hls), length_map, Hm.
  now destruct (apply_tags (pre ++ a :: b :: post) (set_defaults g0, [])).
Qed.

Lemma long_tag_split_witness :
  read_undgraph
    (env_of (file_of (header_text ([txt "msaa:1"]
                                   ++ (long_tag_head ++ long_tag_tail)
                                   :: [txt "zz"]))
               three_lines))
    (txt "tag.txt") graphdata
  = Ret (1%Z, loaded (apply_tags ([txt "msaa:1"]
                                  ++ long_tag_head :: long_tag_tail
                                  :: [txt "zz"])
                        (set_defaults graphdata, [])).1
                     (map strtof three_lines))
        ((apply_tags ([txt "msaa:1"] ++ long_tag_head :: long_tag_tail
                      :: [txt "zz"])
            (set_defaults graphdata, [])).2
         ++ [msg_found (length three_lines)]).
Proof.
  apply (long_tag_split
           (env_of (file_of (header_text ([txt "msaa:1"]
                                          ++ (long_tag_head ++ long_tag_tail)
                                          :: [txt "zz"]))
                      three_lines))
           (txt "tag.txt") long_tag_head long_tag_tail
           [txt "msaa:1"] [txt "zz"] three_lines graphdata).
  - reflexivity.
  - repeat constructor.
  - reflexivity.
  - reflexivity.
  - repeat constructor.
  - vm_compute. lia.
  - repeat constructor.
  - reflexivity.
Defined.

(** *** A first line without a token *)

Lemma sscanf_blank (s : cstr) : first_token s = [] -> sscanf_s31_n s = None.
Proof.
  unfold first_token, sscanf_s31_n.
  destruct (drop_while isspace s) as [|c s1] eqn:E; [reflexivity|].
  assert (Hc : isspace c = false).
  { clear -E. induction s as [|x s IH]; [discriminate|]. cbn in E.
    destruct (isspace x) eqn:Ex; [auto|]. now injection E as -> _. }
  cbn. rewrite Hc. discriminate.
Qed.

(** X19: a first line without a token. When the part of the first line
    that the buffer holds is white space only, [sscanf] stores nothing
    and the magic check compares whatever bytes [tag] held before: the
    read fails with the invalid-header message unless those bytes happen
    to spell the magic word. *)
Theorem blank_header_reads_stack (E : env) (name file : cstr)
    (g0 : graphdata_s) :
  fopen E name = Some file -> file <> [] ->
  first_token (header_buffer file) = [] ->
  (stack_tag E <> MAGIC ->
   read_undgraph E name g0
   = Ret (0%Z, set_defaults g0) [msg_invalid_header]) /\
  (stack_tag E = MAGIC ->
   ~ format_error (read_undgraph E name g0)).
Proof.
  intros Ho Hne Hb.
  destruct file as [|c file]; [contradiction|].
  pose proof (fgets_nonempty c file) as Hg.
  destruct (fgets_chars 63 (c :: file)) as [line fp] eqn:Ec.
  rewrite (read_undgraph_open E name _ line fp g0 Ho Hg).
  unfold header_buffer in Hb. rewrite Ec in Hb. cbn [fst] in Hb.
  unfold magic_tag. rewrite (sscanf_blank _ Hb). split.
  - intros Hs. destruct (str_eqb (stack_tag E) MAGIC) eqn:Es; [|reflexivity].
    apply str_eqb_eq in Es. contradiction.
  - intros Hs. rewrite Hs. change (str_eqb MAGIC MAGIC) with true. cbn match.
    intros [g Hf]. destruct (header_of line g0) as [[g1 l]|]; [|discriminate].
    destruct (malloc E _); discriminate.
Qed.

Lemma blank_header_reads_stack_witness :
  (stack_tag (env_with_stack (text [" "; "1"]%string) (txt "undgraph")) <> MAGIC ->
   read_undgraph (env_with_stack (text [" "; "1"]%string) (txt "undgraph"))
     (txt "blank.txt") graphdata
   = Ret (0%Z, set_defaults graphdata) [msg_invalid_header]) /\
  (stack_tag (env_with_stack (text [" "; "1"]%string) (txt "undgraph")) = MAGIC ->
   ~ format_error
       (read_undgraph (env_with_stack (text [" "; "1"]%string) (txt "undgraph"))
          (txt "blank.txt") graphdata)).
Proof.
  apply (blank_header_reads_stack
           (env_with_stack (text [" "; "1"]%string) (txt "undgraph"))
           (txt "blank.txt") (text [" "; "1"]%string) graphdata).
  - reflexivity.
  - discriminate.
  - reflexivity.
Defined.

(** *** The note about the padding *)

Lemma note_not_vertex (g : graphdata_s) (i : nat) (vs : list float) :
  ~ In msg_frame_px_note (warnings_from g i vs).
Proof.
  rewrite in_warnings_from. intros (k & v & _ & H).
  unfold vertex_warnings in H. rewrite in_app_iff, !in_vertex_warning in H.
  destruct H as [[[H _]|[H _]]|[[H _]|[H _]]]; discriminate.
Qed.

(** X20: the note about the padding. A run that got past the read prints
    the note that [frame_px] is close to zero exactly when the padding the
    file gave is at most FLT_EPSILON: for a zero or negative padding, and
    never for a NaN. The command line does not change this. *)
Theorem frame_px_note_iff (E : env) (argv : list cstr)
    (out : Z + list (option vec2_t)) (log : list event) (g : graphdata_s) :
  main E argv = Ret out log ->
  parsed (read_undgraph E (main_filename argv) graphdata) g ->
  In msg_frame_px_note log <-> F32.leb (frame_px g) F32.FLT_EPSILON = true.
Proof.
  intros Hm [log1 Hr]. rewrite main_unfold in Hm. cbn zeta in Hm.
  rewrite Hr in Hm. cbn [Z.eqb] in Hm.
  destruct (read_undgraph_log _ _ _ _ _ _ Hr) as [[? _]|[_ [tags ->]]];
    [discriminate|].
  destruct (size_force_flags (drop 2 argv) g) as (Hs & Hdat & Hfp & _).
  set (g' := force_flags (drop 2 argv) g) in *. rewrite Hfp in Hm.
  assert (H0 : ~ In msg_frame_px_note
                 (match argv with
                  | _ :: f :: _ => [msg_reading f]
                  | _ => [msg_default_file]
                  end)).
  { destruct argv as [|? [|? ?]]; cbn; intros [H|[]]; discriminate. }
  assert (H1 : ~ In msg_frame_px_note
                 (map msg_unknown_tag tags ++ [msg_found (size g)])).
  { rewrite in_app_iff, in_map_iff. intros [(t & H & _)|[H|[]]]; discriminate. }
  assert (H2 : forall fixed : list event,
             fixed = [msg_window; msg_color; msg_msaa (bool_to_string (msaa g'));
                      msg_save (bool_to_string (save g'));
                      msg_line_width (line_width g'); msg_frame_px (frame_px g)] ->
             ~ In msg_frame_px_note fixed).
  { intros fixed ->. cbn. intros H.
    repeat (destruct H as [H|H]; [discriminate|]). exact H. }
  assert (H3 : forall l3,
             ~ In msg_frame_px_note l3 ->
             (In msg_frame_px_note
                ((match argv with
                  | _ :: f :: _ => [msg_reading f]
                  | _ => [msg_default_file]
                  end)
                 ++ (map msg_unknown_tag tags ++ [msg_found (size g)])
                 ++ ([msg_window; msg_color; msg_msaa (bool_to_string (msaa g'));
                      msg_save (bool_to_string (save g'));
                      msg_line_width (line_width g'); msg_frame_px (frame_px g)]
                     ++ (if F32.leb (frame_px g) F32.FLT_EPSILON
                         then [msg_frame_px_note] else []))
                 ++ l3)
              <-> F32.leb (frame_px g) F32.FLT_EPSILON = true)).
  { intros l3 Hl3. rewrite !in_app_iff.
    specialize (H2 _ eq_refl).
    destruct (F32.leb (frame_px g) F32.FLT_EPSILON); cbn [In]; split.
    - reflexivity.
    - intros _. right. right. left. right. now left.
    - intros [H|[[H|H]|[[H|[]]|H]]]; try contradiction.
      + exfalso. apply H1. rewrite in_app_iff. now left.
      + exfalso. apply H1. rewrite in_app_iff. now right.
    - discriminate. }
  destruct (renderer_ready E).
  - destruct (build_mesh E g') as [mesh l3| |] eqn:Hb; try discriminate.
    injection Hm as _ <-.
    destruct (parsed_invariant _ _ _ _ (ex_intro _ _ Hr)) as (Hd & Hl & _).
    unfold build_mesh in Hb. destruct (malloc E _); [|discriminate].
    apply (mesh_loop_log g' (values g)) in Hb;
      [|now rewrite Hdat|now rewrite Hs|lia].
    cbn [app] in Hb. rewrite drop_0 in Hb. subst l3.
    apply H3, note_not_vertex.
  - injection Hm as _ <-.
    pose proof (H3 [] (fun x => x)) as H. rewrite app_nil_r in H. exact H.
Qed.

Lemma frame_px_note_iff_witness :
  In msg_frame_px_note three_log
  <-> F32.leb (frame_px three_parsed) F32.FLT_EPSILON = true.
Proof.
  apply (frame_px_note_iff (env_of (file_of MAGIC three_lines))
           [txt "undgraph"; txt "three.txt"]
           (inr (match main (env_of (file_of MAGIC three_lines))
                         [txt "undgraph"; txt "three.txt"] with
                 | Ret (inr m) _ => m
                 | _ => []
                 end))).
  - vm_compute. reflexivity.
  - eexists. vm_compute. reflexivity.
Defined.
